(** * Sparse matrices: a shallow embedding of [sparse_matrix.py]

    The repository holds two versions of the class [SparseMatrix]:

    - [src/code/sparse_matrix.py]           (module [Code] below), whose
      accessors do not validate coordinates, whose reader checks the upper
      bounds of every coordinate and whose product is the dense triple loop;
    - [src/integral-file/sparse_matrix.py]  (module [Integral] below), whose
      accessors validate coordinates, whose reader checks the syntax of the
      fields only and whose product is driven by the stored entries.

    Python integers are unbounded: they are modelled by [Z].  The attribute
    [data] is a [dict] keyed by pairs of integers: it is modelled by a
    [gmap (Z * Z) Z].  A Python [dict] iterates in insertion order, which the
    contents of the dictionary do not determine; every loop over a dictionary
    is therefore written as a function of the list it walks through, and the
    method applies it to [map_to_list].  The theorems about such loops are
    stated for every listing of the dictionary.

    Exceptions are modelled by the type [error]; a method that can raise
    returns a [result].

    The readers and writers are functions of the text of the file: opening
    and closing the file, and what the readers print before they raise, are
    not modelled.  [int] and [str] convert integers of any size (the limit
    an interpreter may put on the number of digits is not modelled).

    The methods are written twice: as functions of matrices (modules [Code]
    and [Integral]), and as statements over a store of mutable objects
    (module [Store]), where a matrix refers to its dictionary and the
    dictionary is updated in place. *)

From Stdlib Require Import ZArith Ascii String.
From stdpp Require Import gmap list fin_maps strings.

Open Scope Z_scope.

(** ** Errors and results *)

(** The exceptions that leave the methods of the class:
    - [DimensionMismatch] is the [ValueError] raised by [add], [subtract]
      and [multiply] on operands of incompatible shapes;
    - [FormatError] is the [ValueError] raised by the readers (they catch
      every exception and raise this one instead);
    - [IndexOutOfBounds] is the [IndexError] raised by the validating
      accessors. *)
Inductive error : Type :=
  | DimensionMismatch
  | FormatError
  | IndexOutOfBounds.

Inductive result (A : Type) : Type :=
  | Ok (a : A)
  | Err (e : error).

Arguments Ok {A} a.
Arguments Err {A} e.

(** Sequencing: an exception aborts what follows ([x ← r; k]). *)
#[global] Instance result_ret : MRet result := λ A a, Ok a.

#[global] Instance result_bind : MBind result := λ A B k r,
  match r with
  | Ok a => k a
  | Err e => Err e
  end.

(** [for x in l: acc = body acc x], stopping at the first exception. *)
Fixpoint for_each {A S : Type} (body : S → A → result S) (l : list A) (s : S)
  : result S :=
  match l with
  | [] => Ok s
  | x :: l' => s' ← body s x ; for_each body l' s'
  end.

(** The same loop for a body that signals an exception by [None]. *)
Fixpoint for_each_opt {A S : Type} (body : S → A → option S) (l : list A)
    (s : S) : option S :=
  match l with
  | [] => Some s
  | x :: l' => s' ← body s x ; for_each_opt body l' s'
  end.

(** [try: body  except Exception: raise ValueError("Input file has wrong
    format")]: whatever exception the body raises ([None]), the reader raises
    the same [ValueError]. *)
Definition try_except {A : Type} (body : option A) : result A :=
  match body with
  | Some a => Ok a
  | None => Err FormatError
  end.

(** ** The data model *)

Record SparseMatrix : Type := mkSparseMatrix {
  rows : Z;
  cols : Z;
  data : gmap (Z * Z) Z
}.

(** [range(n)]: the integers [0 .. n-1], empty when [n <= 0]. *)
Definition range (n : Z) : list Z := Z.of_nat <$> seq 0 (Z.to_nat n).

(** [d.get(k, 0)] *)
Definition dict_get0 (d : gmap (Z * Z) Z) (k : Z * Z) : Z := default 0 (d !! k).

(** The value of a matrix at a coordinate: the stored value, 0 if absent. *)
Definition entry (m : SparseMatrix) (i j : Z) : Z := dict_get0 (data m) (i, j).

Definition in_bounds (m : SparseMatrix) (r c : Z) : Prop :=
  0 ≤ r < rows m ∧ 0 ≤ c < cols m.

(** The invariants of the data model: stored coordinates lie inside the
    shape and no stored value is zero. *)
Definition keys_in_bounds (m : SparseMatrix) : Prop :=
  ∀ r c v, data m !! (r, c) = Some v → in_bounds m r c.

Definition no_stored_zero (m : SparseMatrix) : Prop :=
  ∀ k, data m !! k ≠ Some 0.

Definition wf (m : SparseMatrix) : Prop :=
  keys_in_bounds m ∧ no_stored_zero m.

Definition sumZ (l : list Z) : Z := foldr Z.add 0 l.

(** The coefficient of the matrix product: the sum over [0 <= k < cols A] of
    [A(i,k) * B(k,j)]. *)
Definition dot (A B : SparseMatrix) (i j : Z) : Z :=
  sumZ ((λ k, entry A i k * entry B k j) <$> range (cols A)).

(** ** Text

    A Python [str] is modelled by the list of its characters; the characters
    are the code points below 256.  The files are opened in text mode, so
    the text is what the decoder delivers. *)

Definition str : Type := list ascii.

Definition lit (s : string) : str := list_ascii_of_string s.

Definition code (c : ascii) : N := N_of_ascii c.

(** The end of line ["\n"]. *)
Definition LF : ascii := "010"%char.

(** The characters [str.strip()] removes and [str.isspace()] accepts:
    TAB, LF, VT, FF, CR, FS, GS, RS, US, space, NEL and NBSP. *)
Definition is_space (c : ascii) : bool :=
  let n := code c in
  ((9 <=? n) && (n <=? 13) || (28 <=? n) && (n <=? 32)
   || (n =? 133) || (n =? 160))%N.

(** The white space [int()] skips around a number: the separators FS, GS, RS
    and US are not part of it. *)
Definition is_int_space (c : ascii) : bool :=
  let n := code c in
  ((9 <=? n) && (n <=? 13) || (n =? 32) || (n =? 133) || (n =? 160))%N.

(** The digits [int()] reads. *)
Definition is_digit (c : ascii) : bool :=
  let n := code c in ((48 <=? n) && (n <=? 57))%N.

(** The characters [str.isdigit()] accepts: the digits and the superscripts
    two, three and one. *)
Definition is_digit_char (c : ascii) : bool :=
  let n := code c in
  (is_digit c || (n =? 178) || (n =? 179) || (n =? 185))%N.

(** End of line in text mode (universal newlines): LF, CR or CR LF. *)
Definition is_eol (c : ascii) : bool :=
  let n := code c in ((n =? 10) || (n =? 13))%N.

Definition is_char (c : ascii) (c' : ascii) : bool := bool_decide (c' = c).

Fixpoint lstrip_by (p : ascii → bool) (s : str) : str :=
  match s with
  | [] => []
  | c :: s' => if p c then lstrip_by p s' else s
  end.

Definition rstrip_by (p : ascii → bool) (s : str) : str :=
  reverse (lstrip_by p (reverse s)).

Definition strip_by (p : ascii → bool) (s : str) : str :=
  rstrip_by p (lstrip_by p s).

(** [s.strip()] *)
Definition strip (s : str) : str := strip_by is_space s.

(** [s.split(sep)] for a separator of one character, and the cutting of a
    text into lines: the pieces between the characters that satisfy [p]. *)
Fixpoint split_by (p : ascii → bool) (s : str) : list str :=
  match s with
  | [] => [[]]
  | c :: s' =>
      if p c then [] :: split_by p s'
      else match split_by p s' with
           | w :: ws => (c :: w) :: ws
           | [] => [[c]]
           end
  end.

Definition split (sep : ascii) (s : str) : list str := split_by (is_char sep) s.

(** [s.startswith(c)] and [s.endswith(c)] for one character [c]. *)
Definition startswith (c : ascii) (s : str) : bool :=
  match s with
  | c' :: _ => bool_decide (c' = c)
  | [] => false
  end.

Definition endswith (c : ascii) (s : str) : bool :=
  bool_decide (last s = Some c).

(** [s[1:-1]] *)
Definition slice_1_m1 (s : str) : str := removelast (tail s).

(** [s.isdigit()] *)
Definition isdigit (s : str) : bool :=
  bool_decide (s ≠ []) && forallb is_digit_char s.

Definition digit_val (c : ascii) : Z := Z.of_N (code c) - 48.

Definition digit_char (d : Z) : ascii := ascii_of_N (Z.to_N (48 + d)).

(** The digits of [int()], in base ten: at least one digit, and single
    underscores between digits.  [after_digit] tells whether the previous
    character was a digit. *)
Fixpoint int_digits (acc : Z) (after_digit : bool) (s : str) : option Z :=
  match s with
  | [] => if after_digit then Some acc else None
  | c :: s' =>
      if is_digit c then int_digits (10 * acc + digit_val c) true s'
      else if is_char "_" c && after_digit then int_digits acc false s'
      else None
  end.

(** [int(s)]: [None] stands for the [ValueError] it raises. *)
Definition py_int (s : str) : option Z :=
  match strip_by is_int_space s with
  | c :: s' =>
      if is_char "-" c then Z.opp <$> int_digits 0 false s'
      else if is_char "+" c then int_digits 0 false s'
      else int_digits 0 false (c :: s')
  | [] => None
  end.

Fixpoint digits_fuel (fuel : nat) (n : Z) : str :=
  match fuel with
  | O => []
  | S fuel' =>
      if decide (n < 10) then [digit_char n]
      else digits_fuel fuel' (n / 10) ++ [digit_char (n mod 10)]
  end.

(** [str(n)] for [0 <= n]: a number has no more decimal digits than bits. *)
Definition str_nat (n : Z) : str :=
  digits_fuel (S (Z.to_nat (Z.log2 n))) n.

(** [str(z)], which is also how an f-string prints an integer. *)
Definition py_str (z : Z) : str :=
  if decide (z < 0) then "-"%char :: str_nat (- z) else str_nat z.

(** [[line.strip() for line in file if line.strip()]].  In text mode a line
    ends with LF, CR or CR LF; the pieces between the characters CR and LF
    are the lines without their ends, and empty pieces that the filter
    discards like every line that is blank. *)
Definition file_lines (text : str) : list str :=
  filter (λ line, line ≠ []) (strip <$> split_by is_eol text).

(** The text both versions write: [f"rows={rows}\n"], [f"cols={cols}\n"]
    and [f"({row}, {col}, {value})\n"] for each item of the dictionary. *)
Definition entry_line (item : (Z * Z) * Z) : str :=
  let '((row, col), value) := item in
  lit "(" ++ py_str row ++ lit ", " ++ py_str col ++ lit ", "
    ++ py_str value ++ lit ")" ++ [LF].

Definition write_in_order (items : list ((Z * Z) * Z)) (self : SparseMatrix)
  : str :=
  (lit "rows=" ++ py_str (rows self) ++ [LF])
   ++ (lit "cols=" ++ py_str (cols self) ++ [LF])
   ++ concat (entry_line <$> items).

(** ** [src/code/sparse_matrix.py] *)

Module Code.

(** [SparseMatrix(rows, cols)] *)
Definition init (rows cols : Z) : SparseMatrix :=
  mkSparseMatrix rows cols ∅.

Definition getElement (self : SparseMatrix) (row col : Z) : Z :=
  dict_get0 (data self) (row, col).

Definition setElement (self : SparseMatrix) (row col value : Z)
  : SparseMatrix :=
  if decide (value = 0) then
    if decide (is_Some (data self !! (row, col))) then
      mkSparseMatrix (rows self) (cols self) (delete (row, col) (data self))
    else self
  else
    mkSparseMatrix (rows self) (cols self)
                   (<[(row, col) := value]> (data self)).

(** First loop of [add]: [for pos in self.data], where [items] lists the
    positions of [self.data] with the value [self.data[pos]] of each. *)
Definition add_loop_self (other : SparseMatrix)
    (items : list ((Z * Z) * Z)) (result : SparseMatrix) : SparseMatrix :=
  foldl (λ result item,
           let '(pos, value) := item in
           setElement result pos.1 pos.2
             (value + getElement other pos.1 pos.2))
        result items.

(** Second loop of [add]: [for pos in other.data], where [items] lists the
    positions of [other.data] with the value [other.data[pos]] of each. *)
Definition add_loop_other (self : SparseMatrix)
    (items : list ((Z * Z) * Z)) (result : SparseMatrix) : SparseMatrix :=
  foldl (λ result item,
           let '(pos, value) := item in
           if decide (is_Some (data self !! pos)) then result
           else setElement result pos.1 pos.2 value)
        result items.

Definition add_in_order (ps qs : list ((Z * Z) * Z))
    (self other : SparseMatrix) : result SparseMatrix :=
  if decide (rows self ≠ rows other ∨ cols self ≠ cols other) then
    Err DimensionMismatch
  else
    Ok (add_loop_other self qs
          (add_loop_self other ps (init (rows self) (cols self)))).

Definition add (self other : SparseMatrix) : result SparseMatrix :=
  add_in_order (map_to_list (data self)) (map_to_list (data other))
               self other.

Definition subtract_loop_self (other : SparseMatrix)
    (items : list ((Z * Z) * Z)) (result : SparseMatrix) : SparseMatrix :=
  foldl (λ result item,
           let '(pos, value) := item in
           setElement result pos.1 pos.2
             (value - getElement other pos.1 pos.2))
        result items.

Definition subtract_loop_other (self : SparseMatrix)
    (items : list ((Z * Z) * Z)) (result : SparseMatrix) : SparseMatrix :=
  foldl (λ result item,
           let '(pos, value) := item in
           if decide (is_Some (data self !! pos)) then result
           else setElement result pos.1 pos.2 (- value))
        result items.

Definition subtract_in_order (ps qs : list ((Z * Z) * Z))
    (self other : SparseMatrix) : result SparseMatrix :=
  if decide (rows self ≠ rows other ∨ cols self ≠ cols other) then
    Err DimensionMismatch
  else
    Ok (subtract_loop_other self qs
          (subtract_loop_self other ps (init (rows self) (cols self)))).

Definition subtract (self other : SparseMatrix) : result SparseMatrix :=
  subtract_in_order (map_to_list (data self)) (map_to_list (data other))
                    self other.

(** The innermost loop of [multiply]:
    [total = 0; for k in range(self.cols): total += ...]. *)
Definition multiply_total (self other : SparseMatrix) (i j : Z) : Z :=
  foldl (λ total k, total + getElement self i k * getElement other k j)
        0 (range (cols self)).

Definition multiply_row (self other : SparseMatrix) (i : Z)
    (result : SparseMatrix) : SparseMatrix :=
  foldl (λ result j,
           let total := multiply_total self other i j in
           if decide (total ≠ 0) then setElement result i j total
           else result)
        result (range (cols other)).

Definition multiply (self other : SparseMatrix) : result SparseMatrix :=
  if decide (cols self ≠ rows other) then Err DimensionMismatch
  else
    Ok (foldl (λ result i, multiply_row self other i result)
              (init (rows self) (cols other)) (range (rows self))).

(** The body of the loop of [readFile] over the entry lines. *)
Definition readFile_entry (rows cols : Z) (matrix : SparseMatrix)
    (line : str) : option SparseMatrix :=
  if negb (startswith "(" line) || negb (endswith ")" line) then None
  else
    match split "," (slice_1_m1 line) with
    | [p1; p2; p3] =>
        row ← py_int p1; col ← py_int p2; value ← py_int p3;
        if decide (row >= rows ∨ col >= cols) then None
        else Some (setElement matrix row col value)
    | _ => None
    end.

(** [readFile(filePath)], as a function of the text of the file. *)
Definition readFile (text : str) : result SparseMatrix :=
  try_except
    (let lines := file_lines text in
     if decide (length lines < 2)%nat then None
     else
       rows_line ← split "=" <$> lines !! 0%nat;
       cols_line ← split "=" <$> lines !! 1%nat;
       if decide (length rows_line ≠ 2%nat ∨ length cols_line ≠ 2%nat)
       then None
       else
         rows_field ← rows_line !! 1%nat;
         rows ← py_int rows_field;
         cols_field ← cols_line !! 1%nat;
         cols ← py_int cols_field;
         for_each_opt (readFile_entry rows cols) (drop 2 lines)
                      (init rows cols)).

(** [writeToFile(outputPath)]: the text written to the file. *)
Definition writeToFile_in_order (items : list ((Z * Z) * Z))
    (self : SparseMatrix) : str := write_in_order items self.

Definition writeToFile (self : SparseMatrix) : str :=
  writeToFile_in_order (map_to_list (data self)) self.

End Code.

(** ** [src/integral-file/sparse_matrix.py] *)

Module Integral.

(** [SparseMatrix(rows, cols, data)], where [self.data = data if data else
    {}]: an empty dictionary is replaced by a new empty one. *)
Definition init (rows cols : Z) (data : gmap (Z * Z) Z) : SparseMatrix :=
  mkSparseMatrix rows cols (if decide (data = ∅) then ∅ else data).

Definition out_of_bounds (self : SparseMatrix) (row col : Z) : Prop :=
  row < 0 ∨ row >= rows self ∨ col < 0 ∨ col >= cols self.

Definition getElement (self : SparseMatrix) (row col : Z) : result Z :=
  if decide (out_of_bounds self row col) then Err IndexOutOfBounds
  else Ok (dict_get0 (data self) (row, col)).

Definition setElement (self : SparseMatrix) (row col value : Z)
  : result SparseMatrix :=
  if decide (out_of_bounds self row col) then Err IndexOutOfBounds
  else if decide (value ≠ 0) then
    Ok (mkSparseMatrix (rows self) (cols self)
                       (<[(row, col) := value]> (data self)))
  else if decide (is_Some (data self !! (row, col))) then
    Ok (mkSparseMatrix (rows self) (cols self)
                       (delete (row, col) (data self)))
  else Ok self.

(** The loop of [add]: [for key, value in other.data.items()]. *)
Definition add_loop (items : list ((Z * Z) * Z))
    (result_data : gmap (Z * Z) Z) : gmap (Z * Z) Z :=
  foldl (λ result_data kv,
           let '(key, value) := kv in
           match result_data !! key with
           | Some old =>
               let result_data := <[key := old + value]> result_data in
               if decide (dict_get0 result_data key = 0)
               then delete key result_data else result_data
           | None => <[key := value]> result_data
           end)
        result_data items.

Definition add_in_order (items : list ((Z * Z) * Z))
    (self other : SparseMatrix) : result SparseMatrix :=
  if decide (rows self ≠ rows other ∨ cols self ≠ cols other) then
    Err DimensionMismatch
  else
    Ok (init (rows self) (cols self) (add_loop items (data self))).

Definition add (self other : SparseMatrix) : result SparseMatrix :=
  add_in_order (map_to_list (data other)) self other.

Definition subtract_loop (items : list ((Z * Z) * Z))
    (result_data : gmap (Z * Z) Z) : gmap (Z * Z) Z :=
  foldl (λ result_data kv,
           let '(key, value) := kv in
           match result_data !! key with
           | Some old =>
               let result_data := <[key := old - value]> result_data in
               if decide (dict_get0 result_data key = 0)
               then delete key result_data else result_data
           | None => <[key := - value]> result_data
           end)
        result_data items.

Definition subtract_in_order (items : list ((Z * Z) * Z))
    (self other : SparseMatrix) : result SparseMatrix :=
  if decide (rows self ≠ rows other ∨ cols self ≠ cols other) then
    Err DimensionMismatch
  else
    Ok (init (rows self) (cols self) (subtract_loop items (data self))).

Definition subtract (self other : SparseMatrix) : result SparseMatrix :=
  subtract_in_order (map_to_list (data other)) self other.

(** The body of the inner loop of [multiply], for one stored entry
    [((i, k), val1)] of [self] and one column [j]. *)
Definition multiply_step (other : SparseMatrix) (i k val1 : Z)
    (result_data : gmap (Z * Z) Z) (j : Z) : result (gmap (Z * Z) Z) :=
  val2 ← getElement other k j ;
  if decide (val2 ≠ 0) then
    let result_key := (i, j) in
    let result_data :=
      <[result_key := dict_get0 result_data result_key + val1 * val2]>
        result_data in
    if decide (dict_get0 result_data result_key = 0)
    then Ok (delete result_key result_data)
    else Ok result_data
  else Ok result_data.

Definition multiply_entry (other : SparseMatrix) (result_cols : Z)
    (result_data : gmap (Z * Z) Z) (kv : (Z * Z) * Z)
  : result (gmap (Z * Z) Z) :=
  let '((i, k), val1) := kv in
  for_each (multiply_step other i k val1) (range result_cols) result_data.

Definition multiply_in_order (items : list ((Z * Z) * Z))
    (self other : SparseMatrix) : result SparseMatrix :=
  if decide (cols self ≠ rows other) then Err DimensionMismatch
  else
    let result_rows := rows self in
    let result_cols := cols other in
    result_data ← for_each (multiply_entry other result_cols) items ∅ ;
    Ok (init result_rows result_cols result_data).

Definition multiply (self other : SparseMatrix) : result SparseMatrix :=
  multiply_in_order (map_to_list (data self)) self other.

(** The body of the loop of [load_from_file] over the entry lines. *)
Definition load_entry (data : gmap (Z * Z) Z) (line : str)
  : option (gmap (Z * Z) Z) :=
  if negb (startswith "(" line) || negb (endswith ")" line) then None
  else
    match split "," (slice_1_m1 line) with
    | [e1; e2; e3] =>
        let row := strip e1 in
        let col := strip e2 in
        let value := strip e3 in
        if negb (isdigit row) || negb (isdigit col) then None
        else if negb (isdigit (lstrip_by (is_char "-") value)) then None
        else
          v ← py_int value; r ← py_int row; c ← py_int col;
          Some (<[(r, c) := v]> data)
    | _ => None
    end.

(** [load_from_file(file_path)], as a function of the text of the file. *)
Definition load_from_file (text : str) : result SparseMatrix :=
  try_except
    (let lines := file_lines text in
     line0 ← lines !! 0%nat;
     field0 ← split "=" line0 !! 1%nat;
     rows ← py_int (strip field0);
     line1 ← lines !! 1%nat;
     field1 ← split "=" line1 !! 1%nat;
     cols ← py_int (strip field1);
     data ← for_each_opt load_entry (drop 2 lines) ∅;
     Some (init rows cols data)).

(** [save_to_file(file_path)]: the text written to the file. *)
Definition save_to_file_in_order (items : list ((Z * Z) * Z))
    (self : SparseMatrix) : str := write_in_order items self.

Definition save_to_file (self : SparseMatrix) : str :=
  save_to_file_in_order (map_to_list (data self)) self.

End Integral.

(** ** Objects and references

    The methods receive references to mutable objects: a matrix holds a
    reference to its dictionary, and [setElement], [del] and item assignment
    change a dictionary in place.  To state what a call leaves untouched,
    the methods are also written over a store of objects, statement by
    statement. *)

Module Store.

Definition loc : Type := positive.

Inductive obj : Type :=
  | Dict (d : gmap (Z * Z) Z)
  | Matrix (m_rows m_cols : Z) (m_data : loc).

Abbreviation heap := (gmap loc obj).

(** An exception of the class, or the failure of a statement applied to
    an object of the wrong kind or to a missing key. *)
Inductive exn : Type :=
  | Raised (e : error)
  | Fault.

Inductive outcome (A : Type) : Type :=
  | Return (a : A)
  | Raise (e : exn).

Arguments Return {A} a.
Arguments Raise {A} e.

(** A statement: from a store to an outcome and the store it leaves. *)
Definition M (A : Type) : Type := heap → outcome A * heap.

#[global] Instance M_ret : MRet M := λ A a h, (Return a, h).

#[global] Instance M_bind : MBind M := λ A B k m h,
  match m h with
  | (Return a, h') => k a h'
  | (Raise e, h') => (Raise e, h')
  end.

Definition raise {A : Type} (e : exn) : M A := λ h, (Raise e, h).

(** A new object, at a reference no object of the store has. *)
Definition alloc (o : obj) : M loc := λ h,
  let l := fresh (dom h) in (Return l, <[l := o]> h).

Definition read_dict (l : loc) : M (gmap (Z * Z) Z) := λ h,
  match h !! l with
  | Some (Dict d) => (Return d, h)
  | _ => (Raise Fault, h)
  end.

Definition write_dict (l : loc) (d : gmap (Z * Z) Z) : M unit := λ h,
  match h !! l with
  | Some (Dict _) => (Return (), <[l := Dict d]> h)
  | _ => (Raise Fault, h)
  end.

(** The attributes [m.rows], [m.cols] and [m.data]. *)
Definition attr_rows (m : loc) : M Z := λ h,
  match h !! m with
  | Some (Matrix r _ _) => (Return r, h)
  | _ => (Raise Fault, h)
  end.

Definition attr_cols (m : loc) : M Z := λ h,
  match h !! m with
  | Some (Matrix _ c _) => (Return c, h)
  | _ => (Raise Fault, h)
  end.

Definition attr_data (m : loc) : M loc := λ h,
  match h !! m with
  | Some (Matrix _ _ d) => (Return d, h)
  | _ => (Raise Fault, h)
  end.

(** [d[k]] *)
Definition dict_getitem (l : loc) (k : Z * Z) : M Z :=
  d ← read_dict l;
  match d !! k with
  | Some v => mret v
  | None => raise Fault
  end.

(** [d.get(k, 0)] *)
Definition dict_get (l : loc) (k : Z * Z) : M Z :=
  d ← read_dict l; mret (dict_get0 d k).

(** [k in d] *)
Definition dict_contains (l : loc) (k : Z * Z) : M bool :=
  d ← read_dict l; mret (bool_decide (is_Some (d !! k))).

(** [d[k] = v] *)
Definition dict_setitem (l : loc) (k : Z * Z) (v : Z) : M unit :=
  d ← read_dict l; write_dict l (<[k := v]> d).

(** [del d[k]] *)
Definition dict_delitem (l : loc) (k : Z * Z) : M unit :=
  d ← read_dict l;
  match d !! k with
  | Some _ => write_dict l (delete k d)
  | None => raise Fault
  end.

(** [d.copy()] *)
Definition dict_copy (l : loc) : M loc :=
  d ← read_dict l; alloc (Dict d).

(** The items a loop over the dictionary walks through. *)
Definition dict_items (l : loc) : M (list ((Z * Z) * Z)) :=
  d ← read_dict l; mret (map_to_list d).

(** Nothing to do. *)
Definition skip : M unit := mret ().

(** [for x in l: body x] *)
Fixpoint for_in {A : Type} (l : list A) (body : A → M unit) : M unit :=
  match l with
  | [] => skip
  | x :: l' => _ ← body x; for_in l' body
  end.

(** A loop that updates a local variable. *)
Fixpoint for_acc {A S : Type} (l : list A) (s : S) (body : S → A → M S)
  : M S :=
  match l with
  | [] => mret s
  | x :: l' => s' ← body s x; for_acc l' s' body
  end.

Module Code.

Definition init (rows cols : Z) : M loc :=
  d ← alloc (Dict ∅); alloc (Matrix rows cols d).

Definition getElement (self : loc) (row col : Z) : M Z :=
  d ← attr_data self; dict_get d (row, col).

Definition setElement (self : loc) (row col value : Z) : M unit :=
  if decide (value = 0) then
    d ← attr_data self;
    present ← dict_contains d (row, col);
    if (present : bool) then
      d ← attr_data self; dict_delitem d (row, col)
    else skip
  else
    d ← attr_data self; dict_setitem d (row, col) value.

Definition add (self other : loc) : M loc :=
  rs ← attr_rows self; ro ← attr_rows other;
  cs ← attr_cols self; co ← attr_cols other;
  if decide (rs ≠ ro ∨ cs ≠ co) then raise (Raised DimensionMismatch)
  else
    rows ← attr_rows self; cols ← attr_cols self;
    result ← init rows cols;
    ds ← attr_data self;
    ps ← dict_items ds;
    _ ← for_in ps (λ item,
           let pos := item.1 in
           ds ← attr_data self;
           v ← dict_getitem ds pos;
           o ← getElement other pos.1 pos.2;
           setElement result pos.1 pos.2 (v + o));
    do ← attr_data other;
    qs ← dict_items do;
    _ ← for_in qs (λ item,
           let pos := item.1 in
           ds ← attr_data self;
           present ← dict_contains ds pos;
           if (present : bool) then skip
           else
             do ← attr_data other;
             v ← dict_getitem do pos;
             setElement result pos.1 pos.2 v);
    mret result.

Definition subtract (self other : loc) : M loc :=
  rs ← attr_rows self; ro ← attr_rows other;
  cs ← attr_cols self; co ← attr_cols other;
  if decide (rs ≠ ro ∨ cs ≠ co) then raise (Raised DimensionMismatch)
  else
    rows ← attr_rows self; cols ← attr_cols self;
    result ← init rows cols;
    ds ← attr_data self;
    ps ← dict_items ds;
    _ ← for_in ps (λ item,
           let pos := item.1 in
           ds ← attr_data self;
           v ← dict_getitem ds pos;
           o ← getElement other pos.1 pos.2;
           setElement result pos.1 pos.2 (v - o));
    do ← attr_data other;
    qs ← dict_items do;
    _ ← for_in qs (λ item,
           let pos := item.1 in
           ds ← attr_data self;
           present ← dict_contains ds pos;
           if (present : bool) then skip
           else
             do ← attr_data other;
             v ← dict_getitem do pos;
             setElement result pos.1 pos.2 (- v));
    mret result.

Definition multiply (self other : loc) : M loc :=
  cs ← attr_cols self; ro ← attr_rows other;
  if decide (cs ≠ ro) then raise (Raised DimensionMismatch)
  else
    rows ← attr_rows self; cols ← attr_cols other;
    result ← init rows cols;
    n ← attr_rows self;
    _ ← for_in (range n) (λ i,
           p ← attr_cols other;
           for_in (range p) (λ j,
             q ← attr_cols self;
             total ← for_acc (range q) 0 (λ total k,
                        a ← getElement self i k;
                        b ← getElement other k j;
                        mret (total + a * b));
             if decide (total ≠ 0) then setElement result i j total
             else skip));
    mret result.

End Code.

Module Integral.

(** [SparseMatrix(rows, cols, data)]: the matrix keeps the dictionary it
    is given, unless that dictionary is empty. *)
Definition init (rows cols : Z) (data : loc) : M loc :=
  d ← read_dict data;
  if decide (d = ∅) then
    fresh_data ← alloc (Dict ∅); alloc (Matrix rows cols fresh_data)
  else alloc (Matrix rows cols data).

Definition check_bounds (self : loc) (row col : Z) : M unit :=
  rows ← attr_rows self; cols ← attr_cols self;
  if decide (row < 0 ∨ row >= rows ∨ col < 0 ∨ col >= cols)
  then raise (Raised IndexOutOfBounds) else skip.

Definition getElement (self : loc) (row col : Z) : M Z :=
  _ ← check_bounds self row col;
  d ← attr_data self; dict_get d (row, col).

Definition setElement (self : loc) (row col value : Z) : M unit :=
  _ ← check_bounds self row col;
  if decide (value ≠ 0) then
    d ← attr_data self; dict_setitem d (row, col) value
  else
    d ← attr_data self;
    present ← dict_contains d (row, col);
    if (present : bool) then d ← attr_data self; dict_delitem d (row, col)
    else skip.

Definition add (self other : loc) : M loc :=
  rs ← attr_rows self; ro ← attr_rows other;
  cs ← attr_cols self; co ← attr_cols other;
  if decide (rs ≠ ro ∨ cs ≠ co) then raise (Raised DimensionMismatch)
  else
    ds ← attr_data self;
    result_data ← dict_copy ds;
    do ← attr_data other;
    items ← dict_items do;
    _ ← for_in items (λ item,
           let '(key, value) := item in
           present ← dict_contains result_data key;
           if (present : bool) then
             old ← dict_getitem result_data key;
             _ ← dict_setitem result_data key (old + value);
             now ← dict_getitem result_data key;
             if decide (now = 0) then dict_delitem result_data key
             else skip
           else dict_setitem result_data key value);
    rows ← attr_rows self; cols ← attr_cols self;
    init rows cols result_data.

Definition subtract (self other : loc) : M loc :=
  rs ← attr_rows self; ro ← attr_rows other;
  cs ← attr_cols self; co ← attr_cols other;
  if decide (rs ≠ ro ∨ cs ≠ co) then raise (Raised DimensionMismatch)
  else
    ds ← attr_data self;
    result_data ← dict_copy ds;
    do ← attr_data other;
    items ← dict_items do;
    _ ← for_in items (λ item,
           let '(key, value) := item in
           present ← dict_contains result_data key;
           if (present : bool) then
             old ← dict_getitem result_data key;
             _ ← dict_setitem result_data key (old - value);
             now ← dict_getitem result_data key;
             if decide (now = 0) then dict_delitem result_data key
             else skip
           else dict_setitem result_data key (- value));
    rows ← attr_rows self; cols ← attr_cols self;
    init rows cols result_data.

Definition multiply (self other : loc) : M loc :=
  cs ← attr_cols self; ro ← attr_rows other;
  if decide (cs ≠ ro) then raise (Raised DimensionMismatch)
  else
    result_rows ← attr_rows self;
    result_cols ← attr_cols other;
    result_data ← alloc (Dict ∅);
    ds ← attr_data self;
    items ← dict_items ds;
    _ ← for_in items (λ item,
           let '((i, k), val1) := item in
           for_in (range result_cols) (λ j,
             val2 ← getElement other k j;
             if decide (val2 ≠ 0) then
               let result_key := (i, j) in
               old ← dict_get result_data result_key;
               _ ← dict_setitem result_data result_key
                     (old + val1 * val2);
               now ← dict_getitem result_data result_key;
               if decide (now = 0)
               then dict_delitem result_data result_key
               else skip
             else skip));
    init result_rows result_cols result_data.

End Integral.

(** The matrix a reference stands for in a store. *)
Definition matrix_at (h : heap) (m : loc) : option SparseMatrix :=
  match h !! m with
  | Some (Matrix r c dl) =>
      match h !! dl with
      | Some (Dict d) => Some (mkSparseMatrix r c d)
      | _ => None
      end
  | _ => None
  end.

End Store.

(** * Definitions for the statements and the proofs *)

(** A value as a dictionary without zero holds it. *)
Definition elide (v : Z) : option Z := if decide (v = 0) then None else Some v.

(** A listing of a dictionary: its items, each once, in some order. *)
Definition listing (items : list ((Z * Z) * Z)) (d : gmap (Z * Z) Z) : Prop :=
  items ≡ₚ map_to_list d.

(** The two loops of [add] and [subtract] of [src/code], for any
    operation. *)
Definition loop_self (op : Z → Z → Z) (other : SparseMatrix)
    (items : list ((Z * Z) * Z)) (result : SparseMatrix) : SparseMatrix :=
  foldl (λ result item,
           let '(pos, value) := item in
           Code.setElement result pos.1 pos.2
             (op value (Code.getElement other pos.1 pos.2)))
        result items.

Definition loop_other (op : Z → Z → Z) (self : SparseMatrix)
    (items : list ((Z * Z) * Z)) (result : SparseMatrix) : SparseMatrix :=
  foldl (λ result item,
           let '(pos, value) := item in
           if decide (is_Some (data self !! pos)) then result
           else Code.setElement result pos.1 pos.2 (op 0 value))
        result items.

(** The loop of [add] and [subtract] of [src/integral-file], for any
    operation, and its body. *)
Definition merge_loop (op : Z → Z → Z) (items : list ((Z * Z) * Z))
    (result_data : gmap (Z * Z) Z) : gmap (Z * Z) Z :=
  foldl (λ result_data kv,
           let '(key, value) := kv in
           match result_data !! key with
           | Some old =>
               let result_data := <[key := op old value]> result_data in
               if decide (dict_get0 result_data key = 0)
               then delete key result_data else result_data
           | None => <[key := op 0 value]> result_data
           end)
        result_data items.

Definition merge_item (op : Z → Z → Z) (rd : gmap (Z * Z) Z) (key : Z * Z)
    (value : Z) : gmap (Z * Z) Z :=
  match rd !! key with
  | Some old =>
      let result_data := <[key := op old value]> rd in
      if decide (dict_get0 result_data key = 0)
      then delete key result_data else result_data
  | None => <[key := op 0 value]> rd
  end.

(** The dictionary [add] and [subtract] are to build from two operands. *)
Definition merged (op : Z → Z → Z) (A B : SparseMatrix) (k : Z * Z)
  : option Z :=
  if decide (is_Some (data A !! k) ∨ is_Some (data B !! k))
  then elide (op (dict_get0 (data A) k) (dict_get0 (data B) k))
  else None.

(** The result of [add] in [src/code], whatever the order of the loops. *)
Definition Code_sum (A B : SparseMatrix) : SparseMatrix :=
  loop_other Z.add A (map_to_list (data B))
    (loop_self Z.add B (map_to_list (data A)) (Code.init (rows A) (cols A))).

Definition dense_row (A B : SparseMatrix) (i : Z) (js : list Z)
    (result : SparseMatrix) : SparseMatrix :=
  foldl (λ result j,
           let total := Code.multiply_total A B i j in
           if decide (total ≠ 0) then Code.setElement result i j total
           else result)
        result js.

Definition dense_rows (A B : SparseMatrix) (il js : list Z)
    (result : SparseMatrix) : SparseMatrix :=
  foldl (λ result i, dense_row A B i js result) result il.

(** The result of the dense product. *)
Definition dense_product (A B : SparseMatrix) : SparseMatrix :=
  dense_rows A B (range (rows A)) (range (cols B))
             (Code.init (rows A) (cols B)).

(** [result_data[key] = result_data.get(key, 0) + x], followed by the
    removal of the key when the sum is zero. *)
Definition accumulate (rd : gmap (Z * Z) Z) (key : Z * Z) (x : Z)
  : gmap (Z * Z) Z :=
  let rd' := <[key := dict_get0 rd key + x]> rd in
  if decide (dict_get0 rd' key = 0) then delete key rd' else rd'.

Definition no_zero (d : gmap (Z * Z) Z) : Prop := ∀ k, d !! k ≠ Some 0.

(** The contribution of a stored entry of the first operand to the
    coefficient [(i', j')] of the product. *)
Definition contribution (B : SparseMatrix) (i' j' : Z) (item : (Z * Z) * Z)
  : Z :=
  let '((i, k), v) := item in
  if decide (i = i' ∧ 0 ≤ j' < cols B) then v * entry B k j' else 0.

(** A test of the invariants that computes. *)
Definition wf_check (m : SparseMatrix) : bool :=
  forallb (λ item : (Z * Z) * Z,
             let '((r, c), v) := item in
             bool_decide (in_bounds m r c ∧ v ≠ 0))
          (map_to_list (data m)).

(** The coordinates the callers give to [setElement] of [src/code], which
    validates none: any at all, or those below the shape. *)
Definition any_coordinate (m : SparseMatrix) (r c : Z) : Prop := True.

Definition below_bounds (m : SparseMatrix) (r c : Z) : Prop :=
  r < rows m ∧ c < cols m.

(** Every stored key lies below the shape. *)
Definition keys_below (m : SparseMatrix) : Prop :=
  ∀ r c v, data m !! (r, c) = Some v → r < rows m ∧ c < cols m.

(** The matrices the public operations of [src/code] build: the empty
    matrices, the matrices [readFile] returns when [parse] holds, and what
    [setElement], [add], [subtract] and [multiply] make of such matrices.
    [coordinate] tells which coordinates [setElement] is given. *)
Inductive Code_reachable (parse : bool)
    (coordinate : SparseMatrix → Z → Z → Prop) : SparseMatrix → Prop :=
  | Code_reach_init rows cols :
      Code_reachable parse coordinate (Code.init rows cols)
  | Code_reach_read text m :
      parse = true → Code.readFile text = Ok m →
      Code_reachable parse coordinate m
  | Code_reach_set m r c v :
      Code_reachable parse coordinate m → coordinate m r c →
      Code_reachable parse coordinate (Code.setElement m r c v)
  | Code_reach_add A B C :
      Code_reachable parse coordinate A → Code_reachable parse coordinate B →
      Code.add A B = Ok C → Code_reachable parse coordinate C
  | Code_reach_subtract A B C :
      Code_reachable parse coordinate A → Code_reachable parse coordinate B →
      Code.subtract A B = Ok C → Code_reachable parse coordinate C
  | Code_reach_multiply A B C :
      Code_reachable parse coordinate A → Code_reachable parse coordinate B →
      Code.multiply A B = Ok C → Code_reachable parse coordinate C.

(** The matrices the public operations of [src/integral-file] build: the
    empty matrices, the matrices [load_from_file] returns when [parse]
    holds, and what [setElement], [add], [subtract] and [multiply] make of
    such matrices when they return. *)
Inductive Integral_reachable (parse : bool) : SparseMatrix → Prop :=
  | Integral_reach_init rows cols :
      Integral_reachable parse (Integral.init rows cols ∅)
  | Integral_reach_load text m :
      parse = true → Integral.load_from_file text = Ok m →
      Integral_reachable parse m
  | Integral_reach_set m r c v m' :
      Integral_reachable parse m → Integral.setElement m r c v = Ok m' →
      Integral_reachable parse m'
  | Integral_reach_add A B C :
      Integral_reachable parse A → Integral_reachable parse B →
      Integral.add A B = Ok C → Integral_reachable parse C
  | Integral_reach_subtract A B C :
      Integral_reachable parse A → Integral_reachable parse B →
      Integral.subtract A B = Ok C → Integral_reachable parse C
  | Integral_reach_multiply A B C :
      Integral_reachable parse A → Integral_reachable parse B →
      Integral.multiply A B = Ok C → Integral_reachable parse C.

(** A text given by its lines, each ended by LF. *)
Definition text_of_lines (ls : list string) : str :=
  concat ((λ l, lit l ++ [LF]) <$> ls).

(** The shape the header of a text declares, and the fields of an entry
    line, as the reader of [src/code] reads them. *)
Definition declared_shape (text : str) : option (Z * Z) :=
  let lines := file_lines text in
  rows_line ← split "=" <$> lines !! 0%nat;
  cols_line ← split "=" <$> lines !! 1%nat;
  rows_field ← rows_line !! 1%nat;
  rows ← py_int rows_field;
  cols_field ← cols_line !! 1%nat;
  cols ← py_int cols_field;
  Some (rows, cols).

Definition entry_fields (line : str) : option (Z * Z * Z) :=
  match split "," (slice_1_m1 line) with
  | [p1; p2; p3] =>
      row ← py_int p1; col ← py_int p2; value ← py_int p3;
      Some (row, col, value)
  | _ => None
  end.

(** No key of the dictionary is negative. *)
Definition keys_nonneg (d : gmap (Z * Z) Z) : Prop :=
  ∀ r c v, d !! (r, c) = Some v → 0 ≤ r ∧ 0 ≤ c.

(** What the reader of [src/code] checks of every entry. *)
Definition below_shape (m : SparseMatrix) : Prop :=
  ∀ r c v, data m !! (r, c) = Some v → r < rows m ∧ c < cols m ∧ v ≠ 0.

(** The number a list of digits stands for. *)
Definition digits_value (acc : Z) (s : str) : Z :=
  foldl (λ a c, 10 * a + digit_val c) acc s.

(** The characters of a printed integer: digits, after an optional sign. *)
Definition is_num_char (c : ascii) : bool := is_digit c || is_char "-" c.

(** An entry line without its end of line. *)
Definition entry_body (item : (Z * Z) * Z) : str :=
  let '((row, col), value) := item in
  "("%char :: (py_str row ++ ","%char :: " "%char :: py_str col
               ++ ","%char :: " "%char :: py_str value) ++ [")"%char].

Definition header (name : string) (z : Z) : str := lit name ++ py_str z.

(** A line the reader gets back as it was written. *)
Definition clean_line (l : str) : Prop :=
  Forall (λ c, is_eol c = false) l ∧ strip l = l ∧ l ≠ [].

(** The dictionary after the assignments [d[k] = v], in the order of the
    items. *)
Definition assign_all (items : list ((Z * Z) * Z)) (d : gmap (Z * Z) Z)
  : gmap (Z * Z) Z :=
  foldl (λ d kv, <[kv.1 := kv.2]> d) d items.

(** Every object of [h] is in [h'], as it was. *)
Definition untouched (h h' : Store.heap) : Prop :=
  ∀ l o, h !! l = Some o → h' !! l = Some o.

(** A statement keeps a property of the store. *)
Definition keeps {A : Type} (I : gmap Store.loc Store.obj → Prop)
    (m : Store.M A) : Prop :=
  ∀ h, I h → I (m h).2.

(** A statement leaves the store as it is. *)
Definition read_only {A : Type} (m : Store.M A) : Prop := ∀ h, (m h).2 = h.

(** Nothing of the store [h0] at the call has changed. *)
Definition frame (h0 h : gmap Store.loc Store.obj) : Prop := untouched h0 h.

(** Nothing has changed, and [l] is a reference made since the call. *)
Definition frame_new (h0 : gmap Store.loc Store.obj) (l : Store.loc)
    (h : gmap Store.loc Store.obj) : Prop :=
  frame h0 h ∧ h0 !! l = None.

(** Nothing has changed, and [result] is a matrix whose dictionary was
    made since the call. *)
Definition frame_result (h0 : gmap Store.loc Store.obj) (result : Store.loc)
    (h : gmap Store.loc Store.obj) : Prop :=
  frame h0 h
  ∧ ∃ r c dl, h !! result = Some (Store.Matrix r c dl) ∧ h0 !! dl = None.

(** In the store [h], [result] is the matrix [R], with a dictionary made
    since the call, and nothing of the store [h0] at the call has changed. *)
Definition result_at (h0 : gmap Store.loc Store.obj) (result : Store.loc)
    (R : SparseMatrix) (h : gmap Store.loc Store.obj) : Prop :=
  untouched h0 h
  ∧ ∃ dl, h !! result = Some (Store.Matrix (rows R) (cols R) dl)
          ∧ h !! dl = Some (Store.Dict (data R))
          ∧ h0 !! dl = None.

(** In the store [h], [l] is the dictionary [d], made since the call, and
    nothing of the store [h0] at the call has changed. *)
Definition dict_at (h0 : gmap Store.loc Store.obj) (l : Store.loc)
    (d : gmap (Z * Z) Z) (h : gmap Store.loc Store.obj) : Prop :=
  untouched h0 h ∧ h !! l = Some (Store.Dict d) ∧ h0 !! l = None.

(** The six operators, over the store. *)
Definition store_operators
  : list (Store.loc → Store.loc → Store.M Store.loc) :=
  [Store.Code.add; Store.Code.subtract; Store.Code.multiply;
   Store.Integral.add; Store.Integral.subtract; Store.Integral.multiply].

(** What the loop of [add] and [subtract] of [src/integral-file] leaves at
    a key, whatever the operands hold. *)
Definition merged_raw (op : Z → Z → Z) (A B : SparseMatrix) (k : Z * Z)
  : option Z :=
  match data B !! k with
  | Some v => match data A !! k with
              | Some a => elide (op a v)
              | None => Some (op 0 v)
              end
  | None => data A !! k
  end.

(** The identity matrix of size [n]: ones on the diagonal. *)
Definition identity (n : Z) : SparseMatrix :=
  mkSparseMatrix n n (list_to_map ((λ i, ((i, i), 1)) <$> range n)).

(** A string of white space only. *)
Definition is_blank (s : str) : bool := forallb is_space s.

(** The value of the last item of a list with a given key, if any: the one
    that wins when the items are assigned in order. *)
Definition last_write (items : list ((Z * Z) * Z)) (k : Z * Z) : option Z :=
  (list_to_map (reverse items) : gmap (Z * Z) Z) !! k.

(** An entry line has its two parentheses and, between them, three fields
    separated by commas. *)
Definition entry_shaped (line : str) : bool :=
  startswith "(" line && endswith ")" line
  && bool_decide (length (split "," (slice_1_m1 line)) = 3%nat).

(** Each operator over the store, with the function of matrices of the
    same method. *)
Definition operator_pairs
  : list ((Store.loc → Store.loc → Store.M Store.loc)
          * (SparseMatrix → SparseMatrix → result SparseMatrix)) :=
  [(Store.Code.add, Code.add); (Store.Code.subtract, Code.subtract);
   (Store.Code.multiply, Code.multiply);
   (Store.Integral.add, Integral.add);
   (Store.Integral.subtract, Integral.subtract);
   (Store.Integral.multiply, Integral.multiply)].

(** * Properties *)

(** ** Accessors *)

Lemma out_of_bounds_iff (m : SparseMatrix) (r c : Z) :
  Integral.out_of_bounds m r c ↔ ¬ in_bounds m r c.
Proof. unfold Integral.out_of_bounds, in_bounds. lia. Qed.

Lemma dict_get0_insert (d : gmap (Z * Z) Z) (k k' : Z * Z) (v : Z) :
  dict_get0 (<[k := v]> d) k' = if decide (k = k') then v else dict_get0 d k'.
Proof.
  unfold dict_get0. rewrite lookup_insert. by destruct (decide (k = k')).
Qed.

Lemma dict_get0_delete (d : gmap (Z * Z) Z) (k k' : Z * Z) :
  dict_get0 (delete k d) k' = if decide (k = k') then 0 else dict_get0 d k'.
Proof.
  unfold dict_get0. rewrite lookup_delete. by destruct (decide (k = k')).
Qed.

Lemma dict_get0_empty (k : Z * Z) : dict_get0 ∅ k = 0.
Proof. unfold dict_get0. by rewrite lookup_empty. Qed.

(** A dictionary without stored zero is determined by its values. *)
Lemma lookup_of_get0 (d : gmap (Z * Z) Z) (k : Z * Z) :
  d !! k ≠ Some 0 →
  d !! k = if decide (dict_get0 d k = 0) then None else Some (dict_get0 d k).
Proof.
  unfold dict_get0. destruct (d !! k) as [v|]; simpl; intros Hz.
  - destruct (decide (v = 0)); congruence.
  - done.
Qed.

Lemma Code_getElement_entry (m : SparseMatrix) (i j : Z) :
  Code.getElement m i j = entry m i j.
Proof. reflexivity. Qed.

Lemma Integral_getElement_in (m : SparseMatrix) (i j : Z) :
  in_bounds m i j → Integral.getElement m i j = Ok (entry m i j).
Proof.
  intros Hin. unfold Integral.getElement.
  destruct (decide (Integral.out_of_bounds m i j)) as [Ho|_]; [|done].
  by apply out_of_bounds_iff in Ho.
Qed.

Lemma Integral_getElement_out (m : SparseMatrix) (i j : Z) :
  Integral.out_of_bounds m i j →
  Integral.getElement m i j = Err IndexOutOfBounds.
Proof. intros Ho. unfold Integral.getElement. by rewrite decide_True. Qed.

(** What [setElement] of [src/code] stores: the dictionary after the call. *)
Lemma Code_setElement_data (m : SparseMatrix) (r c v : Z) :
  data (Code.setElement m r c v)
  = if decide (v = 0) then delete (r, c) (data m)
    else <[(r, c) := v]> (data m).
Proof.
  unfold Code.setElement. destruct (decide (v = 0)); [|done].
  destruct (decide (is_Some (data m !! (r, c)))) as [|Hn]; [done|].
  symmetry. apply delete_id. by apply eq_None_not_Some.
Qed.

Lemma Code_setElement_rows (m : SparseMatrix) (r c v : Z) :
  rows (Code.setElement m r c v) = rows m.
Proof. unfold Code.setElement. by repeat case_decide. Qed.

Lemma Code_setElement_cols (m : SparseMatrix) (r c v : Z) :
  cols (Code.setElement m r c v) = cols m.
Proof. unfold Code.setElement. by repeat case_decide. Qed.

Lemma Code_setElement_lookup (m : SparseMatrix) (r c v : Z) (k : Z * Z) :
  data (Code.setElement m r c v) !! k
  = if decide ((r, c) = k) then (if decide (v = 0) then None else Some v)
    else data m !! k.
Proof.
  rewrite Code_setElement_data. destruct (decide (v = 0)).
  - by rewrite lookup_delete.
  - by rewrite lookup_insert.
Qed.

Lemma Integral_setElement_in (m : SparseMatrix) (r c v : Z) :
  in_bounds m r c →
  ∃ m', Integral.setElement m r c v = Ok m'
        ∧ rows m' = rows m ∧ cols m' = cols m
        ∧ data m' = if decide (v = 0) then delete (r, c) (data m)
                    else <[(r, c) := v]> (data m).
Proof.
  intros Hin. unfold Integral.setElement.
  destruct (decide (Integral.out_of_bounds m r c)) as [Ho|_].
  { by apply out_of_bounds_iff in Ho. }
  destruct (decide (v ≠ 0)) as [Hv|Hv].
  - eexists. split; [done|]. by rewrite decide_False.
  - assert (v = 0) as -> by lia.
    destruct (decide (is_Some (data m !! (r, c)))) as [|Hn].
    + eexists. split; [done|]. by rewrite decide_True.
    + exists m. rewrite decide_True by done. repeat split; try done.
      symmetry. apply delete_id. by apply eq_None_not_Some.
Qed.

Lemma Integral_setElement_out (m : SparseMatrix) (r c v : Z) :
  Integral.out_of_bounds m r c →
  Integral.setElement m r c v = Err IndexOutOfBounds.
Proof. intros Ho. unfold Integral.setElement. by rewrite decide_True. Qed.

(** C7: zero-elision.  In both versions, after [setElement(r, c, 0)] at a
    coordinate inside the shape, [getElement(r, c)] is [0] and [(r, c)] is
    not a key of the dictionary, whatever was stored there before. *)
Theorem set_zero_then_absent (m : SparseMatrix) (r c : Z) :
  in_bounds m r c →
  (Code.getElement (Code.setElement m r c 0) r c = 0
   ∧ data (Code.setElement m r c 0) !! (r, c) = None)
  ∧ ∃ m', Integral.setElement m r c 0 = Ok m'
          ∧ in_bounds m' r c
          ∧ Integral.getElement m' r c = Ok 0
          ∧ data m' !! (r, c) = None.
Proof.
  intros Hin. split.
  - assert (data (Code.setElement m r c 0) !! (r, c) = None) as Hnone.
    { rewrite Code_setElement_lookup. by rewrite !decide_True. }
    split; [|done]. unfold Code.getElement, dict_get0. by rewrite Hnone.
  - destruct (Integral_setElement_in m r c 0 Hin) as (m' & Hset & Hr & Hc & Hd).
    rewrite decide_True in Hd by done.
    assert (in_bounds m' r c) as Hin'.
    { unfold in_bounds in *. by rewrite Hr, Hc. }
    assert (data m' !! (r, c) = None) as Hnone.
    { rewrite Hd. apply lookup_delete_eq. }
    exists m'. repeat split; try done; try apply Hin'.
    rewrite Integral_getElement_in by done.
    unfold entry, dict_get0. by rewrite Hnone.
Qed.

Lemma set_zero_then_absent_witness :
  let m := mkSparseMatrix 2 2 {[ (1, 0) := 7 ]} in
  in_bounds m 1 0
  ∧ data m !! (1, 0) = Some 7
  ∧ data (Code.setElement m 1 0 0) !! (1, 0) = None
  ∧ ∃ m', Integral.setElement m 1 0 0 = Ok m' ∧ data m' !! (1, 0) = None.
Proof.
  intros m.
  assert (in_bounds m 1 0) as Hin by (unfold in_bounds; simpl; lia).
  destruct (set_zero_then_absent m 1 0 Hin) as [[_ Hc] (m' & Hs & _ & _ & Hi)].
  split; [exact Hin|]. split; [reflexivity|]. split; [exact Hc|].
  exists m'. split; [exact Hs|exact Hi].
Defined.

(** C2, as the code has it.  The accessors of [src/integral-file] validate
    the coordinate: outside the shape both raise [IndexError], inside it
    [getElement] returns the stored value, or 0 when the coordinate is not a
    key.  The accessors of [src/code] never validate: at every coordinate
    [getElement] returns the stored value, or 0 when the coordinate is not a
    key, and [setElement] stores or removes the value. *)
Theorem accessors_validation (m : SparseMatrix) (row col value : Z) :
  (Integral.out_of_bounds m row col →
     Integral.getElement m row col = Err IndexOutOfBounds
     ∧ Integral.setElement m row col value = Err IndexOutOfBounds)
  ∧ (in_bounds m row col →
     Integral.getElement m row col
     = Ok (match data m !! (row, col) with Some v => v | None => 0 end))
  ∧ Code.getElement m row col
    = match data m !! (row, col) with Some v => v | None => 0 end
  ∧ data (Code.setElement m row col value) !! (row, col)
    = if decide (value = 0) then None else Some value.
Proof.
  split; [|split; [|split]].
  - intros Ho. split.
    + by apply Integral_getElement_out.
    + by apply Integral_setElement_out.
  - intros Hin. by rewrite Integral_getElement_in.
  - reflexivity.
  - rewrite Code_setElement_lookup. by rewrite decide_True.
Qed.

Lemma accessors_validation_witness :
  let m := mkSparseMatrix 2 2 {[ (1, 0) := 7 ]} in
  (Integral.getElement m 2 0 = Err IndexOutOfBounds
   ∧ Integral.setElement m 2 0 5 = Err IndexOutOfBounds)
  ∧ Integral.getElement m 1 0 = Ok 7
  ∧ Integral.getElement m 0 0 = Ok 0.
Proof.
  intros m.
  destruct (accessors_validation m 2 0 5) as [Hout _].
  destruct (accessors_validation m 1 0 5) as (_ & Hin1 & _).
  destruct (accessors_validation m 0 0 5) as (_ & Hin0 & _).
  split; [|split].
  - apply Hout. unfold Integral.out_of_bounds. simpl. lia.
  - apply Hin1. unfold in_bounds. simpl. lia.
  - apply Hin0. unfold in_bounds. simpl. lia.
Defined.

(** C2 as stated fails on [src/code]: on the empty 1 x 1 matrix the
    coordinate (5, 5) is outside the shape, yet [getElement] returns 0 and
    [setElement] stores the value. *)
Lemma code_accessors_do_not_validate :
  let m := Code.init 1 1 in
  Integral.out_of_bounds m 5 5
  ∧ Code.getElement m 5 5 = 0
  ∧ data (Code.setElement m 5 5 7) !! (5, 5) = Some 7.
Proof.
  intros m. split; [|split].
  - unfold Integral.out_of_bounds. simpl. lia.
  - reflexivity.
  - reflexivity.
Qed.

(** ** Addition and subtraction *)

Lemma dict_get0_elide (d : gmap (Z * Z) Z) (k : Z * Z) (v : Z) :
  d !! k = elide v → dict_get0 d k = v.
Proof.
  unfold dict_get0, elide. intros ->. by destruct (decide (v = 0)) as [->|].
Qed.

Lemma pair_eta (pos : Z * Z) : (pos.1, pos.2) = pos.
Proof. by destruct pos. Qed.

Lemma listing_map_to_list (d : gmap (Z * Z) Z) : listing (map_to_list d) d.
Proof. unfold listing. reflexivity. Qed.

Lemma listing_elem_of items d k v :
  listing items d → (k, v) ∈ items ↔ d !! k = Some v.
Proof. intros Hl. rewrite Hl. apply elem_of_map_to_list. Qed.

Lemma listing_key items d k :
  listing items d → k ∈ items.*1 ↔ is_Some (d !! k).
Proof.
  intros Hl. rewrite list_elem_of_fmap. split.
  - intros ([k' v] & -> & Hin). exists v. by apply (listing_elem_of items d).
  - intros [v Hv]. exists (k, v). split; [done|].
    by apply (listing_elem_of items d).
Qed.

Lemma listing_NoDup items d : listing items d → NoDup items.*1.
Proof. intros Hl. unfold listing in Hl. rewrite Hl. apply NoDup_fst_map_to_list. Qed.

Lemma listing_to_map items d : listing items d → list_to_map items = d.
Proof.
  intros Hl. rewrite <- (list_to_map_to_list d).
  apply list_to_map_proper; [by eapply listing_NoDup|done].
Qed.

Section code_additive.

(** The two loops of [add] and [subtract] differ by the operation only. *)
Variable op : Z → Z → Z.
Variable self other : SparseMatrix.

Lemma loop_self_cons pos v items result :
  (loop_self op other) ((pos, v) :: items) result
  = (loop_self op other) items
      (Code.setElement result pos.1 pos.2
         (op v (Code.getElement other pos.1 pos.2))).
Proof. reflexivity. Qed.

Lemma loop_other_cons pos v items result :
  (loop_other op self) ((pos, v) :: items) result
  = (loop_other op self) items
      (if decide (is_Some (data self !! pos)) then result
       else Code.setElement result pos.1 pos.2 (op 0 v)).
Proof. reflexivity. Qed.

Lemma loop_self_shape items result :
  rows ((loop_self op other) items result) = rows result
  ∧ cols ((loop_self op other) items result) = cols result.
Proof.
  revert result. induction items as [|[pos v] items IH]; intros result.
  - done.
  - rewrite loop_self_cons. destruct (IH (Code.setElement result pos.1 pos.2
                           (op v (Code.getElement other pos.1 pos.2))))
      as [-> ->].
    by rewrite Code_setElement_rows, Code_setElement_cols.
Qed.

Lemma loop_other_shape items result :
  rows ((loop_other op self) items result) = rows result
  ∧ cols ((loop_other op self) items result) = cols result.
Proof.
  revert result. induction items as [|[pos v] items IH]; intros result.
  - done.
  - rewrite loop_other_cons.
    destruct (decide (is_Some (data self !! pos))); [apply IH|].
    destruct (IH (Code.setElement result pos.1 pos.2 (op 0 v))) as [-> ->].
    by rewrite Code_setElement_rows, Code_setElement_cols.
Qed.

Lemma loop_self_lookup items result k :
  (∀ k v, (k, v) ∈ items → data self !! k = Some v) →
  data ((loop_self op other) items result) !! k
  = if decide (k ∈ items.*1)
    then elide (op (dict_get0 (data self) k) (dict_get0 (data other) k))
    else data result !! k.
Proof.
  revert result. induction items as [|[pos v] items IH]; intros result Hin.
  - rewrite decide_False; [done|]. apply not_elem_of_nil.
  - rewrite loop_self_cons, IH.
    2:{ intros k' v' Hk. apply Hin. by right. }
    rewrite fmap_cons. change ((pos, v).1) with pos.
    destruct (decide (k ∈ items.*1)) as [Hk|Hk].
    + rewrite decide_True; [done|]. by right.
    + rewrite Code_setElement_lookup, pair_eta.
      destruct (decide (pos = k)) as [->|Hne].
      * assert (data self !! k = Some v) as Hv by (apply Hin; left).
        unfold Code.getElement. rewrite pair_eta.
        rewrite (decide_True (P := k ∈ k :: items.*1)) by left.
        assert (dict_get0 (data self) k = v) as ->.
        { unfold dict_get0. by rewrite Hv. }
        done.
      * rewrite decide_False; [done|].
        intros [Heq|Hk']%elem_of_cons; congruence.
Qed.

Lemma loop_other_lookup items result k :
  (∀ k v, (k, v) ∈ items → data other !! k = Some v) →
  data ((loop_other op self) items result) !! k
  = if decide (k ∈ items.*1 ∧ data self !! k = None)
    then elide (op 0 (dict_get0 (data other) k))
    else data result !! k.
Proof.
  revert result. induction items as [|[pos v] items IH]; intros result Hin.
  - rewrite decide_False; [done|].
    intros [H _]. by apply not_elem_of_nil in H.
  - rewrite loop_other_cons, IH.
    2:{ intros k' v' Hk. apply Hin. by right. }
    rewrite fmap_cons. change ((pos, v).1) with pos.
    assert (data other !! pos = Some v) as Hv by (apply Hin; left).
    destruct (decide (k ∈ items.*1 ∧ data self !! k = None)) as [[H1 H2]|Hk].
    { rewrite decide_True; [done|]. split; [by right|done]. }
    destruct (decide (is_Some (data self !! pos))) as [Hs|Hs].
    + rewrite decide_False; [done|].
      intros [[Heq|Hk']%elem_of_cons H2].
      * subst k. rewrite H2 in Hs. by destruct Hs.
      * by apply Hk.
    + apply eq_None_not_Some in Hs.
      rewrite Code_setElement_lookup, pair_eta.
      destruct (decide (pos = k)) as [->|Hne].
      * rewrite (decide_True (P := k ∈ k :: items.*1 ∧ _))
          by (split; [left|done]).
        assert (dict_get0 (data other) k = v) as ->.
        { unfold dict_get0. by rewrite Hv. }
        done.
      * rewrite decide_False; [done|].
        intros [[Heq|Hk']%elem_of_cons H2]; [congruence|].
        by apply Hk.
Qed.

(** The dictionary of the result of both loops, for an operation with
    [op a 0 = a]: at a key of either operand the value of [op], elided
    when it is zero, and nothing elsewhere. *)
Lemma loops_lookup ps qs k :
  (∀ a, op a 0 = a) →
  listing ps (data self) → listing qs (data other) →
  data ((loop_other op self) qs ((loop_self op other) ps (Code.init (rows self) (cols self)))) !! k
  = if decide (is_Some (data self !! k) ∨ is_Some (data other !! k))
    then elide (op (dict_get0 (data self) k) (dict_get0 (data other) k))
    else None.
Proof.
  intros Hop Hps Hqs.
  rewrite loop_other_lookup.
  2:{ intros k' v'. by apply listing_elem_of. }
  rewrite loop_self_lookup.
  2:{ intros k' v'. by apply listing_elem_of. }
  destruct (decide (k ∈ qs.*1 ∧ data self !! k = None)) as [[Hq Hs]|Hn].
  - rewrite decide_True.
    2:{ right. by apply (listing_key qs). }
    unfold dict_get0 at 2. by rewrite Hs.
  - destruct (decide (k ∈ ps.*1)) as [Hp|Hp].
    + rewrite decide_True; [done|]. left. by apply (listing_key ps).
    + simpl. rewrite lookup_empty. rewrite decide_False; [done|].
      intros [Hs|Ho].
      * apply Hp. by apply (listing_key ps (data self)).
      * apply Hn. split; [by apply (listing_key qs (data other))|].
        apply eq_None_not_Some. intros Hs. apply Hp.
        by apply (listing_key ps (data self)).
Qed.

End code_additive.

Section integral_additive.

Variable op : Z → Z → Z.

Lemma merge_loop_cons key value items rd :
  (merge_loop op) ((key, value) :: items) rd
  = (merge_loop op) items ((merge_item op) rd key value).
Proof. reflexivity. Qed.

Lemma merge_item_lookup rd key value k :
  (merge_item op) rd key value !! k
  = if decide (key = k)
    then match rd !! k with
         | Some a => elide (op a value)
         | None => Some (op 0 value)
         end
    else rd !! k.
Proof.
  unfold merge_item. destruct (decide (key = k)) as [->|Hne].
  - destruct (rd !! k) as [a|] eqn:Ha; cbn zeta.
    + rewrite dict_get0_insert. rewrite (decide_True (P := k = k)) by done.
      unfold elide. destruct (decide (op a value = 0)).
      * apply lookup_delete_eq.
      * apply lookup_insert_eq.
    + apply lookup_insert_eq.
  - destruct (rd !! key) as [a|] eqn:Ha; cbn zeta.
    + destruct (decide _).
      * by rewrite lookup_delete_ne, lookup_insert_ne.
      * by rewrite lookup_insert_ne.
    + by rewrite lookup_insert_ne.
Qed.

Lemma merge_loop_lookup items rd k :
  NoDup items.*1 →
  (merge_loop op) items rd !! k
  = match (list_to_map items : gmap (Z * Z) Z) !! k with
    | Some v => match rd !! k with
                | Some a => elide (op a v)
                | None => Some (op 0 v)
                end
    | None => rd !! k
    end.
Proof.
  revert rd. induction items as [|[key value] items IH]; intros rd Hnd.
  - cbn [list_to_map foldr]. by rewrite lookup_empty.
  - rewrite fmap_cons in Hnd. apply NoDup_cons in Hnd as [Hnotin Hnd].
    rewrite merge_loop_cons, IH by done.
    rewrite merge_item_lookup. cbn [list_to_map foldr].
    destruct (decide (key = k)) as [->|Hne].
    + rewrite lookup_insert_eq.
      by rewrite (not_elem_of_list_to_map_1 items k).
    + by rewrite lookup_insert_ne.
Qed.

(** The dictionary after the loop over a listing of [other.data], started
    from a copy of [self.data], when neither holds a zero. *)
Lemma merge_loop_listing (self other : SparseMatrix) items k :
  (∀ a, op a 0 = a) → (∀ v, v ≠ 0 → op 0 v ≠ 0) →
  no_stored_zero self → no_stored_zero other →
  listing items (data other) →
  (merge_loop op) items (data self) !! k
  = if decide (is_Some (data self !! k) ∨ is_Some (data other !! k))
    then elide (op (dict_get0 (data self) k) (dict_get0 (data other) k))
    else None.
Proof.
  intros Hop0 Hopz Hzs Hzo Hl.
  rewrite merge_loop_lookup by (by eapply listing_NoDup).
  rewrite (listing_to_map items (data other)) by done.
  unfold dict_get0.
  destruct (data other !! k) as [v|] eqn:Hv;
    destruct (data self !! k) as [a|] eqn:Ha;
    case_decide as Hd; cbn [from_option id]; try done.
  - exfalso. apply Hd. by left.
  - unfold elide. rewrite decide_False; [done|]. apply Hopz. intros ->.
    by apply (Hzo k).
  - exfalso. apply Hd. by right.
  - rewrite Hop0. unfold elide.
    rewrite decide_False; [done|]. intros ->. by apply (Hzs k).
  - exfalso. apply Hd. by left.
  - by destruct Hd as [[? ?]|[? ?]].
Qed.

End integral_additive.

Lemma Integral_init_eq (r c : Z) (d : gmap (Z * Z) Z) :
  Integral.init r c d = mkSparseMatrix r c d.
Proof.
  unfold Integral.init. destruct (decide (d = ∅)) as [->|]; done.
Qed.

Lemma Code_add_in_order_eq ps qs A B :
  rows A = rows B → cols A = cols B →
  Code.add_in_order ps qs A B
  = Ok (loop_other Z.add A qs (loop_self Z.add B ps (Code.init (rows A) (cols A)))).
Proof.
  intros Hr Hc. unfold Code.add_in_order.
  rewrite decide_False; [done|]. intros [?|?]; congruence.
Qed.

Lemma Code_subtract_in_order_eq ps qs A B :
  rows A = rows B → cols A = cols B →
  Code.subtract_in_order ps qs A B
  = Ok (loop_other Z.sub A qs (loop_self Z.sub B ps (Code.init (rows A) (cols A)))).
Proof.
  intros Hr Hc. unfold Code.subtract_in_order.
  rewrite decide_False; [done|]. intros [?|?]; congruence.
Qed.

Lemma Integral_add_in_order_eq qs A B :
  rows A = rows B → cols A = cols B →
  Integral.add_in_order qs A B
  = Ok (mkSparseMatrix (rows A) (cols A) (merge_loop Z.add qs (data A))).
Proof.
  intros Hr Hc. unfold Integral.add_in_order.
  rewrite decide_False by (intros [?|?]; congruence).
  by rewrite Integral_init_eq.
Qed.

Lemma Integral_subtract_in_order_eq qs A B :
  rows A = rows B → cols A = cols B →
  Integral.subtract_in_order qs A B
  = Ok (mkSparseMatrix (rows A) (cols A) (merge_loop Z.sub qs (data A))).
Proof.
  intros Hr Hc. unfold Integral.subtract_in_order.
  rewrite decide_False by (intros [?|?]; congruence).
  by rewrite Integral_init_eq.
Qed.

Lemma merged_value op A B C i j :
  data C !! (i, j) = merged op A B (i, j) →
  is_Some (data A !! (i, j)) ∨ is_Some (data B !! (i, j)) →
  entry C i j = op (entry A i j) (entry B i j).
Proof.
  unfold merged. intros HC Hk. rewrite decide_True in HC by done.
  unfold entry. by apply dict_get0_elide.
Qed.

Lemma merged_zero op A B C i j :
  data C !! (i, j) = merged op A B (i, j) →
  op (entry A i j) (entry B i j) = 0 → data C !! (i, j) = None.
Proof.
  unfold merged, entry, elide. intros -> ->. by case_decide.
Qed.

Lemma merged_absent op A B C k :
  data C !! k = merged op A B k →
  data A !! k = None → data B !! k = None → data C !! k = None.
Proof.
  unfold merged. intros -> -> ->.
  rewrite decide_False; [done|]. by intros [[? ?]|[? ?]].
Qed.

Lemma Code_add_lookup ps qs A B :
  listing ps (data A) → listing qs (data B) →
  ∀ k, data (loop_other Z.add A qs
               (loop_self Z.add B ps (Code.init (rows A) (cols A)))) !! k
       = merged Z.add A B k.
Proof. intros Hp Hq k. apply loops_lookup; [lia|done|done]. Qed.

Lemma Code_subtract_lookup ps qs A B :
  listing ps (data A) → listing qs (data B) →
  ∀ k, data (loop_other Z.sub A qs
               (loop_self Z.sub B ps (Code.init (rows A) (cols A)))) !! k
       = merged Z.sub A B k.
Proof. intros Hp Hq k. apply loops_lookup; [lia|done|done]. Qed.

Lemma Integral_add_lookup qs A B :
  no_stored_zero A → no_stored_zero B → listing qs (data B) →
  ∀ k, merge_loop Z.add qs (data A) !! k = merged Z.add A B k.
Proof. intros HA HB Hq k. apply merge_loop_listing; try done; lia. Qed.

Lemma Integral_subtract_lookup qs A B :
  no_stored_zero A → no_stored_zero B → listing qs (data B) →
  ∀ k, merge_loop Z.sub qs (data A) !! k = merged Z.sub A B k.
Proof. intros HA HB Hq k. apply merge_loop_listing; try done; lia. Qed.

(** The dictionary [add] of [src/integral-file] builds, whatever its
    operands hold. *)
Lemma Integral_add_lookup_any qs A B k :
  listing qs (data B) →
  merge_loop Z.add qs (data A) !! k
  = match data B !! k with
    | Some v => match data A !! k with
                | Some a => elide (a + v)
                | None => Some v
                end
    | None => data A !! k
    end.
Proof.
  intros Hq. rewrite merge_loop_lookup by (by eapply listing_NoDup).
  by rewrite (listing_to_map qs (data B)).
Qed.

Lemma Code_add_in_order_sum ps qs A B :
  rows A = rows B → cols A = cols B →
  listing ps (data A) → listing qs (data B) →
  Code.add_in_order ps qs A B = Ok (Code_sum A B).
Proof.
  intros Hr Hc Hp Hq. rewrite Code_add_in_order_eq by done. f_equal.
  unfold Code_sum.
  pose proof (loop_other_shape Z.add A qs
    (loop_self Z.add B ps (Code.init (rows A) (cols A)))) as [Hr1 Hc1].
  pose proof (loop_self_shape Z.add B ps (Code.init (rows A) (cols A)))
    as [Hr2 Hc2].
  pose proof (loop_other_shape Z.add A (map_to_list (data B))
    (loop_self Z.add B (map_to_list (data A)) (Code.init (rows A) (cols A))))
    as [Hr3 Hc3].
  pose proof (loop_self_shape Z.add B (map_to_list (data A))
    (Code.init (rows A) (cols A))) as [Hr4 Hc4].
  pose proof (Code_add_lookup ps qs A B Hp Hq) as HL1.
  pose proof (Code_add_lookup _ _ A B (listing_map_to_list _)
                (listing_map_to_list _)) as HL2.
  destruct (loop_other Z.add A qs _) as [r1 c1 d1].
  destruct (loop_other Z.add A (map_to_list (data B)) _) as [r3 c3 d3].
  simpl in *. f_equal; try congruence.
  apply map_eq. intros k. by rewrite HL1, HL2.
Qed.

(** C5, as the code has it.  On operands of different shapes [add] raises
    the [ValueError] of the dimension check.  On operands of the same shape
    the result has that shape; at every coordinate that is a key of either
    operand its value is the sum of the values of the operands there; a
    coordinate that is a key of neither operand is not a key of the result;
    the result does not depend on the order in which the dictionaries are
    walked through.  In [src/code], [getElement] reads these values at
    every coordinate and a coordinate where the sum is zero is not a key of
    the result.  In [src/integral-file], [getElement] reads them at the
    coordinates inside the shape, and a coordinate where the sum is zero is
    not a key of the result when neither operand stores a zero there: the
    loop starts from a copy of the first dictionary and assigns the values
    of the second as they are. *)
Theorem add_adds_entries (A B : SparseMatrix) :
  (rows A ≠ rows B ∨ cols A ≠ cols B →
     Code.add A B = Err DimensionMismatch
     ∧ Integral.add A B = Err DimensionMismatch)
  ∧ (rows A = rows B → cols A = cols B →
     ∃ C, Code.add A B = Ok C
       ∧ (∀ ps qs, listing ps (data A) → listing qs (data B) →
            Code.add_in_order ps qs A B = Ok C)
       ∧ rows C = rows A ∧ cols C = cols A
       ∧ (∀ i j, is_Some (data A !! (i, j)) ∨ is_Some (data B !! (i, j)) →
            Code.getElement C i j
            = Code.getElement A i j + Code.getElement B i j)
       ∧ (∀ i j, Code.getElement A i j + Code.getElement B i j = 0 →
            data C !! (i, j) = None)
       ∧ (∀ k, data A !! k = None → data B !! k = None →
            data C !! k = None))
  ∧ (rows A = rows B → cols A = cols B →
     ∃ D, Integral.add A B = Ok D
       ∧ (∀ qs, listing qs (data B) → Integral.add_in_order qs A B = Ok D)
       ∧ rows D = rows A ∧ cols D = cols A
       ∧ (∀ i j, is_Some (data A !! (i, j)) ∨ is_Some (data B !! (i, j)) →
            entry D i j = entry A i j + entry B i j)
       ∧ (∀ k, data A !! k = None → data B !! k = None →
            data D !! k = None)
       ∧ (∀ i j, in_bounds A i j →
            is_Some (data A !! (i, j)) ∨ is_Some (data B !! (i, j)) →
            ∃ a b, Integral.getElement A i j = Ok a
                   ∧ Integral.getElement B i j = Ok b
                   ∧ Integral.getElement D i j = Ok (a + b))
       ∧ (∀ i j, data A !! (i, j) ≠ Some 0 → data B !! (i, j) ≠ Some 0 →
            entry A i j + entry B i j = 0 → data D !! (i, j) = None)).
Proof.
  split; [|split].
  - intros Hne. unfold Code.add, Code.add_in_order, Integral.add,
      Integral.add_in_order. by rewrite !decide_True.
  - intros Hr Hc. exists (Code_sum A B).
    assert (∀ k, data (Code_sum A B) !! k = merged Z.add A B k) as HL.
    { apply Code_add_lookup; apply listing_map_to_list. }
    split; [|split; [|split; [|split; [|split; [|split]]]]].
    + apply Code_add_in_order_sum; try done; apply listing_map_to_list.
    + intros ps qs Hp Hq. by apply Code_add_in_order_sum.
    + unfold Code_sum.
      rewrite (proj1 (loop_other_shape _ _ _ _)).
      by rewrite (proj1 (loop_self_shape _ _ _ _)).
    + unfold Code_sum.
      rewrite (proj2 (loop_other_shape _ _ _ _)).
      by rewrite (proj2 (loop_self_shape _ _ _ _)).
    + intros i j Hk. rewrite !Code_getElement_entry.
      by apply (merged_value Z.add A B).
    + intros i j Hz. rewrite !Code_getElement_entry in Hz.
      by apply (merged_zero Z.add A B).
    + intros k. by apply (merged_absent Z.add A B).
  - intros Hr Hc.
    set (D := mkSparseMatrix (rows A) (cols A)
                (merge_loop Z.add (map_to_list (data B)) (data A))).
    assert (∀ qs, listing qs (data B) → Integral.add_in_order qs A B = Ok D)
      as Hany.
    { intros qs Hq. rewrite Integral_add_in_order_eq by done.
      unfold D. do 2 f_equal. apply map_eq. intros k.
      rewrite (Integral_add_lookup_any qs A B) by done.
      rewrite (Integral_add_lookup_any _ A B); [done|].
      apply listing_map_to_list. }
    assert (∀ k, data D !! k
              = match data B !! k with
                | Some v => match data A !! k with
                            | Some a => elide (a + v)
                            | None => Some v
                            end
                | None => data A !! k
                end) as HL.
    { intros k. apply (Integral_add_lookup_any _ A B).
      apply listing_map_to_list. }
    assert (∀ i j, is_Some (data A !! (i, j)) ∨ is_Some (data B !! (i, j)) →
              entry D i j = entry A i j + entry B i j) as Hval.
    { intros i j Hk. unfold entry, dict_get0. rewrite HL.
      destruct (data B !! (i, j)) as [v|]; destruct (data A !! (i, j)) as [a|];
        cbn [from_option id].
      - unfold elide. destruct (decide (a + v = 0)) as [->|]; done.
      - done.
      - lia.
      - by destruct Hk as [[? ?]|[? ?]]. }
    exists D. split; [|split; [|split; [|split; [|split; [|split; [|split]]]]]].
    + apply Hany, listing_map_to_list.
    + done.
    + done.
    + done.
    + done.
    + intros k HA HB. by rewrite HL, HB.
    + intros i j Hin Hk.
      exists (entry A i j), (entry B i j). split; [|split].
      * by apply Integral_getElement_in.
      * apply Integral_getElement_in. unfold in_bounds in *.
        by rewrite <- Hr, <- Hc.
      * rewrite Integral_getElement_in by done. f_equal. by apply Hval.
    + intros i j HzA' HzB' Hz. rewrite HL. unfold entry, dict_get0 in Hz.
      destruct (data B !! (i, j)) as [v|]; destruct (data A !! (i, j)) as [a|];
        cbn [from_option id] in Hz.
      * unfold elide. by rewrite decide_True.
      * assert (v = 0) as -> by lia. done.
      * assert (a = 0) as -> by lia. done.
      * done.
Qed.

Lemma add_adds_entries_witness :
  let A := mkSparseMatrix 2 2 {[ (0, 0) := 1; (1, 1) := 2 ]} in
  let B := mkSparseMatrix 2 2 {[ (0, 0) := -1; (1, 1) := 3 ]} in
  let C := mkSparseMatrix 2 3 ∅ in
  (Code.add A C = Err DimensionMismatch
   ∧ Integral.add A C = Err DimensionMismatch)
  ∧ (∃ S, Code.add A B = Ok S ∧ data S !! (0, 0) = None)
  ∧ (∃ S, Integral.add A B = Ok S ∧ data S !! (0, 0) = None
          ∧ Integral.getElement S 1 1 = Ok 5).
Proof.
  intros A B C. split; [|split].
  - apply (proj1 (add_adds_entries A C)). right. simpl. lia.
  - destruct (proj1 (proj2 (add_adds_entries A B)) eq_refl eq_refl)
      as (S & HS & _ & _ & _ & _ & Hz & _).
    exists S. split; [exact HS|]. apply Hz. reflexivity.
  - destruct (proj2 (proj2 (add_adds_entries A B)) eq_refl eq_refl)
      as (S & HS & _ & _ & _ & _ & _ & Hget & Hz).
    exists S. split; [exact HS|]. split.
    + apply Hz; [vm_compute; discriminate|vm_compute; discriminate|].
      reflexivity.
    + destruct (Hget 1 1) as (a & b & Ha & Hb & Hab).
      * unfold in_bounds. simpl. lia.
      * left. by eexists.
      * assert (Integral.getElement A 1 1 = Ok 2) as Ha'
          by (vm_compute; reflexivity).
        assert (Integral.getElement B 1 1 = Ok 3) as Hb'
          by (vm_compute; reflexivity).
        rewrite Ha' in Ha. rewrite Hb' in Hb.
        injection Ha as <-. injection Hb as <-. exact Hab.
Defined.

(** C5 as stated fails in [src/integral-file].  The reader returns, for
    the line [(0, 0, 0)], a matrix that stores a zero, and for the line
    [(1,0,5)] a matrix with a key outside its shape.  Added to the empty
    matrix of the same shape, on either side, the first gives a result that
    stores the zero, at a coordinate where the sum is zero; the second gives
    a result whose value at the key [getElement] refuses to read. *)
Lemma integral_add_keeps_what_it_is_given :
  let Z0 := mkSparseMatrix 1 1 {[ (0, 0) := 0 ]} in
  let O := mkSparseMatrix 1 1 {[ (1, 0) := 5 ]} in
  let E := mkSparseMatrix 1 1 ∅ in
  (Integral.load_from_file (text_of_lines ["rows=1"; "cols=1"; "(0, 0, 0)"])
   = Ok Z0
   ∧ Integral.load_from_file (text_of_lines ["rows=1"; "cols=1"; "(1,0,5)"])
     = Ok O)
  ∧ (Integral.add Z0 E = Ok Z0 ∧ Integral.add E Z0 = Ok Z0
     ∧ entry Z0 0 0 + entry E 0 0 = 0 ∧ data Z0 !! (0, 0) = Some 0)
  ∧ (Integral.add O E = Ok O ∧ data O !! (1, 0) = Some 5
     ∧ Integral.getElement O 1 0 = Err IndexOutOfBounds)
  ∧ ¬ (∀ A B D, rows A = rows B → cols A = cols B →
         Integral.add A B = Ok D →
         ∀ i j, entry A i j + entry B i j = 0 → data D !! (i, j) = None).
Proof.
  intros Z0 O E.
  assert (Integral.add Z0 E = Ok Z0) as Hadd by (vm_compute; reflexivity).
  split; [split; vm_compute; reflexivity|].
  split; [repeat split; try done; vm_compute; reflexivity|].
  split; [repeat split; vm_compute; reflexivity|].
  intros Hall.
  by specialize (Hall Z0 E Z0 eq_refl eq_refl Hadd 0 0 eq_refl).
Qed.

(** ** Multiplication *)

Lemma elem_of_range (n x : Z) : x ∈ range n ↔ 0 ≤ x < n.
Proof.
  unfold range. rewrite list_elem_of_fmap. split.
  - intros (y & -> & Hy). apply elem_of_seq in Hy. lia.
  - intros Hx. exists (Z.to_nat x). split; [lia|]. apply elem_of_seq. lia.
Qed.

Lemma NoDup_range (n : Z) : NoDup (range n).
Proof.
  unfold range. apply NoDup_fmap_2; [|apply NoDup_seq].
  intros x y. lia.
Qed.

Lemma sumZ_cons (x : Z) (l : list Z) : sumZ (x :: l) = x + sumZ l.
Proof. reflexivity. Qed.

Lemma sumZ_app (l1 l2 : list Z) : sumZ (l1 ++ l2) = sumZ l1 + sumZ l2.
Proof.
  induction l1 as [|x l1 IH]; [done|].
  rewrite <- app_comm_cons, !sumZ_cons, IH. lia.
Qed.

Lemma sumZ_perm (l1 l2 : list Z) : l1 ≡ₚ l2 → sumZ l1 = sumZ l2.
Proof.
  induction 1 as [|x l1 l2 _ IH|x y l|l1 l2 l3 _ IH1 _ IH2];
    rewrite ?sumZ_cons; lia.
Qed.

Lemma sumZ_zero {A : Type} (f : A → Z) (l : list A) :
  (∀ x, x ∈ l → f x = 0) → sumZ (f <$> l) = 0.
Proof.
  induction l as [|x l IH]; intros Hz; [done|].
  rewrite fmap_cons, sumZ_cons, IH, Hz; [done|left|].
  intros y Hy. apply Hz. by right.
Qed.

Lemma sumZ_ext {A : Type} (f g : A → Z) (l : list A) :
  (∀ x, x ∈ l → f x = g x) → sumZ (f <$> l) = sumZ (g <$> l).
Proof.
  induction l as [|x l IH]; intros He; [done|].
  rewrite !fmap_cons, !sumZ_cons, IH, He; [done|left|].
  intros y Hy. apply He. by right.
Qed.

Lemma sumZ_plus {A : Type} (f g : A → Z) (l : list A) :
  sumZ ((λ x, f x + g x) <$> l) = sumZ (f <$> l) + sumZ (g <$> l).
Proof.
  induction l as [|x l IH]; [done|].
  rewrite !fmap_cons, !sumZ_cons, IH. lia.
Qed.

(** A sum with one non-zero term. *)
Lemma sumZ_single `{EqDecision A} (x0 : A) (c : Z) (l : list A) :
  NoDup l →
  sumZ ((λ x, if decide (x = x0) then c else 0) <$> l)
  = if decide (x0 ∈ l) then c else 0.
Proof.
  induction 1 as [|x l Hx Hnd IH].
  - rewrite decide_False; [done|]. apply not_elem_of_nil.
  - rewrite fmap_cons, sumZ_cons, IH.
    destruct (decide (x = x0)) as [->|Hne].
    + rewrite decide_False by done. rewrite decide_True by left. lia.
    + destruct (decide (x0 ∈ l)) as [Hin|Hin].
      * rewrite decide_True by (by right). lia.
      * rewrite decide_False; [lia|].
        intros [?|?]%elem_of_cons; congruence.
Qed.

Lemma foldl_add_sumZ {A : Type} (f : A → Z) (l : list A) (a : Z) :
  foldl (λ total k, total + f k) a l = a + sumZ (f <$> l).
Proof.
  revert a. induction l as [|x l IH]; intros a.
  - simpl. lia.
  - cbn [foldl]. rewrite IH, fmap_cons, sumZ_cons. lia.
Qed.

Lemma multiply_total_dot (A B : SparseMatrix) (i j : Z) :
  Code.multiply_total A B i j = dot A B i j.
Proof.
  unfold Code.multiply_total, dot.
  rewrite (foldl_add_sumZ (λ k, Code.getElement A i k * Code.getElement B k j)).
  apply Z.add_0_l.
Qed.

(** *** The dense triple loop *)

Lemma dense_row_cons A B i j js result :
  dense_row A B i (j :: js) result
  = dense_row A B i js
      (if decide (dot A B i j ≠ 0)
       then Code.setElement result i j (dot A B i j) else result).
Proof.
  unfold dense_row. cbn [foldl]. by rewrite multiply_total_dot.
Qed.

Lemma dense_rows_cons A B i il js result :
  dense_rows A B (i :: il) js result
  = dense_rows A B il js (dense_row A B i js result).
Proof. reflexivity. Qed.

Lemma dense_row_spec A B i js result :
  rows (dense_row A B i js result) = rows result
  ∧ cols (dense_row A B i js result) = cols result
  ∧ ∀ i' j', data (dense_row A B i js result) !! (i', j')
      = if decide (i' = i ∧ j' ∈ js ∧ dot A B i' j' ≠ 0)
        then Some (dot A B i' j') else data result !! (i', j').
Proof.
  revert result. induction js as [|j js IH]; intros result.
  - split; [done|split; [done|]]. intros i' j'.
    rewrite decide_False; [done|]. intros (_ & H & _).
    by apply not_elem_of_nil in H.
  - rewrite dense_row_cons.
    destruct (decide (dot A B i j ≠ 0)) as [Hnz|Hz].
    + destruct (IH (Code.setElement result i j (dot A B i j)))
        as (-> & -> & HL).
      rewrite Code_setElement_rows, Code_setElement_cols.
      repeat split; try done. intros i' j'. rewrite HL.
      destruct (decide (i' = i ∧ j' ∈ js ∧ dot A B i' j' ≠ 0))
        as [(-> & Hj & Hd)|Hn].
      * rewrite decide_True; [done|]. repeat split; try done. by right.
      * rewrite Code_setElement_lookup.
        destruct (decide ((i, j) = (i', j'))) as [Heq|Hne].
        -- inversion Heq; subst i' j'.
           rewrite decide_False by done.
           rewrite decide_True; [done|]. repeat split; try done. left.
        -- rewrite decide_False; [done|].
           intros (-> & [->|Hj]%elem_of_cons & Hd); [done|].
           by apply Hn.
    + destruct (IH result) as (-> & -> & HL).
      repeat split; try done. intros i' j'. rewrite HL.
      destruct (decide (i' = i ∧ j' ∈ js ∧ dot A B i' j' ≠ 0))
        as [(-> & Hj & Hd)|Hn].
      * rewrite decide_True; [done|]. repeat split; try done. by right.
      * rewrite decide_False; [done|].
        intros (-> & [->|Hj]%elem_of_cons & Hd); [done|].
        by apply Hn.
Qed.

Lemma dense_rows_spec A B il js result :
  rows (dense_rows A B il js result) = rows result
  ∧ cols (dense_rows A B il js result) = cols result
  ∧ ∀ i' j', data (dense_rows A B il js result) !! (i', j')
      = if decide (i' ∈ il ∧ j' ∈ js ∧ dot A B i' j' ≠ 0)
        then Some (dot A B i' j') else data result !! (i', j').
Proof.
  revert result. induction il as [|i il IH]; intros result.
  - split; [done|split; [done|]]. intros i' j'.
    rewrite decide_False; [done|]. intros (H & _).
    by apply not_elem_of_nil in H.
  - rewrite dense_rows_cons.
    destruct (IH (dense_row A B i js result)) as (-> & -> & HL).
    destruct (dense_row_spec A B i js result) as (-> & -> & HR).
    repeat split; try done. intros i' j'. rewrite HL, HR.
    destruct (decide (i' ∈ il ∧ j' ∈ js ∧ dot A B i' j' ≠ 0))
      as [(Hi & Hj & Hd)|Hn].
    + rewrite decide_True; [done|]. repeat split; try done. by right.
    + destruct (decide (i' = i ∧ j' ∈ js ∧ dot A B i' j' ≠ 0))
        as [(-> & Hj & Hd)|Hn'].
      * rewrite decide_True; [done|]. repeat split; try done. left.
      * rewrite decide_False; [done|].
        intros ([->|Hi]%elem_of_cons & Hj & Hd).
        -- by apply Hn'.
        -- by apply Hn.
Qed.

Lemma Code_multiply_eq A B :
  cols A = rows B → Code.multiply A B = Ok (dense_product A B).
Proof.
  intros Hd. unfold Code.multiply. rewrite decide_False by lia. reflexivity.
Qed.

Lemma dense_product_spec A B :
  rows (dense_product A B) = rows A
  ∧ cols (dense_product A B) = cols B
  ∧ ∀ i j, data (dense_product A B) !! (i, j)
      = if decide (0 ≤ i < rows A ∧ 0 ≤ j < cols B ∧ dot A B i j ≠ 0)
        then Some (dot A B i j) else None.
Proof.
  unfold dense_product.
  destruct (dense_rows_spec A B (range (rows A)) (range (cols B))
              (Code.init (rows A) (cols B))) as (-> & -> & HL).
  repeat split; try done. intros i j. rewrite HL. simpl.
  rewrite lookup_empty.
  destruct (decide (0 ≤ i < rows A ∧ 0 ≤ j < cols B ∧ dot A B i j ≠ 0))
    as [(Hi & Hj & Hd)|Hn].
  - rewrite decide_True; [done|]. by rewrite !elem_of_range.
  - rewrite decide_False; [done|]. by rewrite !elem_of_range.
Qed.

(** Outside the shape of the operands the coefficient is zero. *)
Lemma dot_row_out A B i j :
  keys_in_bounds A → ¬ 0 ≤ i < rows A → dot A B i j = 0.
Proof.
  intros HA Hi. unfold dot. apply sumZ_zero. intros k _.
  unfold entry, dict_get0.
  destruct (data A !! (i, k)) as [v|] eqn:Hv; [|done].
  apply HA in Hv. destruct Hv as [Hv _]. done.
Qed.

Lemma dot_col_out A B i j :
  keys_in_bounds B → ¬ 0 ≤ j < cols B → dot A B i j = 0.
Proof.
  intros HB Hj. unfold dot. apply sumZ_zero. intros k _.
  unfold entry, dict_get0.
  destruct (data B !! (k, j)) as [v|] eqn:Hv; [|apply Z.mul_0_r].
  apply HB in Hv. destruct Hv as [_ Hv]. done.
Qed.

(** *** The product driven by the stored entries *)

Lemma accumulate_lookup rd key x k :
  accumulate rd key x !! k
  = if decide (key = k) then elide (dict_get0 rd k + x) else rd !! k.
Proof.
  unfold accumulate. cbn zeta. rewrite dict_get0_insert.
  rewrite (decide_True (P := key = key)) by done.
  destruct (decide (key = k)) as [->|Hne]; unfold elide.
  - destruct (decide (dict_get0 rd k + x = 0)).
    + apply lookup_delete_eq.
    + apply lookup_insert_eq.
  - destruct (decide (dict_get0 rd key + x = 0)).
    + by rewrite lookup_delete_ne, lookup_insert_ne.
    + by rewrite lookup_insert_ne.
Qed.

Lemma accumulate_get0 rd key x k :
  dict_get0 (accumulate rd key x) k
  = dict_get0 rd k + (if decide (key = k) then x else 0).
Proof.
  unfold dict_get0 at 1. rewrite accumulate_lookup.
  destruct (decide (key = k)) as [->|Hne].
  - unfold elide. destruct (decide (dict_get0 rd k + x = 0)) as [->|]; done.
  - unfold dict_get0. lia.
Qed.

Lemma accumulate_no_zero rd key x : no_zero rd → no_zero (accumulate rd key x).
Proof.
  intros Hnz k. rewrite accumulate_lookup.
  destruct (decide (key = k)); [|apply Hnz].
  unfold elide. destruct (decide (dict_get0 rd k + x = 0)); congruence.
Qed.

Lemma for_each_cons {A S : Type} (body : S → A → result S) x l s :
  for_each body (x :: l) s = body s x ≫= for_each body l.
Proof. reflexivity. Qed.

Lemma multiply_step_in (B : SparseMatrix) (i k v : Z) rd (j : Z) :
  in_bounds B k j →
  Integral.multiply_step B i k v rd j
  = Ok (if decide (entry B k j ≠ 0)
        then accumulate rd (i, j) (v * entry B k j) else rd).
Proof.
  intros Hin. unfold Integral.multiply_step.
  rewrite Integral_getElement_in by done. cbn [mbind result_bind].
  destruct (decide (entry B k j ≠ 0)); [|done].
  cbn zeta. fold (accumulate rd (i, j) (v * entry B k j)).
  unfold accumulate. cbn zeta. by destruct (decide _).
Qed.

Lemma multiply_inner_loop (B : SparseMatrix) (i k v : Z) (js : list Z) rd :
  NoDup js → (∀ j, j ∈ js → in_bounds B k j) → no_zero rd →
  ∃ rd', for_each (Integral.multiply_step B i k v) js rd = Ok rd'
         ∧ no_zero rd'
         ∧ ∀ i' j', dict_get0 rd' (i', j')
             = dict_get0 rd (i', j')
               + (if decide (i = i' ∧ j' ∈ js) then v * entry B k j' else 0).
Proof.
  intros Hnd. revert rd. induction Hnd as [|j js Hj Hnd IH]; intros rd Hin Hnz.
  - exists rd. split; [done|]. split; [done|]. intros i' j'.
    rewrite decide_False; [lia|]. intros [_ H]. by apply not_elem_of_nil in H.
  - rewrite for_each_cons, multiply_step_in by (apply Hin; left).
    cbn [mbind result_bind].
    set (rd1 := if decide (entry B k j ≠ 0)
                then accumulate rd (i, j) (v * entry B k j) else rd).
    assert (no_zero rd1) as Hnz1.
    { unfold rd1. destruct (decide _); [|done]. by apply accumulate_no_zero. }
    assert (∀ i' j', dict_get0 rd1 (i', j')
              = dict_get0 rd (i', j')
                + (if decide ((i, j) = (i', j')) then v * entry B k j else 0))
      as Hget1.
    { intros i' j'. unfold rd1.
      destruct (decide (entry B k j ≠ 0)) as [Hne|He].
      - apply accumulate_get0.
      - assert (entry B k j = 0) as -> by lia.
        rewrite Z.mul_0_r. by destruct (decide _); lia. }
    destruct (IH rd1) as (rd' & Hrun & Hnz' & Hget); [|done|].
    { intros j' Hj'. apply Hin. by right. }
    exists rd'. split; [done|]. split; [done|]. intros i' j'.
    rewrite Hget, Hget1.
    destruct (decide ((i, j) = (i', j'))) as [Heq|Hne].
    + inversion Heq; subst i' j'.
      rewrite (decide_False (P := i = i ∧ j ∈ js)) by (by intros [_ ?]).
      rewrite decide_True by (split; [done|left]). lia.
    + destruct (decide (i = i' ∧ j' ∈ js)) as [[-> Hj']|Hn].
      * rewrite decide_True by (split; [done|by right]). lia.
      * rewrite decide_False; [lia|].
        intros [-> [->|Hj']%elem_of_cons]; [done|]. by apply Hn.
Qed.

Lemma multiply_outer_loop (B : SparseMatrix) (items : list ((Z * Z) * Z)) rd :
  (∀ i k v, ((i, k), v) ∈ items → 0 ≤ k < rows B) → no_zero rd →
  ∃ rd', for_each (Integral.multiply_entry B (cols B)) items rd = Ok rd'
         ∧ no_zero rd'
         ∧ ∀ i' j', dict_get0 rd' (i', j')
             = dict_get0 rd (i', j') + sumZ (contribution B i' j' <$> items).
Proof.
  revert rd. induction items as [|[[i k] v] items IH]; intros rd Hin Hnz.
  - exists rd. split; [done|]. split; [done|]. intros i' j'.
    cbn [fmap list_fmap sumZ foldr]. lia.
  - rewrite for_each_cons.
    change (Integral.multiply_entry B (cols B) rd (i, k, v))
      with (for_each (Integral.multiply_step B i k v) (range (cols B)) rd).
    destruct (multiply_inner_loop B i k v (range (cols B)) rd)
      as (rd1 & -> & Hnz1 & Hget1); [apply NoDup_range| |done|].
    { intros j Hj. apply elem_of_range in Hj. split; [|done].
      apply (Hin i k v). left. }
    cbn [mbind result_bind].
    destruct (IH rd1) as (rd' & Hrun & Hnz' & Hget); [|done|].
    { intros i0 k0 v0 H0. apply (Hin i0 k0 v0). by right. }
    exists rd'. split; [done|]. split; [done|]. intros i' j'.
    rewrite Hget, Hget1, fmap_cons, sumZ_cons. unfold contribution at 2.
    destruct (decide (i = i' ∧ j' ∈ range (cols B))) as [[-> Hj]|Hn].
    + apply elem_of_range in Hj. rewrite decide_True by done. lia.
    + rewrite decide_False; [lia|]. intros [-> Hj]. apply Hn.
      split; [done|]. by apply elem_of_range.
Qed.

(** The contributions of the stored entries of a row add up to the sum
    over the whole range of the shared dimension. *)
Lemma contributions_sum (B : SparseMatrix) (n i' j' : Z)
    (items : list ((Z * Z) * Z)) :
  NoDup items.*1 →
  (∀ i k v, ((i, k), v) ∈ items → 0 ≤ k < n) →
  0 ≤ j' < cols B →
  sumZ (contribution B i' j' <$> items)
  = sumZ ((λ k, dict_get0 (list_to_map items) (i', k) * entry B k j')
            <$> range n).
Proof.
  intros Hnd Hin Hj. induction items as [|[[i k] v] items IH].
  - cbn [list_to_map foldr fmap list_fmap sumZ]. symmetry.
    apply sumZ_zero. intros x _. rewrite dict_get0_empty. lia.
  - rewrite fmap_cons in Hnd. apply NoDup_cons in Hnd as [Hnotin Hnd].
    rewrite fmap_cons, sumZ_cons, IH; [|done|].
    2:{ intros i0 k0 v0 H0. apply (Hin i0 k0 v0). by right. }
    cbn [list_to_map foldr]. unfold contribution.
    rewrite (sumZ_ext
      (λ x, dict_get0 (<[(i, k) := v]> (list_to_map items)) (i', x)
            * entry B x j')
      (λ x, (if decide (x = k) then (if decide (i = i') then v * entry B k j'
                                     else 0) else 0)
            + dict_get0 (list_to_map items) (i', x) * entry B x j')).
    2:{ intros x _. rewrite dict_get0_insert.
        destruct (decide ((i, k) = (i', x))) as [Heq|Hne].
        - inversion Heq; subst i' x. rewrite !decide_True by done.
          assert (dict_get0 (list_to_map items) (i, k) = 0) as ->; [|lia].
          unfold dict_get0.
          by rewrite (not_elem_of_list_to_map_1 items (i, k)).
        - destruct (decide (x = k)) as [->|]; [|lia].
          rewrite decide_False; [lia|]. intros ->. done. }
    rewrite sumZ_plus, sumZ_single by apply NoDup_range.
    rewrite (decide_True (P := k ∈ range n)).
    2:{ apply elem_of_range. apply (Hin i k v). left. }
    destruct (decide (i = i')) as [->|Hne].
    + rewrite decide_True by done. done.
    + rewrite decide_False; [done|]. by intros [? _].
Qed.

(** The dictionary of the sparse product of [A] and [B]. *)
Lemma Integral_multiply_in_order_spec (A B : SparseMatrix) items :
  keys_in_bounds A → cols A = rows B → listing items (data A) →
  ∃ Q, Integral.multiply_in_order items A B = Ok Q
       ∧ rows Q = rows A ∧ cols Q = cols B
       ∧ ∀ i j, data Q !! (i, j)
           = if decide (0 ≤ j < cols B) then elide (dot A B i j) else None.
Proof.
  intros HA Hd Hl. unfold Integral.multiply_in_order.
  rewrite decide_False by lia. cbn zeta.
  destruct (multiply_outer_loop B items ∅) as (rd & -> & Hnz & Hget).
  { intros i k v Hin. apply (listing_elem_of items (data A)) in Hin; [|done].
    apply HA in Hin. destruct Hin as [_ Hk]. lia. }
  { intros k. by rewrite lookup_empty. }
  cbn [mbind result_bind]. rewrite Integral_init_eq.
  eexists. split; [done|]. split; [done|]. split; [done|].
  intros i j. cbn [data]. rewrite (lookup_of_get0 rd (i, j)) by apply Hnz.
  rewrite Hget, dict_get0_empty, Z.add_0_l.
  destruct (decide (0 ≤ j < cols B)) as [Hj|Hj].
  - rewrite (contributions_sum B (cols A)); try done.
    + rewrite (listing_to_map items (data A)) by done.
      fold (elide (dot A B i j)). done.
    + by eapply listing_NoDup.
    + intros i0 k v Hin.
      apply (listing_elem_of items (data A)) in Hin; [|done].
      apply HA in Hin. by destruct Hin as [_ Hk].
  - rewrite sumZ_zero; [done|]. intros [[i0 k] v] _. unfold contribution.
    rewrite decide_False; [done|]. by intros [_ ?].
Qed.

Lemma wf_check_wf (m : SparseMatrix) : wf_check m = true → wf m.
Proof.
  unfold wf_check. rewrite forallb_forall. intros Hall.
  assert (∀ r c v, data m !! (r, c) = Some v → in_bounds m r c ∧ v ≠ 0) as H.
  { intros r c v Hv. apply elem_of_map_to_list, list_elem_of_In in Hv.
    apply Hall in Hv. by apply bool_decide_eq_true in Hv. }
  split.
  - intros r c v Hv. by apply H in Hv as [? _].
  - intros [r c] Hv. by apply H in Hv as [_ ?].
Qed.

Lemma products_agree (A B : SparseMatrix) items :
  keys_in_bounds A → cols A = rows B → listing items (data A) →
  Integral.multiply_in_order items A B = Code.multiply A B.
Proof.
  intros HA Hd Hl. rewrite Code_multiply_eq by done.
  destruct (Integral_multiply_in_order_spec A B items HA Hd Hl)
    as (Q & -> & Hr & Hc & HL).
  destruct (dense_product_spec A B) as (Hr' & Hc' & HL').
  f_equal. destruct Q as [r c d], (dense_product A B) as [r' c' d'].
  simpl in *. f_equal; try congruence.
  apply map_eq. intros [i j]. rewrite HL, HL'.
  destruct (decide (0 ≤ j < cols B)) as [Hj|Hj].
  - unfold elide. destruct (decide (dot A B i j = 0)) as [Hz|Hz].
    + rewrite decide_False; [done|]. by intros (_ & _ & ?).
    + destruct (decide (0 ≤ i < rows A)) as [Hi|Hi].
      * by rewrite decide_True.
      * by rewrite dot_row_out in Hz.
  - rewrite decide_False; [done|]. by intros (_ & ? & _).
Qed.

(** C1: multiplication.  For operands that satisfy the invariants of the
    data model, both versions of [multiply] raise the [ValueError] of the
    dimension check when [A.cols != B.rows]; otherwise both return a matrix
    of shape [(A.rows, B.cols)] whose value at [(i, j)] is the sum over
    [0 <= k < A.cols] of [A(i,k) * B(k,j)], and no coordinate where that sum
    is zero is a key of the result.  The result of the sparse product does
    not depend on the order in which the entries of [A] are walked
    through. *)
Theorem multiply_is_matrix_product (A B : SparseMatrix) :
  wf A → wf B →
  (cols A ≠ rows B →
     Code.multiply A B = Err DimensionMismatch
     ∧ Integral.multiply A B = Err DimensionMismatch)
  ∧ (cols A = rows B →
     ∃ P Q, Code.multiply A B = Ok P
       ∧ Integral.multiply A B = Ok Q
       ∧ (∀ items, listing items (data A) →
            Integral.multiply_in_order items A B = Ok Q)
       ∧ (rows P = rows A ∧ cols P = cols B)
       ∧ (rows Q = rows A ∧ cols Q = cols B)
       ∧ (∀ i j, Code.getElement P i j = dot A B i j)
       ∧ (∀ i j, in_bounds Q i j →
            Integral.getElement Q i j = Ok (dot A B i j))
       ∧ (∀ i j, dot A B i j = 0 →
            data P !! (i, j) = None ∧ data Q !! (i, j) = None)).
Proof.
  intros [HkA HzA] [HkB HzB]. split.
  - intros Hne. unfold Code.multiply, Integral.multiply,
      Integral.multiply_in_order. by rewrite !decide_True.
  - intros Hd.
    pose proof (Code_multiply_eq A B Hd) as HP.
    destruct (dense_product_spec A B) as (Hr & Hc & HL).
    assert (∀ i j, entry (dense_product A B) i j = dot A B i j) as Hval.
    { intros i j. unfold entry, dict_get0. rewrite HL.
      destruct (decide (0 ≤ i < rows A ∧ 0 ≤ j < cols B ∧ dot A B i j ≠ 0))
        as [|Hn]; [done|].
      cbn [from_option id].
      destruct (decide (0 ≤ i < rows A)) as [Hi|Hi];
        [|by rewrite dot_row_out].
      destruct (decide (0 ≤ j < cols B)) as [Hj|Hj];
        [|by rewrite dot_col_out].
      destruct (decide (dot A B i j = 0)) as [Hz|Hz]; [done|].
      exfalso. by apply Hn. }
    exists (dense_product A B), (dense_product A B).
    split; [done|]. split.
    { unfold Integral.multiply. rewrite products_agree; try done.
      apply listing_map_to_list. }
    split.
    { intros items Hl. by rewrite products_agree. }
    split; [done|]. split; [done|]. split; [|split].
    + intros i j. by rewrite Code_getElement_entry.
    + intros i j Hin. rewrite Integral_getElement_in by done. by rewrite Hval.
    + intros i j Hz. assert (data (dense_product A B) !! (i, j) = None).
      { rewrite HL. rewrite decide_False; [done|]. by intros (_ & _ & ?). }
      done.
Qed.

Lemma multiply_is_matrix_product_witness :
  let A := mkSparseMatrix 2 2 {[ (0, 0) := 1; (0, 1) := 2; (1, 1) := 3 ]} in
  let B := mkSparseMatrix 2 2 {[ (0, 0) := 2; (1, 0) := -1; (1, 1) := 3 ]} in
  let C := mkSparseMatrix 3 2 ∅ in
  (Code.multiply A C = Err DimensionMismatch
   ∧ Integral.multiply A C = Err DimensionMismatch)
  ∧ ∃ P Q, Code.multiply A B = Ok P ∧ Integral.multiply A B = Ok Q
           ∧ Code.getElement P 0 1 = 6
           ∧ Integral.getElement Q 0 1 = Ok 6
           ∧ data P !! (0, 0) = None ∧ data Q !! (0, 0) = None.
Proof.
  intros A B C.
  assert (wf A) as HA by (apply wf_check_wf; vm_compute; reflexivity).
  assert (wf B) as HB by (apply wf_check_wf; vm_compute; reflexivity).
  assert (wf C) as HC by (apply wf_check_wf; vm_compute; reflexivity).
  split.
  - apply (proj1 (multiply_is_matrix_product A C HA HC)). simpl. lia.
  - destruct (proj2 (multiply_is_matrix_product A B HA HB) eq_refl)
      as (P & Q & HP & HQ & _ & _ & [HrQ HcQ] & HvP & HvQ & Hz).
    exists P, Q. split; [exact HP|]. split; [exact HQ|].
    split; [apply HvP|]. split.
    + apply HvQ. unfold in_bounds. rewrite HrQ, HcQ. simpl. lia.
    + apply Hz. reflexivity.
Defined.

(** C10: for operands that satisfy the invariants of the data model, with
    [A.cols == B.rows], the dense triple loop of [src/code] and the product
    of [src/integral-file], driven by the stored entries, return the same
    matrix: same [rows], same [cols], same dictionary; and this for every
    order in which the entries of [A] are walked through. *)
Theorem dense_and_sparse_multiply_agree (A B : SparseMatrix) :
  wf A → wf B → cols A = rows B →
  ∃ P, Code.multiply A B = Ok P
       ∧ Integral.multiply A B = Ok P
       ∧ ∀ items, listing items (data A) →
           Integral.multiply_in_order items A B = Ok P.
Proof.
  intros [HkA _] _ Hd. exists (dense_product A B).
  split; [by apply Code_multiply_eq|]. split.
  - unfold Integral.multiply. rewrite products_agree; try done.
    + by apply Code_multiply_eq.
    + apply listing_map_to_list.
  - intros items Hl. rewrite products_agree by done.
    by apply Code_multiply_eq.
Qed.

Lemma dense_and_sparse_multiply_agree_witness :
  let A := mkSparseMatrix 2 3
             {[ (0, 0) := 1; (0, 2) := -2; (1, 1) := 3 ]} in
  let B := mkSparseMatrix 3 2
             {[ (0, 0) := 2; (2, 0) := 1; (1, 1) := 5 ]} in
  ∃ P, Code.multiply A B = Ok P ∧ Integral.multiply A B = Ok P
       ∧ data P = {[ (1, 1) := 15 ]}.
Proof.
  intros A B.
  assert (wf A) as HA by (apply wf_check_wf; vm_compute; reflexivity).
  assert (wf B) as HB by (apply wf_check_wf; vm_compute; reflexivity).
  destruct (dense_and_sparse_multiply_agree A B HA HB eq_refl)
    as (P & HP & HQ & _).
  exists P. split; [exact HP|]. split; [exact HQ|].
  assert (Code.multiply A B
          = Ok (mkSparseMatrix 2 2 {[ (1, 1) := 15 ]})) as HP'
    by (vm_compute; reflexivity).
  rewrite HP' in HP. inversion HP. reflexivity.
Defined.

(** ** The invariants of the data model *)

Lemma wf_empty (r c : Z) : wf (mkSparseMatrix r c ∅).
Proof.
  split.
  - intros i j v Hv. simpl in Hv. by rewrite lookup_empty in Hv.
  - intros k. simpl. by rewrite lookup_empty.
Qed.

Lemma wf_set (m m' : SparseMatrix) (r c v : Z) :
  wf m → in_bounds m r c →
  rows m' = rows m → cols m' = cols m →
  data m' = (if decide (v = 0) then delete (r, c) (data m)
             else <[(r, c) := v]> (data m)) →
  wf m'.
Proof.
  intros [Hk Hz] Hin Hr Hc Hd. split.
  - intros i j x Hx. unfold in_bounds. rewrite Hr, Hc. rewrite Hd in Hx.
    destruct (decide (v = 0)).
    + apply lookup_delete_Some in Hx as [_ Hx]. by apply (Hk i j x).
    + apply lookup_insert_Some in Hx as [[Heq _]|[_ Hx]].
      * by inversion Heq; subst.
      * by apply (Hk i j x).
  - intros k. rewrite Hd. destruct (decide (v = 0)).
    + rewrite lookup_delete. destruct (decide ((r, c) = k)); [done|apply Hz].
    + rewrite lookup_insert. destruct (decide ((r, c) = k)); [congruence|].
      apply Hz.
Qed.

Lemma wf_merged (op : Z → Z → Z) (A B C : SparseMatrix) :
  wf A → wf B → rows A = rows B → cols A = cols B →
  rows C = rows A → cols C = cols A →
  (∀ k, data C !! k = merged op A B k) → wf C.
Proof.
  intros [HkA _] [HkB _] Hr Hc HrC HcC HL. split.
  - intros i j v Hv. rewrite HL in Hv. unfold merged in Hv.
    unfold in_bounds. rewrite HrC, HcC.
    destruct (decide _) as [[[x Hx]|[x Hx]]|]; [| |done].
    + by apply (HkA i j x).
    + apply HkB in Hx. unfold in_bounds in Hx. by rewrite Hr, Hc.
  - intros k. rewrite HL. unfold merged, elide.
    repeat case_decide; congruence.
Qed.

Lemma wf_dense_product (A B : SparseMatrix) : wf (dense_product A B).
Proof.
  destruct (dense_product_spec A B) as (Hr & Hc & HL). split.
  - intros i j v Hv. rewrite HL in Hv. unfold in_bounds. rewrite Hr, Hc.
    destruct (decide _) as [(? & ? & ?)|]; done.
  - intros [i j]. rewrite HL. destruct (decide _) as [(? & ? & ?)|]; congruence.
Qed.

Lemma readFile_entry_below (nr nc : Z) (m m' : SparseMatrix) (line : str) :
  rows m = nr → cols m = nc → below_shape m →
  Code.readFile_entry nr nc m line = Some m' →
  rows m' = nr ∧ cols m' = nc ∧ below_shape m'.
Proof.
  intros Hr Hc Hb. unfold Code.readFile_entry.
  destruct (negb (startswith "(" line) || negb (endswith ")" line)); [done|].
  destruct (split "," (slice_1_m1 line)) as [|p1 [|p2 [|p3 [|? ?]]]]; try done.
  destruct (py_int p1) as [row|]; [|done].
  destruct (py_int p2) as [col|]; [|done].
  destruct (py_int p3) as [value|]; [|done].
  cbn [mbind option_bind].
  destruct (decide (row >= nr ∨ col >= nc)) as [|Hin]; [done|].
  intros [= <-].
  rewrite Code_setElement_rows, Code_setElement_cols.
  split; [done|]. split; [done|].
  intros r c v. rewrite Code_setElement_rows, Code_setElement_cols.
  rewrite Code_setElement_lookup.
  destruct (decide ((row, col) = (r, c))) as [Heq|Hne].
  - inversion Heq; subst r c. destruct (decide (value = 0)); [done|].
    intros [= <-]. lia.
  - apply Hb.
Qed.

Lemma readFile_entries_below (nr nc : Z) (lines : list str)
    (m m' : SparseMatrix) :
  rows m = nr → cols m = nc → below_shape m →
  for_each_opt (Code.readFile_entry nr nc) lines m = Some m' →
  rows m' = nr ∧ cols m' = nc ∧ below_shape m'.
Proof.
  revert m. induction lines as [|line lines IH]; intros m Hr Hc Hb.
  - intros [= <-]. done.
  - cbn [for_each_opt].
    destruct (Code.readFile_entry nr nc m line) as [m1|] eqn:H1; [|done].
    cbn [mbind option_bind].
    destruct (readFile_entry_below nr nc m m1 line Hr Hc Hb H1)
      as (Hr1 & Hc1 & Hb1).
    by apply IH.
Qed.

Lemma Code_readFile_below (text : str) (m : SparseMatrix) :
  Code.readFile text = Ok m → below_shape m.
Proof.
  unfold Code.readFile.
  destruct (decide (length (file_lines text) < 2)%nat); [done|].
  destruct (file_lines text !! 0%nat) as [l0|]; [|done].
  destruct (file_lines text !! 1%nat) as [l1|]; [|done].
  cbn [fmap option_fmap option_map mbind option_bind].
  destruct (decide _); [done|].
  destruct (split "=" l0 !! 1%nat) as [f0|]; [|done].
  cbn [mbind option_bind].
  destruct (py_int f0) as [nr|]; [|done].
  cbn [mbind option_bind].
  destruct (split "=" l1 !! 1%nat) as [f1|]; [|done].
  cbn [mbind option_bind].
  destruct (py_int f1) as [nc|]; [|done].
  cbn [mbind option_bind].
  destruct (for_each_opt _ _ _) as [m1|] eqn:Hloop; [|done].
  intros [= <-].
  apply readFile_entries_below in Hloop as (_ & _ & Hb);
    [done|done|done|].
  intros r c v Hv. simpl in Hv. by rewrite lookup_empty in Hv.
Qed.

(** ** The readers *)

(** ** Text: numbers *)

Ltac by_char c :=
  generalize dependent c;
  intros [[] [] [] [] [] [] [] []]; vm_compute;
  repeat (let H := fresh in intros H);
  try reflexivity; try discriminate; try congruence.

Lemma digit_not_space c : is_digit c = true → is_space c = false.
Proof. by_char c. Qed.

Lemma digit_not_int_space c : is_digit c = true → is_int_space c = false.
Proof. by_char c. Qed.

Lemma digit_not_eol c : is_digit c = true → is_eol c = false.
Proof. by_char c. Qed.

Lemma digit_is_digit_char c : is_digit c = true → is_digit_char c = true.
Proof. by_char c. Qed.

Lemma digit_not_char c c' :
  is_digit c' = false → is_digit c = true → is_char c' c = false.
Proof.
  intros Hc' Hc. unfold is_char. apply bool_decide_eq_false. intros ->.
  congruence.
Qed.

Lemma digit_char_digit (d : Z) :
  0 ≤ d < 10 → is_digit (digit_char d) = true ∧ digit_val (digit_char d) = d.
Proof.
  intros Hd.
  assert (d = 0 ∨ d = 1 ∨ d = 2 ∨ d = 3 ∨ d = 4 ∨ d = 5 ∨ d = 6 ∨ d = 7
          ∨ d = 8 ∨ d = 9) as Hcases by lia.
  repeat (destruct Hcases as [->|Hcases]; [by vm_compute|]).
  subst d. by vm_compute.
Qed.

Lemma int_digits_all_digits (s : str) (acc : Z) (b : bool) :
  Forall (λ c, is_digit c = true) s → s ≠ [] →
  int_digits acc b s = Some (digits_value acc s).
Proof.
  intros Hall. revert acc b. induction Hall as [|c s Hc Hall IH]; [done|].
  intros acc b _. cbn [int_digits]. rewrite Hc.
  destruct s as [|c' s'].
  - done.
  - by rewrite IH.
Qed.

Lemma digits_fuel_S (fuel : nat) (n : Z) :
  digits_fuel (S fuel) n
  = if decide (n < 10) then [digit_char n]
    else digits_fuel fuel (n / 10) ++ [digit_char (n mod 10)].
Proof. reflexivity. Qed.

Lemma digits_fuel_spec (fuel : nat) (n : Z) :
  0 ≤ n < 2 ^ Z.of_nat (S fuel) →
  Forall (λ c, is_digit c = true) (digits_fuel (S fuel) n)
  ∧ digits_fuel (S fuel) n ≠ []
  ∧ digits_value 0 (digits_fuel (S fuel) n) = n.
Proof.
  assert (∀ d, 0 ≤ d < 10 →
            Forall (λ c, is_digit c = true) [digit_char d]
            ∧ [digit_char d] ≠ []
            ∧ digits_value 0 [digit_char d] = d) as Hone.
  { intros d Hd. destruct (digit_char_digit d Hd) as [Hdig Hv].
    split; [by repeat constructor|]. split; [done|].
    unfold digits_value. cbn [foldl]. rewrite Hv. lia. }
  revert n. induction fuel as [|fuel IH]; intros n Hn.
  - rewrite digits_fuel_S. rewrite decide_True by (simpl in Hn; lia).
    apply Hone. simpl in Hn. lia.
  - rewrite digits_fuel_S. destruct (decide (n < 10)) as [Hlt|Hge].
    + apply Hone. lia.
    + assert (0 ≤ n / 10 < 2 ^ Z.of_nat (S fuel)) as Hq.
      { split; [apply Z.div_pos; lia|].
        rewrite (Nat2Z.inj_succ (S fuel)), Z.pow_succ_r in Hn by lia.
        apply Z.div_lt_upper_bound; lia. }
      destruct (IH (n / 10) Hq) as (Hall & Hne & Hval).
      destruct (digit_char_digit (n mod 10)) as [Hd Hv].
      { apply Z.mod_pos_bound. lia. }
      split; [|split].
      * apply Forall_app. split; [done|]. by repeat constructor.
      * intros Happ. by apply app_eq_nil in Happ as [_ ?].
      * unfold digits_value in *. rewrite foldl_app. cbn [foldl].
        rewrite Hval, Hv. pose proof (Z.div_mod n 10). lia.
Qed.

Lemma str_nat_spec (n : Z) :
  0 ≤ n →
  Forall (λ c, is_digit c = true) (str_nat n)
  ∧ str_nat n ≠ []
  ∧ digits_value 0 (str_nat n) = n.
Proof.
  intros Hn. unfold str_nat. apply digits_fuel_spec. split; [done|].
  rewrite Nat2Z.inj_succ, Z2Nat.id by apply Z.log2_nonneg.
  destruct (decide (n = 0)) as [->|Hnz]; [done|].
  apply Z.log2_spec. lia.
Qed.

Lemma py_str_chars (z : Z) : Forall (λ c, is_num_char c = true) (py_str z).
Proof.
  unfold py_str. destruct (decide (z < 0)).
  - constructor; [done|].
    destruct (str_nat_spec (- z)) as [Hall _]; [lia|].
    eapply Forall_impl; [done|]. intros c Hc. unfold is_num_char.
    by rewrite Hc.
  - destruct (str_nat_spec z) as [Hall _]; [lia|].
    eapply Forall_impl; [done|]. intros c Hc. unfold is_num_char.
    by rewrite Hc.
Qed.

Lemma py_str_nonneg (z : Z) :
  0 ≤ z → Forall (λ c, is_digit c = true) (py_str z) ∧ py_str z ≠ [].
Proof.
  intros Hz. unfold py_str. rewrite decide_False by lia.
  destruct (str_nat_spec z Hz) as (? & ? & _). done.
Qed.

(** A printed integer begins with a digit or the sign and ends with a
    digit. *)
Lemma py_str_ends (z : Z) :
  ∃ c s c', py_str z = c :: s
            ∧ is_num_char c = true
            ∧ last (py_str z) = Some c' ∧ is_digit c' = true.
Proof.
  assert (∀ n, 0 ≤ n → ∃ c', last (str_nat n) = Some c' ∧ is_digit c' = true)
    as Hlast.
  { intros n Hn. destruct (str_nat_spec n Hn) as (Hall & Hne & _).
    destruct (last (str_nat n)) as [c'|] eqn:Hl.
    - exists c'. split; [done|].
      rewrite Forall_forall in Hall. apply Hall.
      apply last_Some in Hl as [l' ->]. apply elem_of_app. right. left.
    - by apply last_None in Hl. }
  pose proof (py_str_chars z) as Hall.
  unfold py_str in *. destruct (decide (z < 0)).
  - destruct (Hlast (- z)) as (c' & Hl & Hd); [lia|].
    exists "-"%char, (str_nat (- z)), c'. repeat split; try done.
    destruct (str_nat_spec (- z)) as (_ & Hne & _); [lia|].
    destruct (str_nat (- z)) as [|x tl]; [done|]. done.
  - destruct (Hlast z) as (c' & Hl & Hd); [lia|].
    destruct (str_nat_spec z) as (_ & Hne & _); [lia|].
    destruct (str_nat z) as [|x tl] eqn:Hs; [done|].
    exists x, tl, c'. repeat split; try done.
    by inversion Hall.
Qed.

(** ** Text: stripping and splitting *)

Lemma lstrip_by_id (p : ascii → bool) (s : str) :
  (∀ c, head s = Some c → p c = false) → lstrip_by p s = s.
Proof.
  destruct s as [|c s]; [done|]. intros H. cbn [lstrip_by].
  by rewrite (H c).
Qed.

Lemma strip_by_id (p : ascii → bool) (s : str) :
  (∀ c, head s = Some c → p c = false) →
  (∀ c, last s = Some c → p c = false) →
  strip_by p s = s.
Proof.
  intros Hh Hl. unfold strip_by, rstrip_by.
  rewrite (lstrip_by_id p s) by done.
  rewrite lstrip_by_id; [apply reverse_involutive|].
  intros c Hc. apply Hl. by rewrite <- head_reverse.
Qed.

Lemma strip_by_cons_space (p : ascii → bool) (c : ascii) (s : str) :
  p c = true → s ≠ [] →
  (∀ c, head s = Some c → p c = false) →
  (∀ c, last s = Some c → p c = false) →
  strip_by p (c :: s) = s.
Proof.
  intros Hc Hne Hh Hl. unfold strip_by. cbn [lstrip_by]. rewrite Hc.
  rewrite (lstrip_by_id p s) by done.
  unfold rstrip_by. rewrite lstrip_by_id; [apply reverse_involutive|].
  intros c' Hc'. apply Hl. by rewrite <- head_reverse.
Qed.

Lemma py_str_head_last (p : ascii → bool) (z : Z) :
  (∀ c, is_num_char c = true → p c = false) →
  py_str z ≠ []
  ∧ (∀ c, head (py_str z) = Some c → p c = false)
  ∧ (∀ c, last (py_str z) = Some c → p c = false).
Proof.
  intros Hp. destruct (py_str_ends z) as (c & s & c' & Hs & Hc & Hl & Hc').
  split; [by rewrite Hs|]. split.
  - rewrite Hs. intros x [= <-]. by apply Hp.
  - rewrite Hl. intros x [= <-]. apply Hp. unfold is_num_char. by rewrite Hc'.
Qed.

Lemma num_char_not_space c : is_num_char c = true → is_space c = false.
Proof. by_char c. Qed.

Lemma num_char_not_int_space c : is_num_char c = true → is_int_space c = false.
Proof. by_char c. Qed.

Lemma num_char_not_eol c : is_num_char c = true → is_eol c = false.
Proof. by_char c. Qed.

Lemma num_char_not_comma c : is_num_char c = true → is_char "," c = false.
Proof. by_char c. Qed.

Lemma num_char_not_equal c : is_num_char c = true → is_char "=" c = false.
Proof. by_char c. Qed.

Lemma digit_not_minus c : is_digit c = true → is_char "-" c = false.
Proof. by_char c. Qed.

Lemma digit_not_plus c : is_digit c = true → is_char "+" c = false.
Proof. by_char c. Qed.

(** [int(str(z)) == z] *)
Lemma py_int_py_str (z : Z) : py_int (py_str z) = Some z.
Proof.
  unfold py_int.
  destruct (py_str_head_last is_int_space z num_char_not_int_space)
    as (_ & Hh & Hl).
  rewrite strip_by_id by done.
  unfold py_str. destruct (decide (z < 0)) as [Hneg|Hpos].
  - change (is_char "-" "-") with true. cbn match.
    destruct (str_nat_spec (- z)) as (Hall & Hne & Hval); [lia|].
    rewrite int_digits_all_digits by done. rewrite Hval.
    cbn [fmap option_fmap option_map]. f_equal. lia.
  - destruct (str_nat_spec z) as (Hall & Hne & Hval); [lia|].
    destruct (str_nat z) as [|c s] eqn:Hs; [done|].
    assert (is_digit c = true) as Hc by (by inversion Hall).
    rewrite digit_not_minus, digit_not_plus by done.
    rewrite int_digits_all_digits by done. by rewrite Hval.
Qed.

(** [int(" " + str(z)) == z] *)
Lemma py_int_space_py_str (z : Z) : py_int (" "%char :: py_str z) = Some z.
Proof.
  pose proof (py_int_py_str z) as Hz. unfold py_int in *.
  destruct (py_str_head_last is_int_space z num_char_not_int_space)
    as (Hne & Hh & Hl).
  rewrite strip_by_cons_space by done.
  by rewrite strip_by_id in Hz by done.
Qed.

(** [(" " + str(z)).strip() == str(z)] *)
Lemma strip_space_py_str (z : Z) : strip (" "%char :: py_str z) = py_str z.
Proof.
  destruct (py_str_head_last is_space z num_char_not_space) as (Hne & Hh & Hl).
  unfold strip. by rewrite strip_by_cons_space.
Qed.

Lemma strip_py_str (z : Z) : strip (py_str z) = py_str z.
Proof.
  destruct (py_str_head_last is_space z num_char_not_space) as (Hne & Hh & Hl).
  unfold strip. by rewrite strip_by_id.
Qed.

Lemma isdigit_py_str (z : Z) : 0 ≤ z → isdigit (py_str z) = true.
Proof.
  intros Hz. destruct (py_str_nonneg z Hz) as [Hall Hne]. unfold isdigit.
  rewrite bool_decide_eq_true_2 by done. cbn [andb].
  apply forallb_forall. intros c Hc. apply digit_is_digit_char.
  rewrite Forall_forall in Hall. apply Hall. by apply list_elem_of_In.
Qed.

Lemma isdigit_lstrip_py_str (z : Z) :
  isdigit (lstrip_by (is_char "-") (py_str z)) = true.
Proof.
  assert (∀ n, 0 ≤ n → lstrip_by (is_char "-") (py_str n) = py_str n) as Hid.
  { intros n Hn. apply lstrip_by_id. intros c Hc.
    destruct (py_str_nonneg n Hn) as [Hall _]. apply digit_not_minus.
    destruct (py_str n) as [|x s]; [done|]. inversion Hc; subst.
    by inversion Hall. }
  destruct (decide (z < 0)) as [Hneg|Hpos].
  - assert (py_str z = "-"%char :: py_str (- z)) as ->.
    { unfold py_str. rewrite decide_True by done.
      by rewrite decide_False by lia. }
    cbn [lstrip_by]. change (is_char "-" "-") with true. cbn match.
    rewrite Hid by lia. apply isdigit_py_str. lia.
  - rewrite Hid by lia. apply isdigit_py_str. lia.
Qed.

Lemma split_by_none (p : ascii → bool) (s : str) :
  Forall (λ c, p c = false) s → split_by p s = [s].
Proof.
  induction 1 as [|c s Hc Hall IH]; [done|].
  cbn [split_by]. by rewrite Hc, IH.
Qed.

Lemma split_by_sep (p : ascii → bool) (a : str) (sep : ascii) (b : str) :
  Forall (λ c, p c = false) a → p sep = true →
  split_by p (a ++ sep :: b) = a :: split_by p b.
Proof.
  intros Hall Hsep. induction Hall as [|c s Hc Hall IH].
  - cbn [app split_by]. by rewrite Hsep.
  - rewrite <- app_comm_cons. cbn [split_by]. by rewrite Hc, IH.
Qed.

Lemma py_str_without (p : ascii → bool) (z : Z) :
  (∀ c, is_num_char c = true → p c = false) →
  Forall (λ c, p c = false) (py_str z).
Proof.
  intros Hp. eapply Forall_impl; [apply py_str_chars|]. done.
Qed.

(** ** Text: the lines of a written matrix *)

Lemma entry_line_body item : entry_line item = entry_body item ++ [LF].
Proof.
  destruct item as [[r c] v]. unfold entry_line, entry_body.
  cbn [lit list_ascii_of_string app].
  rewrite <- !app_assoc. cbn [app]. rewrite <- !app_assoc. reflexivity.
Qed.

Lemma entry_lines_bodies (items : list ((Z * Z) * Z)) :
  concat (entry_line <$> items)
  = concat ((λ l, l ++ [LF]) <$> (entry_body <$> items)).
Proof.
  induction items as [|item items IH]; [done|].
  rewrite !fmap_cons. cbn [concat]. by rewrite IH, entry_line_body.
Qed.

Lemma write_in_order_lines items m :
  write_in_order items m
  = concat ((λ l, l ++ [LF])
              <$> header "rows=" (rows m) :: header "cols=" (cols m)
                  :: (entry_body <$> items)).
Proof.
  unfold write_in_order. rewrite entry_lines_bodies, !fmap_cons.
  cbn [concat]. unfold header. by rewrite <- !app_assoc.
Qed.

Lemma split_eol_lines (ls : list str) :
  Forall (Forall (λ c, is_eol c = false)) ls →
  split_by is_eol (concat ((λ l, l ++ [LF]) <$> ls)) = ls ++ [[]].
Proof.
  induction 1 as [|l ls Hl Hls IH]; [done|].
  rewrite fmap_cons. cbn [concat]. rewrite <- app_assoc. cbn [app].
  rewrite split_by_sep by done. by rewrite IH.
Qed.

Lemma file_lines_clean (ls : list str) :
  Forall clean_line ls →
  file_lines (concat ((λ l, l ++ [LF]) <$> ls)) = ls.
Proof.
  intros Hall. unfold file_lines. rewrite split_eol_lines.
  2:{ eapply Forall_impl; [done|]. by intros l (? & _). }
  rewrite fmap_app, filter_app.
  change (filter (λ line : str, line ≠ []) (strip <$> [[]])) with (@nil str).
  rewrite app_nil_r.
  induction Hall as [|l ls (_ & Hs & Hne) Hall IH]; [done|].
  rewrite fmap_cons, filter_cons, Hs. rewrite decide_True by done.
  by rewrite IH.
Qed.

Lemma last_app_nonempty (a b : str) c : last b = Some c → last (a ++ b) = Some c.
Proof. intros Hb. rewrite last_app. by rewrite Hb. Qed.

Lemma header_clean (name : string) (z : Z) :
  Forall (λ c, is_eol c = false) (lit name) →
  (∀ c, head (lit name) = Some c → is_space c = false) →
  lit name ≠ [] →
  clean_line (header name z).
Proof.
  intros Hname Hhead Hne. unfold header.
  destruct (py_str_ends z) as (c & s & c' & Hs & Hc & Hl & Hc').
  split; [|split].
  - apply Forall_app. split; [done|]. apply py_str_without, num_char_not_eol.
  - apply strip_by_id.
    + destruct (lit name) as [|x l]; [done|]. apply Hhead.
    + intros x Hx. rewrite (last_app_nonempty _ _ c') in Hx by done.
      inversion Hx; subst. by apply digit_not_space.
  - intros Happ. by apply app_eq_nil in Happ as [? _].
Qed.

Lemma entry_body_clean item : clean_line (entry_body item).
Proof.
  destruct item as [[r c] v]. unfold entry_body. split; [|split].
  - constructor; [done|]. apply Forall_app. split; [|by repeat constructor].
    apply Forall_app. split; [apply py_str_without, num_char_not_eol|].
    do 2 (constructor; [done|]).
    apply Forall_app. split; [apply py_str_without, num_char_not_eol|].
    do 2 (constructor; [done|]).
    apply py_str_without, num_char_not_eol.
  - apply strip_by_id.
    + by intros x [= <-].
    + intros x Hx. rewrite app_comm_cons, last_snoc in Hx. by inversion Hx.
  - done.
Qed.

Lemma file_lines_write items m :
  file_lines (write_in_order items m)
  = header "rows=" (rows m) :: header "cols=" (cols m)
    :: (entry_body <$> items).
Proof.
  rewrite write_in_order_lines. apply file_lines_clean.
  constructor; [|constructor].
  - apply header_clean; [by repeat constructor| by intros c [= <-] | done].
  - apply header_clean; [by repeat constructor| by intros c [= <-] | done].
  - apply Forall_fmap, Forall_forall. intros item _. apply entry_body_clean.
Qed.

Lemma split_header (name : string) (z : Z) :
  Forall (λ c, is_char "=" c = false) (lit name) →
  split "=" (lit name ++ "="%char :: py_str z) = [lit name; py_str z].
Proof.
  intros Hname. unfold split. rewrite split_by_sep by done.
  by rewrite split_by_none by apply py_str_without, num_char_not_equal.
Qed.

Lemma split_rows_header z : split "=" (header "rows=" z) = [lit "rows"; py_str z].
Proof. apply (split_header "rows" z). by repeat constructor. Qed.

Lemma split_cols_header z : split "=" (header "cols=" z) = [lit "cols"; py_str z].
Proof. apply (split_header "cols" z). by repeat constructor. Qed.

Lemma entry_body_parens item :
  startswith "(" (entry_body item) = true
  ∧ endswith ")" (entry_body item) = true.
Proof.
  destruct item as [[r c] v]. unfold entry_body. split; [done|].
  unfold endswith. apply bool_decide_eq_true.
  by rewrite app_comm_cons, last_snoc.
Qed.

Lemma entry_body_fields r c v :
  split "," (slice_1_m1 (entry_body ((r, c), v)))
  = [py_str r; " "%char :: py_str c; " "%char :: py_str v].
Proof.
  unfold entry_body, slice_1_m1. cbn [tail].
  rewrite removelast_last. unfold split.
  rewrite split_by_sep;
    [|apply py_str_without, num_char_not_comma|done].
  f_equal. rewrite app_comm_cons.
  rewrite split_by_sep; [|by constructor;
    [|apply py_str_without, num_char_not_comma]|done].
  f_equal. rewrite split_by_none; [done|].
  constructor; [done|]. apply py_str_without, num_char_not_comma.
Qed.

(** ** Reading back what was written *)

Lemma assign_all_listing items d : listing items d → assign_all items ∅ = d.
Proof.
  intros Hl. rewrite <- (listing_to_map items d Hl).
  pose proof (listing_NoDup items d Hl) as Hnd. clear Hl.
  assert (∀ d0, assign_all items d0 = list_to_map items ∪ d0) as Hgen.
  { induction items as [|[k v] items IH]; intros d0.
    - cbn [assign_all foldl list_to_map foldr]. by rewrite (left_id_L ∅ (∪)).
    - rewrite fmap_cons in Hnd. apply NoDup_cons in Hnd as [Hk Hnd].
      unfold assign_all in *. cbn [foldl]. rewrite IH by done.
      cbn [list_to_map foldr fst snd].
      apply map_eq. intros k'.
      rewrite !lookup_union, !lookup_insert.
      destruct (decide (k = k')) as [->|Hne].
      + rewrite (not_elem_of_list_to_map_1 items k') by done.
        by destruct (d0 !! k').
      + done. }
  rewrite Hgen. by rewrite (right_id_L ∅ (∪)).
Qed.

Lemma Code_readFile_entry_body nr nc m0 r c v :
  r < nr → c < nc →
  Code.readFile_entry nr nc m0 (entry_body ((r, c), v))
  = Some (Code.setElement m0 r c v).
Proof.
  intros Hr Hc. unfold Code.readFile_entry.
  destruct (entry_body_parens ((r, c), v)) as [-> ->]. cbn [negb orb].
  rewrite entry_body_fields.
  rewrite py_int_py_str, !py_int_space_py_str. cbn [mbind option_bind].
  rewrite decide_False by lia. done.
Qed.

Lemma Integral_load_entry_body d r c v :
  0 ≤ r → 0 ≤ c →
  Integral.load_entry d (entry_body ((r, c), v)) = Some (<[(r, c) := v]> d).
Proof.
  intros Hr Hc. unfold Integral.load_entry.
  destruct (entry_body_parens ((r, c), v)) as [-> ->]. cbn [negb orb].
  rewrite entry_body_fields. cbn zeta.
  rewrite strip_py_str, !strip_space_py_str.
  rewrite !isdigit_py_str by done. cbn [negb orb].
  rewrite isdigit_lstrip_py_str. cbn [negb].
  by rewrite !py_int_py_str.
Qed.

Lemma Code_readFile_entries nr nc items m0 :
  rows m0 = nr → cols m0 = nc →
  (∀ r c v, ((r, c), v) ∈ items → r < nr ∧ c < nc ∧ v ≠ 0) →
  for_each_opt (Code.readFile_entry nr nc) (entry_body <$> items) m0
  = Some (mkSparseMatrix nr nc (assign_all items (data m0))).
Proof.
  revert m0. induction items as [|[[r c] v] items IH]; intros m0 Hr Hc Hall.
  - cbn [fmap list_fmap for_each_opt assign_all foldl].
    destruct m0; simpl in *; by subst.
  - rewrite fmap_cons. cbn [for_each_opt].
    destruct (Hall r c v) as (Hlr & Hlc & Hv); [left|].
    rewrite Code_readFile_entry_body by done. cbn [mbind option_bind].
    rewrite IH.
    + unfold assign_all. cbn [foldl fst snd].
      rewrite Code_setElement_data. by rewrite decide_False.
    + by rewrite Code_setElement_rows.
    + by rewrite Code_setElement_cols.
    + intros r' c' v' Hin. apply Hall. by right.
Qed.

Lemma Integral_load_entries items d :
  (∀ r c v, ((r, c), v) ∈ items → 0 ≤ r ∧ 0 ≤ c) →
  for_each_opt Integral.load_entry (entry_body <$> items) d
  = Some (assign_all items d).
Proof.
  revert d. induction items as [|[[r c] v] items IH]; intros d Hall.
  - done.
  - rewrite fmap_cons. cbn [for_each_opt].
    destruct (Hall r c v) as (Hr & Hc); [left|].
    rewrite (Integral_load_entry_body d r c v) by done. cbn [mbind option_bind].
    rewrite IH; [done|].
    intros r' c' v' Hin. apply (Hall r' c' v'). by right.
Qed.

Lemma Code_readFile_write items m :
  wf m → listing items (data m) →
  Code.readFile (write_in_order items m) = Ok m.
Proof.
  intros [Hk Hz] Hl. unfold Code.readFile. rewrite file_lines_write.
  rewrite decide_False by (cbn [length]; lia).
  cbn [lookup list_lookup fmap option_fmap option_map mbind option_bind].
  rewrite split_rows_header, split_cols_header.
  rewrite decide_False by (cbn [length]; intros [?|?]; done).
  cbn [lookup list_lookup mbind option_bind].
  rewrite !py_int_py_str. cbn [mbind option_bind drop]. rewrite drop_0.
  rewrite Code_readFile_entries; try done.
  - cbn [Code.init data try_except].
    rewrite (assign_all_listing items (data m)) by done. by destruct m.
  - intros r c v Hin. apply (listing_elem_of items (data m)) in Hin; [|done].
    pose proof (Hk r c v Hin) as [Hr Hc].
    split; [cbn; lia|]. split; [cbn; lia|].
    intros ->. by apply (Hz (r, c)).
Qed.

Lemma Integral_load_write items m :
  wf m → listing items (data m) →
  Integral.load_from_file (write_in_order items m) = Ok m.
Proof.
  intros [Hk Hz] Hl. unfold Integral.load_from_file.
  rewrite file_lines_write.
  cbn [lookup list_lookup mbind option_bind].
  rewrite split_rows_header, split_cols_header.
  cbn [lookup list_lookup mbind option_bind].
  rewrite !strip_py_str, !py_int_py_str. cbn [mbind option_bind drop].
  rewrite drop_0, Integral_load_entries.
  - cbn [mbind option_bind try_except]. rewrite Integral_init_eq.
    rewrite (assign_all_listing items (data m)) by done. by destruct m.
  - intros r c v Hin. apply (listing_elem_of items (data m)) in Hin; [|done].
    pose proof (Hk r c v Hin) as [Hr Hc]. lia.
Qed.

(** C6: round trip.  For a matrix that satisfies the invariants of the data
    model, the reader of each version, applied to the text its writer
    produces, returns the matrix itself: same [rows], same [cols], same
    dictionary.  This holds for every order in which the writer walks
    through the entries. *)
Theorem read_of_write_is_identity (m : SparseMatrix) :
  wf m →
  Code.readFile (Code.writeToFile m) = Ok m
  ∧ Integral.load_from_file (Integral.save_to_file m) = Ok m
  ∧ ∀ items, listing items (data m) →
      Code.readFile (Code.writeToFile_in_order items m) = Ok m
      ∧ Integral.load_from_file (Integral.save_to_file_in_order items m)
        = Ok m.
Proof.
  intros Hwf. split; [|split].
  - apply Code_readFile_write; [done|apply listing_map_to_list].
  - apply Integral_load_write; [done|apply listing_map_to_list].
  - intros items Hl. split.
    + by apply Code_readFile_write.
    + by apply Integral_load_write.
Qed.

Lemma read_of_write_is_identity_witness :
  let m := mkSparseMatrix 3 4 {[ (0, 1) := -12; (2, 3) := 1005 ]} in
  Code.writeToFile m
  = text_of_lines ["rows=3"; "cols=4"; "(0, 1, -12)"; "(2, 3, 1005)"]
  ∧ Code.readFile (Code.writeToFile m) = Ok m
  ∧ Integral.load_from_file (Integral.save_to_file m) = Ok m.
Proof.
  intros m.
  assert (wf m) as Hwf by (apply wf_check_wf; vm_compute; reflexivity).
  destruct (read_of_write_is_identity m Hwf) as (HC & HI & _).
  split; [vm_compute; reflexivity|]. split; [exact HC|exact HI].
Defined.

(** ** What the readers reject *)

Lemma for_each_opt_fails {A S : Type} (body : S → A → option S) (l : list A)
    (x : A) (s : S) :
  x ∈ l → (∀ s, body s x = None) → for_each_opt body l s = None.
Proof.
  intros Hx Hfail. revert s. induction l as [|y l IH]; intros s.
  - by apply elem_of_nil in Hx.
  - cbn [for_each_opt]. apply elem_of_cons in Hx as [->|Hx].
    + by rewrite Hfail.
    + destruct (body s y); [by apply IH|done].
Qed.

Lemma readFile_entry_outside (nr nc : Z) (m : SparseMatrix) (line : str)
    (row col value : Z) :
  entry_fields line = Some (row, col, value) →
  row >= nr ∨ col >= nc →
  Code.readFile_entry nr nc m line = None.
Proof.
  unfold entry_fields, Code.readFile_entry. intros Hf Hout.
  destruct (negb (startswith "(" line) || negb (endswith ")" line)); [done|].
  destruct (split "," (slice_1_m1 line)) as [|p1 [|p2 [|p3 [|? ?]]]]; try done.
  destruct (py_int p1) as [r|]; [|done].
  destruct (py_int p2) as [c|]; [|done].
  destruct (py_int p3) as [v|]; [|done].
  cbn [mbind option_bind] in *. inversion Hf; subst.
  by rewrite decide_True.
Qed.

(** The reader of [src/code] rejects every text with an entry line whose row
    or column is not below the declared shape. *)
Lemma Code_readFile_rejects_outside (text line : str) (nr nc row col value : Z) :
  declared_shape text = Some (nr, nc) →
  line ∈ drop 2 (file_lines text) →
  entry_fields line = Some (row, col, value) →
  row >= nr ∨ col >= nc →
  Code.readFile text = Err FormatError.
Proof.
  unfold declared_shape, Code.readFile. intros Hshape Hline Hf Hout.
  destruct (decide (length (file_lines text) < 2)%nat); [done|].
  destruct (file_lines text !! 0%nat) as [l0|]; [|done].
  destruct (file_lines text !! 1%nat) as [l1|]; [|done].
  cbn [fmap option_fmap option_map mbind option_bind] in *.
  destruct (decide _); [done|].
  destruct (split "=" l0 !! 1%nat) as [f0|]; [|done].
  cbn [mbind option_bind] in *.
  destruct (py_int f0) as [nr'|]; [|done].
  cbn [mbind option_bind] in *.
  destruct (split "=" l1 !! 1%nat) as [f1|]; [|done].
  cbn [mbind option_bind] in *.
  destruct (py_int f1) as [nc'|]; [|done].
  cbn [mbind option_bind] in *. inversion Hshape; subst nr' nc'.
  rewrite (for_each_opt_fails _ _ line); [done|done|].
  intros m. by apply (readFile_entry_outside nr nc m line row col value).
Qed.

(** C4, at the input of the specification.  The text declares one row and
    one column and holds the entry [(1,0,5)], whose row is not below the
    number of rows.  The reader of [src/code] rejects it, as it rejects every
    text with an entry outside the declared shape; the reader of
    [src/integral-file], which never compares a coordinate with the declared
    shape, returns a matrix that holds the entry. *)
Theorem integral_reader_accepts_entry_outside_shape :
  let text := text_of_lines ["rows=1"; "cols=1"; "(1,0,5)"] in
  Integral.load_from_file text = Ok (mkSparseMatrix 1 1 {[ (1, 0) := 5 ]})
  ∧ Code.readFile text = Err FormatError
  ∧ (∀ text line nr nc row col value,
       declared_shape text = Some (nr, nc) →
       line ∈ drop 2 (file_lines text) →
       entry_fields line = Some (row, col, value) →
       row >= nr ∨ col >= nc →
       Code.readFile text = Err FormatError).
Proof.
  split; [by vm_compute|]. split; [by vm_compute|].
  apply Code_readFile_rejects_outside.
Qed.

Lemma integral_reader_accepts_entry_outside_shape_witness :
  let text := text_of_lines ["rows=2"; "cols=2"; "(0, 0, 1)"; "(1, 2, 5)"] in
  declared_shape text = Some (2, 2)
  ∧ lit "(1, 2, 5)" ∈ drop 2 (file_lines text)
  ∧ entry_fields (lit "(1, 2, 5)") = Some (1, 2, 5)
  ∧ Code.readFile text = Err FormatError.
Proof.
  intros text.
  assert (declared_shape text = Some (2, 2)) as H1 by (by vm_compute).
  assert (lit "(1, 2, 5)" ∈ drop 2 (file_lines text)) as H2.
  { assert (drop 2 (file_lines text) = [lit "(0, 0, 1)"; lit "(1, 2, 5)"])
      as -> by (by vm_compute).
    right. left. }
  assert (entry_fields (lit "(1, 2, 5)") = Some (1, 2, 5)) as H3
    by (by vm_compute).
  split; [exact H1|]. split; [exact H2|]. split; [exact H3|].
  destruct integral_reader_accepts_entry_outside_shape as (_ & _ & Hall).
  apply (Hall text (lit "(1, 2, 5)") 2 2 1 2 5 H1 H2 H3). right. lia.
Defined.


Lemma digit_val_nonneg c : is_digit c = true → 0 ≤ digit_val c.
Proof. by_char c. Qed.

Lemma digit_char_not_minus c : is_digit_char c = true → is_char "-" c = false.
Proof. by_char c. Qed.

Lemma digit_char_not_plus c : is_digit_char c = true → is_char "+" c = false.
Proof. by_char c. Qed.

Lemma int_digits_nonneg (s : str) (acc : Z) (b : bool) (z : Z) :
  0 ≤ acc → int_digits acc b s = Some z → 0 ≤ z.
Proof.
  revert acc b. induction s as [|c s IH]; intros acc b Hacc.
  - cbn [int_digits]. destruct b; [|done]. by intros [= <-].
  - cbn [int_digits]. destruct (is_digit c) eqn:Hc.
    + apply IH. pose proof (digit_val_nonneg c Hc). lia.
    + destruct (is_char "_" c && b); [by apply IH|done].
Qed.

Lemma Forall_lstrip_by (P : ascii → Prop) (p : ascii → bool) (s : str) :
  Forall P s → Forall P (lstrip_by p s).
Proof.
  induction 1 as [|c s Hc Hs IH]; [done|].
  cbn [lstrip_by]. destruct (p c); [done|by constructor].
Qed.

Lemma Forall_strip_by (P : ascii → Prop) (p : ascii → bool) (s : str) :
  Forall P s → Forall P (strip_by p s).
Proof.
  intros Hs. unfold strip_by, rstrip_by.
  apply Forall_reverse, Forall_lstrip_by, Forall_reverse.
  by apply Forall_lstrip_by.
Qed.

(** [int] of a string [isdigit] accepts is not negative. *)
Lemma isdigit_py_int_nonneg (s : str) (z : Z) :
  isdigit s = true → py_int s = Some z → 0 ≤ z.
Proof.
  unfold isdigit, py_int. intros [_ Hall]%andb_prop.
  assert (Forall (λ c, is_digit_char c = true) s) as Hs.
  { apply Forall_forall. intros c Hc. rewrite forallb_forall in Hall.
    by apply Hall, list_elem_of_In. }
  apply (Forall_strip_by _ is_int_space) in Hs.
  destruct (strip_by is_int_space s) as [|c s']; [done|].
  assert (is_digit_char c = true) as Hc by (by inversion Hs).
  rewrite digit_char_not_minus, digit_char_not_plus by done.
  by apply int_digits_nonneg.
Qed.

Lemma load_entry_keys_nonneg (d d' : gmap (Z * Z) Z) (line : str) :
  keys_nonneg d → Integral.load_entry d line = Some d' → keys_nonneg d'.
Proof.
  intros Hd. unfold Integral.load_entry.
  destruct (negb (startswith "(" line) || negb (endswith ")" line)); [done|].
  destruct (split "," (slice_1_m1 line)) as [|e1 [|e2 [|e3 [|? ?]]]]; try done.
  cbn zeta.
  destruct (isdigit (strip e1)) eqn:H1; [|done].
  destruct (isdigit (strip e2)) eqn:H2; [|done].
  cbn [negb orb].
  destruct (negb (isdigit (lstrip_by (is_char "-") (strip e3)))); [done|].
  destruct (py_int (strip e3)) as [v|]; [|done].
  destruct (py_int (strip e1)) as [r|] eqn:Hr; [|done].
  destruct (py_int (strip e2)) as [c|] eqn:Hc; [|done].
  cbn [mbind option_bind]. intros [= <-] r' c' v'.
  rewrite lookup_insert. destruct (decide ((r, c) = (r', c'))) as [Heq|_].
  - inversion Heq; subst. intros _. split.
    + by apply (isdigit_py_int_nonneg (strip e1)).
    + by apply (isdigit_py_int_nonneg (strip e2)).
  - apply Hd.
Qed.

Lemma load_entries_keys_nonneg (lines : list str) (d d' : gmap (Z * Z) Z) :
  keys_nonneg d → for_each_opt Integral.load_entry lines d = Some d' →
  keys_nonneg d'.
Proof.
  revert d. induction lines as [|line lines IH]; intros d Hd.
  - by intros [= <-].
  - cbn [for_each_opt].
    destruct (Integral.load_entry d line) as [d1|] eqn:H1; [|done].
    cbn [mbind option_bind]. apply IH.
    by apply (load_entry_keys_nonneg d d1 line).
Qed.

(** The reader of [src/integral-file] builds no matrix with a negative key. *)
Lemma Integral_load_keys_nonneg (text : str) (m : SparseMatrix) :
  Integral.load_from_file text = Ok m → keys_nonneg (data m).
Proof.
  unfold Integral.load_from_file.
  destruct (file_lines text !! 0%nat) as [l0|]; [|done].
  cbn [mbind option_bind].
  destruct (split "=" l0 !! 1%nat) as [f0|]; [|done].
  cbn [mbind option_bind].
  destruct (py_int (strip f0)) as [nr|]; [|done].
  cbn [mbind option_bind].
  destruct (file_lines text !! 1%nat) as [l1|]; [|done].
  cbn [mbind option_bind].
  destruct (split "=" l1 !! 1%nat) as [f1|]; [|done].
  cbn [mbind option_bind].
  destruct (py_int (strip f1)) as [nc|]; [|done].
  cbn [mbind option_bind].
  destruct (for_each_opt _ _ _) as [d|] eqn:Hloop; [|done].
  cbn [mbind option_bind try_except]. intros [= <-].
  rewrite Integral_init_eq. cbn [data].
  apply (load_entries_keys_nonneg (drop 2 (file_lines text)) ∅ d); [|done].
  intros r c v Hv. by rewrite lookup_empty in Hv.
Qed.

(** C8, at the input of the claim.  The text declares one row and one
    column and holds the entry [(-1, 0, 5)].  The reader of [src/code] reads
    the row with [int], compares it with the upper bound only, and returns a
    matrix whose key [(-1, 0)] is negative.  The reader of
    [src/integral-file] rejects the text, since [isdigit] refuses the sign,
    and never returns a matrix with a negative key. *)
Theorem code_reader_accepts_negative_row :
  let text := text_of_lines ["rows=1"; "cols=1"; "(-1, 0, 5)"] in
  Code.readFile text = Ok (mkSparseMatrix 1 1 {[ (-1, 0) := 5 ]})
  ∧ Integral.load_from_file text = Err FormatError
  ∧ (∀ text m, Integral.load_from_file text = Ok m →
       ∀ r c v, data m !! (r, c) = Some v → 0 ≤ r ∧ 0 ≤ c).
Proof.
  split; [by vm_compute|]. split; [by vm_compute|].
  intros text m Hm. exact (Integral_load_keys_nonneg text m Hm).
Qed.

Lemma code_reader_accepts_negative_row_witness :
  let text := text_of_lines ["rows=2"; "cols=2"; "(1, 0, 5)"] in
  let m := mkSparseMatrix 2 2 {[ (1, 0) := 5 ]} in
  Integral.load_from_file text = Ok m
  ∧ data m !! (1, 0) = Some 5
  ∧ 0 ≤ 1 ∧ 0 ≤ 0.
Proof.
  intros text m.
  assert (Integral.load_from_file text = Ok m) as Hm by (by vm_compute).
  assert (data m !! (1, 0) = Some 5) as Hv by reflexivity.
  split; [exact Hm|]. split; [exact Hv|].
  destruct code_reader_accepts_negative_row as (_ & _ & Hall).
  exact (Hall text m Hm 1 0 5 Hv).
Defined.

(** ** The matrices the operations build *)

Lemma merged_Some (op : Z → Z → Z) (A B : SparseMatrix) k v :
  merged op A B k = Some v →
  (is_Some (data A !! k) ∨ is_Some (data B !! k)) ∧ v ≠ 0.
Proof.
  unfold merged, elide. intros Hv. repeat case_decide; try done.
  split; [done|]. congruence.
Qed.

Lemma merged_raw_Some (op : Z → Z → Z) (A B : SparseMatrix) k v :
  merged_raw op A B k = Some v →
  is_Some (data A !! k) ∨ is_Some (data B !! k).
Proof.
  unfold merged_raw. destruct (data B !! k) as [b|].
  - intros _. right. by eexists.
  - intros Hv. left. by eexists.
Qed.

(** What a call that returns tells of its operands and of its result *)
Lemma Code_add_inv (A B C : SparseMatrix) :
  Code.add A B = Ok C →
  rows A = rows B ∧ cols A = cols B ∧ rows C = rows A ∧ cols C = cols A
  ∧ ∀ k, data C !! k = merged Z.add A B k.
Proof.
  intros Hop. unfold Code.add in Hop.
  destruct (decide (rows A ≠ rows B ∨ cols A ≠ cols B)) as [Hne|Heq].
  { unfold Code.add_in_order in Hop. by rewrite decide_True in Hop. }
  assert (rows A = rows B ∧ cols A = cols B) as [Hr Hc] by lia.
  rewrite Code_add_in_order_eq in Hop by done. injection Hop as <-.
  split; [done|]. split; [done|].
  rewrite (proj1 (loop_other_shape _ _ _ _)), (proj2 (loop_other_shape _ _ _ _)).
  rewrite (proj1 (loop_self_shape _ _ _ _)), (proj2 (loop_self_shape _ _ _ _)).
  split; [done|]. split; [done|].
  apply Code_add_lookup; apply listing_map_to_list.
Qed.

Lemma Code_subtract_inv (A B C : SparseMatrix) :
  Code.subtract A B = Ok C →
  rows A = rows B ∧ cols A = cols B ∧ rows C = rows A ∧ cols C = cols A
  ∧ ∀ k, data C !! k = merged Z.sub A B k.
Proof.
  intros Hop. unfold Code.subtract in Hop.
  destruct (decide (rows A ≠ rows B ∨ cols A ≠ cols B)) as [Hne|Heq].
  { unfold Code.subtract_in_order in Hop. by rewrite decide_True in Hop. }
  assert (rows A = rows B ∧ cols A = cols B) as [Hr Hc] by lia.
  rewrite Code_subtract_in_order_eq in Hop by done. injection Hop as <-.
  split; [done|]. split; [done|].
  rewrite (proj1 (loop_other_shape _ _ _ _)), (proj2 (loop_other_shape _ _ _ _)).
  rewrite (proj1 (loop_self_shape _ _ _ _)), (proj2 (loop_self_shape _ _ _ _)).
  split; [done|]. split; [done|].
  apply Code_subtract_lookup; apply listing_map_to_list.
Qed.

Lemma Code_multiply_inv (A B C : SparseMatrix) :
  Code.multiply A B = Ok C → C = dense_product A B.
Proof.
  intros Hop. destruct (decide (cols A = rows B)) as [Hd|Hd].
  - rewrite Code_multiply_eq in Hop by done. by injection Hop as <-.
  - unfold Code.multiply in Hop. by rewrite decide_True in Hop.
Qed.

Lemma Integral_add_inv (A B C : SparseMatrix) :
  Integral.add A B = Ok C →
  rows A = rows B ∧ cols A = cols B ∧ rows C = rows A ∧ cols C = cols A
  ∧ ∀ k, data C !! k = merged_raw Z.add A B k.
Proof.
  intros Hop. unfold Integral.add in Hop.
  destruct (decide (rows A ≠ rows B ∨ cols A ≠ cols B)) as [Hne|Heq].
  { unfold Integral.add_in_order in Hop. by rewrite decide_True in Hop. }
  assert (rows A = rows B ∧ cols A = cols B) as [Hr Hc] by lia.
  rewrite Integral_add_in_order_eq in Hop by done. injection Hop as <-.
  split; [done|]. split; [done|]. split; [done|]. split; [done|].
  intros k. cbn [data]. unfold merged_raw.
  rewrite merge_loop_lookup by apply NoDup_fst_map_to_list.
  by rewrite list_to_map_to_list.
Qed.

Lemma Integral_subtract_inv (A B C : SparseMatrix) :
  Integral.subtract A B = Ok C →
  rows A = rows B ∧ cols A = cols B ∧ rows C = rows A ∧ cols C = cols A
  ∧ ∀ k, data C !! k = merged_raw Z.sub A B k.
Proof.
  intros Hop. unfold Integral.subtract in Hop.
  destruct (decide (rows A ≠ rows B ∨ cols A ≠ cols B)) as [Hne|Heq].
  { unfold Integral.subtract_in_order in Hop. by rewrite decide_True in Hop. }
  assert (rows A = rows B ∧ cols A = cols B) as [Hr Hc] by lia.
  rewrite Integral_subtract_in_order_eq in Hop by done. injection Hop as <-.
  split; [done|]. split; [done|]. split; [done|]. split; [done|].
  intros k. cbn [data]. unfold merged_raw.
  rewrite merge_loop_lookup by apply NoDup_fst_map_to_list.
  by rewrite list_to_map_to_list.
Qed.

(** [src/code] stores no zero, whatever the operations and the coordinates:
    every value goes through [setElement]. *)
Lemma Code_reachable_no_zero parse coordinate (m : SparseMatrix) :
  Code_reachable parse coordinate m → no_stored_zero m.
Proof.
  induction 1 as [r c|text m _ Hread|m r c v _ IH _|A B C _ _ _ _ Hop
                  |A B C _ _ _ _ Hop|A B C _ _ _ _ Hop].
  - intros k. cbn [Code.init data]. by rewrite lookup_empty.
  - intros [r c] Hv. by apply (Code_readFile_below text m Hread) in Hv
      as (_ & _ & Hv).
  - intros k. rewrite Code_setElement_lookup.
    repeat case_decide; first [done | congruence | apply IH].
  - apply Code_add_inv in Hop as (_ & _ & _ & _ & HL).
    intros k Hk. rewrite HL in Hk. by apply merged_Some in Hk as [_ Hk].
  - apply Code_subtract_inv in Hop as (_ & _ & _ & _ & HL).
    intros k Hk. rewrite HL in Hk. by apply merged_Some in Hk as [_ Hk].
  - apply Code_multiply_inv in Hop as ->. apply wf_dense_product.
Qed.

Section code_keys.

(** The operations, and a property [K] of a coordinate with respect to a
    shape that the coordinates given to [setElement], the coordinates
    inside the shape and the keys of the matrices read all have. *)
Variable parse : bool.
Variable coordinate : SparseMatrix → Z → Z → Prop.
Variable K : Z → Z → Z → Z → Prop.
Hypothesis K_inside : ∀ nr nc r c, 0 ≤ r < nr → 0 ≤ c < nc → K nr nc r c.
Hypothesis K_set : ∀ m r c, coordinate m r c → K (rows m) (cols m) r c.
Hypothesis K_read : ∀ text m r c v,
  parse = true → Code.readFile text = Ok m → data m !! (r, c) = Some v →
  K (rows m) (cols m) r c.

Lemma Code_reachable_keys (m : SparseMatrix) :
  Code_reachable parse coordinate m →
  ∀ r c v, data m !! (r, c) = Some v → K (rows m) (cols m) r c.
Proof.
  induction 1 as [nr nc|text m Hp Hread|m r c v _ IH Hrc|A B C _ IHA _ IHB Hop
                  |A B C _ IHA _ IHB Hop|A B C _ _ _ _ Hop]; intros i j x Hx.
  - cbn [Code.init data] in Hx. by rewrite lookup_empty in Hx.
  - by apply (K_read text m i j x).
  - rewrite Code_setElement_rows, Code_setElement_cols.
    rewrite Code_setElement_lookup in Hx.
    destruct (decide ((r, c) = (i, j))) as [[= <- <-]|_].
    + by apply K_set.
    + by apply (IH i j x).
  - apply Code_add_inv in Hop as (Hr & Hc & -> & -> & HL).
    rewrite HL in Hx. apply merged_Some in Hx as [[[a Ha]|[b Hb]] _].
    + by apply (IHA i j a).
    + rewrite Hr, Hc. by apply (IHB i j b).
  - apply Code_subtract_inv in Hop as (Hr & Hc & -> & -> & HL).
    rewrite HL in Hx. apply merged_Some in Hx as [[[a Ha]|[b Hb]] _].
    + by apply (IHA i j a).
    + rewrite Hr, Hc. by apply (IHB i j b).
  - apply Code_multiply_inv in Hop as ->.
    destruct (wf_dense_product A B) as [Hk _].
    apply Hk in Hx as [Hi Hj]. by apply K_inside.
Qed.

End code_keys.

Lemma Code_reachable_below parse coordinate (m : SparseMatrix) :
  (∀ m' r c, coordinate m' r c → below_bounds m' r c) →
  Code_reachable parse coordinate m → keys_below m.
Proof.
  intros Hco Hm r c v Hv.
  refine (Code_reachable_keys parse coordinate
            (λ nr nc r c, r < nr ∧ c < nc) _ _ _ m Hm r c v Hv).
  - intros nr nc r' c' Hr' Hc'. lia.
  - intros m' r' c' Hrc. by apply Hco.
  - intros text m' r' c' v' _ Hread Hv'.
    by apply (Code_readFile_below text m' Hread) in Hv' as (? & ? & _).
Qed.

Lemma Code_reachable_in_bounds coordinate (m : SparseMatrix) :
  (∀ m' r c, coordinate m' r c → in_bounds m' r c) →
  Code_reachable false coordinate m → keys_in_bounds m.
Proof.
  intros Hco Hm r c v Hv.
  refine (Code_reachable_keys false coordinate
            (λ nr nc r c, 0 ≤ r < nr ∧ 0 ≤ c < nc) _ _ _ m Hm r c v Hv).
  - done.
  - intros m' r' c' Hrc. by apply Hco.
  - done.
Qed.

(** Without its reader [src/integral-file] keeps both invariants. *)
Lemma Integral_reachable_wf (m : SparseMatrix) :
  Integral_reachable false m → wf m.
Proof.
  induction 1 as [r c|text m Hp _|m r c v m' _ IH Hset|A B C _ IHA _ IHB Hop
                  |A B C _ IHA _ IHB Hop|A B C _ IHA _ IHB Hop].
  - rewrite Integral_init_eq. apply wf_empty.
  - done.
  - destruct (decide (Integral.out_of_bounds m r c)) as [Ho|Hin].
    { by rewrite Integral_setElement_out in Hset. }
    assert (in_bounds m r c) as Hin'.
    { destruct (decide (in_bounds m r c)) as [|Hn]; [done|].
      by apply out_of_bounds_iff in Hn. }
    destruct (Integral_setElement_in m r c v Hin') as (m1 & H1 & Hr & Hc & Hd).
    rewrite H1 in Hset. inversion Hset; subst m1.
    by apply (wf_set m m' r c v).
  - unfold Integral.add in Hop.
    destruct (decide (rows A ≠ rows B ∨ cols A ≠ cols B)) as [Hne|Heq].
    { unfold Integral.add_in_order in Hop. by rewrite decide_True in Hop. }
    assert (rows A = rows B ∧ cols A = cols B) as [Hr Hc] by lia.
    rewrite Integral_add_in_order_eq in Hop by done. inversion Hop as [HC].
    apply (wf_merged Z.add A B); try done.
    apply Integral_add_lookup; [apply IHA|apply IHB|apply listing_map_to_list].
  - unfold Integral.subtract in Hop.
    destruct (decide (rows A ≠ rows B ∨ cols A ≠ cols B)) as [Hne|Heq].
    { unfold Integral.subtract_in_order in Hop.
      by rewrite decide_True in Hop. }
    assert (rows A = rows B ∧ cols A = cols B) as [Hr Hc] by lia.
    rewrite Integral_subtract_in_order_eq in Hop by done.
    inversion Hop as [HC].
    apply (wf_merged Z.sub A B); try done.
    apply Integral_subtract_lookup;
      [apply IHA|apply IHB|apply listing_map_to_list].
  - destruct (decide (cols A = rows B)) as [Hd|Hd].
    + unfold Integral.multiply in Hop.
      rewrite products_agree in Hop;
        [|apply IHA|done|apply listing_map_to_list].
      rewrite Code_multiply_eq in Hop by done. injection Hop as <-.
      apply wf_dense_product.
    + unfold Integral.multiply, Integral.multiply_in_order in Hop.
      by rewrite decide_True in Hop.
Qed.

(** The keys the loops of [multiply] of [src/integral-file] make *)
Lemma multiply_step_keys (B : SparseMatrix) (i k v : Z) rd (j : Z) rd' key :
  Integral.multiply_step B i k v rd j = Ok rd' →
  is_Some (rd' !! key) → is_Some (rd !! key) ∨ key = (i, j).
Proof.
  unfold Integral.multiply_step.
  destruct (Integral.getElement B k j) as [val2|e]; [|done].
  cbn [mbind result_bind]. cbn zeta.
  destruct (decide (val2 ≠ 0)); [|by intros [= <-]; left].
  destruct (decide ((i, j) = key)) as [<-|Hne]; [by right|].
  destruct (decide _); intros [= <-];
    rewrite ?lookup_delete_ne, lookup_insert_ne by done; by left.
Qed.

Lemma multiply_steps_keys (B : SparseMatrix) (i k v : Z) (js : list Z)
    rd rd' key :
  for_each (Integral.multiply_step B i k v) js rd = Ok rd' →
  is_Some (rd' !! key) → is_Some (rd !! key) ∨ (key.1 = i ∧ key.2 ∈ js).
Proof.
  revert rd. induction js as [|j js IH]; intros rd.
  - intros [= <-]. by left.
  - rewrite for_each_cons.
    destruct (Integral.multiply_step B i k v rd j) as [rd1|e] eqn:H1; [|done].
    cbn [mbind result_bind]. intros Hrun Hkey.
    destruct (IH rd1 Hrun Hkey) as [H1'|[Hi Hj]].
    + destruct (multiply_step_keys B i k v rd j rd1 key H1 H1') as [? | ->].
      * by left.
      * right. split; [done|left].
    + right. split; [done|by right].
Qed.

Lemma multiply_entries_keys (B : SparseMatrix) (n : Z)
    (items : list ((Z * Z) * Z)) rd rd' key :
  for_each (Integral.multiply_entry B n) items rd = Ok rd' →
  is_Some (rd' !! key) →
  is_Some (rd !! key)
  ∨ ((∃ k v, ((key.1, k), v) ∈ items) ∧ key.2 ∈ range n).
Proof.
  revert rd. induction items as [|[[i k] v] items IH]; intros rd.
  - intros [= <-]. by left.
  - rewrite for_each_cons.
    destruct (Integral.multiply_entry B n rd (i, k, v)) as [rd1|e] eqn:H1;
      [|done].
    cbn [mbind result_bind]. intros Hrun Hkey.
    destruct (IH rd1 Hrun Hkey) as [H1'|[(k' & v' & Hin) Hj]].
    + unfold Integral.multiply_entry in H1.
      destruct (multiply_steps_keys B i k v (range n) rd rd1 key H1 H1')
        as [?|[<- Hj]].
      * by left.
      * right. split; [|done]. exists k, v. left.
    + right. split; [|done]. exists k', v'. by right.
Qed.

Lemma Integral_multiply_keys (A B C : SparseMatrix) (i j v : Z) :
  Integral.multiply A B = Ok C → data C !! (i, j) = Some v →
  (∃ k a, data A !! (i, k) = Some a) ∧ 0 ≤ j < cols B.
Proof.
  unfold Integral.multiply, Integral.multiply_in_order.
  destruct (decide (cols A ≠ rows B)); [done|]. cbn zeta.
  destruct (for_each _ _ _) as [rd|e] eqn:Hrun; [|done].
  cbn [mbind result_bind]. rewrite Integral_init_eq. intros [= <-] Hv.
  cbn [data] in Hv.
  destruct (multiply_entries_keys B (cols B) _ ∅ rd (i, j) Hrun)
    as [[? Hx]|[(k & a & Hin) Hj]]; [by eexists| |].
  - by rewrite lookup_empty in Hx.
  - cbn [fst snd] in *. split; [|by apply elem_of_range].
    exists k, a. by apply elem_of_map_to_list.
Qed.

(** With its reader [src/integral-file] still makes no negative key. *)
Lemma Integral_reachable_nonneg parse (m : SparseMatrix) :
  Integral_reachable parse m → keys_nonneg (data m).
Proof.
  induction 1 as [r c|text m _ Hload|m r c v m' _ IH Hset|A B C _ IHA _ IHB Hop
                  |A B C _ IHA _ IHB Hop|A B C _ IHA _ IHB Hop];
    intros i j x Hx.
  - rewrite Integral_init_eq in Hx. cbn [data] in Hx.
    by rewrite lookup_empty in Hx.
  - by apply (Integral_load_keys_nonneg text m Hload i j x).
  - destruct (decide (Integral.out_of_bounds m r c)) as [Ho|Hin].
    { by rewrite Integral_setElement_out in Hset. }
    assert (in_bounds m r c) as Hin'.
    { destruct (decide (in_bounds m r c)) as [|Hn]; [done|].
      by apply out_of_bounds_iff in Hn. }
    destruct (Integral_setElement_in m r c v Hin') as (m1 & H1 & _ & _ & Hd).
    rewrite H1 in Hset. injection Hset as <-. rewrite Hd in Hx.
    destruct (decide (v = 0)).
    + apply lookup_delete_Some in Hx as [_ Hx]. by apply (IH i j x).
    + apply lookup_insert_Some in Hx as [[[= <- <-] _]|[_ Hx]].
      * unfold in_bounds in Hin'. lia.
      * by apply (IH i j x).
  - apply Integral_add_inv in Hop as (_ & _ & _ & _ & HL).
    rewrite HL in Hx. apply merged_raw_Some in Hx as [[a Ha]|[b Hb]].
    + by apply (IHA i j a).
    + by apply (IHB i j b).
  - apply Integral_subtract_inv in Hop as (_ & _ & _ & _ & HL).
    rewrite HL in Hx. apply merged_raw_Some in Hx as [[a Ha]|[b Hb]].
    + by apply (IHA i j a).
    + by apply (IHB i j b).
  - apply (Integral_multiply_keys A B C i j x Hop) in Hx
      as [(k & a & Ha) Hj].
    apply IHA in Ha. lia.
Qed.

(** C3, as the code has it.  In [src/code], every matrix the public
    operations build (empty matrices, the matrices [readFile] returns,
    [setElement] at any coordinate, [add], [subtract], [multiply]) stores
    no zero; when [setElement] is given coordinates below the shape only,
    every key is below the shape; and when moreover no matrix comes from
    [readFile] and [setElement] is given coordinates inside the shape only,
    both invariants hold.  In [src/integral-file], every matrix built from
    empty matrices by [setElement], [add], [subtract] and [multiply]
    satisfies both invariants, and with the matrices [load_from_file]
    returns among them still no key is negative. *)
Theorem reachable_matrices_satisfy_invariants :
  (∀ parse coordinate m,
     Code_reachable parse coordinate m → no_stored_zero m)
  ∧ (∀ parse coordinate m,
       (∀ m' r c, coordinate m' r c → below_bounds m' r c) →
       Code_reachable parse coordinate m →
       ∀ r c v, data m !! (r, c) = Some v → r < rows m ∧ c < cols m)
  ∧ (∀ coordinate m,
       (∀ m' r c, coordinate m' r c → in_bounds m' r c) →
       Code_reachable false coordinate m → wf m)
  ∧ (∀ m, Integral_reachable false m → wf m)
  ∧ (∀ parse m, Integral_reachable parse m →
       ∀ r c v, data m !! (r, c) = Some v → 0 ≤ r ∧ 0 ≤ c).
Proof.
  split; [|split; [|split; [|split]]].
  - apply Code_reachable_no_zero.
  - intros parse coordinate m Hco Hm.
    by apply (Code_reachable_below parse coordinate).
  - intros coordinate m Hco Hm. split.
    + by apply (Code_reachable_in_bounds coordinate).
    + by apply (Code_reachable_no_zero false coordinate).
  - apply Integral_reachable_wf.
  - intros parse m Hm. by apply (Integral_reachable_nonneg parse).
Qed.

Lemma reachable_matrices_satisfy_invariants_witness :
  let text := text_of_lines ["rows=2"; "cols=2"; "(1, 0, 4)"; "(0, 1, 0)"] in
  let m := mkSparseMatrix 2 2 {[ (1, 0) := 4 ]} in
  let S := mkSparseMatrix 2 2 {[ (1, 0) := 8 ]} in
  let T := mkSparseMatrix 2 2 {[ (-1, 0) := 3; (1, 0) := 8 ]} in
  let L := mkSparseMatrix 2 2 {[ (1, 0) := 4; (0, 1) := 0 ]} in
  Code.readFile text = Ok m
  ∧ (Code.add (Code.setElement m 7 7 0) m = Ok S ∧ no_stored_zero S)
  ∧ (Code.add (Code.setElement m (-1) 0 3) m = Ok T
     ∧ ∀ r c v, data T !! (r, c) = Some v → r < rows T ∧ c < cols T)
  ∧ wf (Code.setElement (Code.init 2 2) 1 1 5)
  ∧ wf (mkSparseMatrix 2 2 {[ (1, 1) := 5 ]})
  ∧ (Integral.load_from_file text = Ok L
     ∧ ∀ r c v, data L !! (r, c) = Some v → 0 ≤ r ∧ 0 ≤ c).
Proof.
  intros text m S T L.
  destruct reachable_matrices_satisfy_invariants as (HZ & HB & HC & HI & HN).
  assert (Code.readFile text = Ok m) as Hm by (vm_compute; reflexivity).
  assert (Code.add (Code.setElement m 7 7 0) m = Ok S) as HS
    by (vm_compute; reflexivity).
  assert (Code.add (Code.setElement m (-1) 0 3) m = Ok T) as HT
    by (vm_compute; reflexivity).
  assert (Integral.load_from_file text = Ok L) as HL
    by (vm_compute; reflexivity).
  split; [exact Hm|]. split; [|split; [|split; [|split]]].
  - split; [exact HS|]. apply (HZ true any_coordinate).
    assert (Code_reachable true any_coordinate m) as Hr
      by (by apply (Code_reach_read _ _ text)).
    apply (Code_reach_add _ _ (Code.setElement m 7 7 0) m); [|done|done].
    by apply Code_reach_set.
  - split; [exact HT|]. apply (HB true below_bounds); [done|].
    assert (Code_reachable true below_bounds m) as Hr
      by (by apply (Code_reach_read _ _ text)).
    apply (Code_reach_add _ _ (Code.setElement m (-1) 0 3) m); [|done|done].
    apply Code_reach_set; [done|]. unfold below_bounds. cbn. lia.
  - apply (HC in_bounds); [done|]. apply Code_reach_set.
    + apply Code_reach_init.
    + unfold in_bounds. cbn. lia.
  - apply HI.
    apply (Integral_reach_set _ (Integral.init 2 2 ∅) 1 1 5).
    + apply Integral_reach_init.
    + vm_compute. reflexivity.
  - split; [exact HL|]. apply (HN true L).
    by apply (Integral_reach_load _ text).
Defined.

(** C3 as stated fails.  In [src/code], [setElement] stores a value outside
    the shape of an empty 1 x 1 matrix, and the reader stores the negative
    row of the line [(-1, 0, 5)].  In [src/integral-file], the reader
    stores the zero of the line [(0, 0, 0)] and the coordinate of the line
    [(1,0,5)], which is outside the declared shape. *)
Lemma invariants_can_be_broken :
  ¬ wf (Code.setElement (Code.init 1 1) 5 5 7)
  ∧ (∃ m, Code.readFile
            (text_of_lines ["rows=1"; "cols=1"; "(-1, 0, 5)"]) = Ok m
          ∧ ¬ wf m)
  ∧ (∃ m, Integral.load_from_file
            (text_of_lines ["rows=1"; "cols=1"; "(0, 0, 0)"]) = Ok m
          ∧ ¬ wf m)
  ∧ (∃ m, Integral.load_from_file
            (text_of_lines ["rows=1"; "cols=1"; "(1,0,5)"]) = Ok m
          ∧ ¬ wf m).
Proof.
  split; [|split; [|split]].
  - intros [Hk _]. specialize (Hk 5 5 7 eq_refl).
    unfold in_bounds in Hk. simpl in Hk. lia.
  - exists (mkSparseMatrix 1 1 {[ (-1, 0) := 5 ]}). split.
    + vm_compute. reflexivity.
    + intros [Hk _]. specialize (Hk (-1) 0 5 eq_refl).
      unfold in_bounds in Hk. simpl in Hk. lia.
  - exists (mkSparseMatrix 1 1 {[ (0, 0) := 0 ]}). split.
    + vm_compute. reflexivity.
    + intros [_ Hz]. by apply (Hz (0, 0)).
  - exists (mkSparseMatrix 1 1 {[ (1, 0) := 5 ]}). split.
    + vm_compute. reflexivity.
    + intros [Hk _]. specialize (Hk 1 0 5 eq_refl).
      unfold in_bounds in Hk. simpl in Hk. lia.
Qed.

(** ** What a call leaves untouched *)

Lemma untouched_matrix_at (h h' : Store.heap) (x : Store.loc) m :
  untouched h h' → Store.matrix_at h x = Some m → Store.matrix_at h' x = Some m.
Proof.
  intros Hu. unfold Store.matrix_at.
  destruct (h !! x) as [[d|r c dl]|] eqn:Hx; try done.
  destruct (h !! dl) as [[d|r' c' dl']|] eqn:Hd; try done.
  intros [= <-]. by rewrite (Hu x _ Hx), (Hu dl _ Hd).
Qed.

Section frame.

Import Store.

(** The store at the call. *)
Variable h0 : heap.

Lemma keeps_bind {A B : Type} (I : heap → Prop) (m : M A) (k : A → M B) :
  keeps I m → (∀ a, keeps I (k a)) → keeps I (m ≫= k).
Proof.
  intros Hm Hk h HI. unfold mbind, M_bind. specialize (Hm h HI).
  destruct (m h) as [[a|e] h']; [|done]. by apply Hk.
Qed.

Lemma keeps_read_only {A : Type} (I : heap → Prop) (m : M A) :
  read_only m → keeps I m.
Proof. intros Hm h HI. by rewrite Hm. Qed.

Lemma read_only_ret {A : Type} (a : A) : read_only (mret a : M A).
Proof. done. Qed.

Lemma read_only_skip : read_only skip.
Proof. done. Qed.

Lemma read_only_raise {A : Type} (e : exn) : read_only (raise e : M A).
Proof. done. Qed.

Lemma read_only_bind {A B : Type} (m : M A) (k : A → M B) :
  read_only m → (∀ a, read_only (k a)) → read_only (m ≫= k).
Proof.
  intros Hm Hk h. unfold mbind, M_bind. specialize (Hm h).
  destruct (m h) as [[a|e] h']; simpl in *; subst; [apply Hk|done].
Qed.

Lemma read_only_read_dict l : read_only (read_dict l).
Proof. intros h. unfold read_dict. by destruct (h !! l) as [[]|]. Qed.

Lemma read_only_attr_rows m : read_only (attr_rows m).
Proof. intros h. unfold attr_rows. by destruct (h !! m) as [[]|]. Qed.

Lemma read_only_attr_cols m : read_only (attr_cols m).
Proof. intros h. unfold attr_cols. by destruct (h !! m) as [[]|]. Qed.

Lemma read_only_attr_data m : read_only (attr_data m).
Proof. intros h. unfold attr_data. by destruct (h !! m) as [[]|]. Qed.

Lemma read_only_dict_getitem l k : read_only (dict_getitem l k).
Proof.
  apply read_only_bind; [apply read_only_read_dict|].
  intros d. by destruct (d !! k).
Qed.

Lemma read_only_dict_get l k : read_only (dict_get l k).
Proof. apply read_only_bind; [apply read_only_read_dict|done]. Qed.

Lemma read_only_dict_contains l k : read_only (dict_contains l k).
Proof. apply read_only_bind; [apply read_only_read_dict|done]. Qed.

Lemma read_only_dict_items l : read_only (dict_items l).
Proof. apply read_only_bind; [apply read_only_read_dict|done]. Qed.

Lemma read_only_Code_getElement self row col :
  read_only (Code.getElement self row col).
Proof.
  apply read_only_bind; [apply read_only_attr_data|].
  intros d. apply read_only_dict_get.
Qed.

Lemma read_only_check_bounds self row col :
  read_only (Integral.check_bounds self row col).
Proof.
  apply read_only_bind; [apply read_only_attr_rows|]. intros r.
  apply read_only_bind; [apply read_only_attr_cols|]. intros c.
  by destruct (decide _).
Qed.

Lemma read_only_Integral_getElement self row col :
  read_only (Integral.getElement self row col).
Proof.
  apply read_only_bind; [apply read_only_check_bounds|]. intros _.
  apply read_only_bind; [apply read_only_attr_data|].
  intros d. apply read_only_dict_get.
Qed.

Lemma keeps_for_in {A : Type} (I : heap → Prop) (l : list A)
    (body : A → M unit) :
  (∀ x, keeps I (body x)) → keeps I (for_in l body).
Proof.
  intros Hbody. induction l as [|x l IH].
  - by apply keeps_read_only.
  - cbn [for_in]. apply keeps_bind; [apply Hbody|]. by intros _.
Qed.

Lemma keeps_for_acc {A S : Type} (I : heap → Prop) (l : list A) (s : S)
    (body : S → A → M S) :
  (∀ s x, keeps I (body s x)) → keeps I (for_acc l s body).
Proof.
  intros Hbody. revert s. induction l as [|x l IH]; intros s.
  - by apply keeps_read_only.
  - cbn [for_acc]. apply keeps_bind; [apply Hbody|]. intros s'. apply IH.
Qed.

Lemma frame_insert_new (h : heap) (l : loc) (o : obj) :
  (frame h0) h → h0 !! l = None → (frame h0) (<[l := o]> h).
Proof.
  intros Hf Hl l' o' Hl'. rewrite lookup_insert_ne; [by apply Hf|].
  intros ->. congruence.
Qed.

Lemma frame_fresh (h : heap) : (frame h0) h → h0 !! fresh (dom h) = None.
Proof.
  intros Hf. destruct (h0 !! fresh (dom h)) as [o|] eqn:Ho; [|done].
  apply Hf in Ho. exfalso. apply (is_fresh (dom h)).
  apply elem_of_dom. by eexists.
Qed.

(** Allocation *)
Lemma keeps_frame_alloc o : keeps (frame h0) (alloc o).
Proof.
  intros h Hf. unfold alloc. cbn [snd].
  apply frame_insert_new; [done|by apply frame_fresh].
Qed.

(** Writing to a dictionary made since the call *)
Lemma keeps_frame_new_write l d : keeps ((frame_new h0) l) (write_dict l d).
Proof.
  intros h [Hf Hl]. unfold write_dict.
  destruct (h !! l) as [[d'|]|]; try done. cbn [snd]. split; [|done].
  by apply frame_insert_new.
Qed.

Lemma keeps_frame_new_setitem l k v : keeps ((frame_new h0) l) (dict_setitem l k v).
Proof.
  apply keeps_bind; [apply keeps_read_only, read_only_read_dict|].
  intros d. apply keeps_frame_new_write.
Qed.

Lemma keeps_frame_new_delitem l k : keeps ((frame_new h0) l) (dict_delitem l k).
Proof.
  apply keeps_bind; [apply keeps_read_only, read_only_read_dict|].
  intros d. destruct (d !! k).
  - apply keeps_frame_new_write.
  - by apply keeps_read_only.
Qed.

Lemma keeps_frame_result_write result l d :
  h0 !! l = None → keeps ((frame_result h0) result) (write_dict l d).
Proof.
  intros Hl h [Hf (r & c & dl & Hres & Hdl)]. unfold write_dict.
  destruct (h !! l) as [[d'|]|] eqn:Hhl; cbn [snd];
    try (split; [done|by exists r, c, dl]).
  split; [by apply frame_insert_new|]. exists r, c, dl. split; [|done].
  rewrite lookup_insert_ne; [done|]. intros ->. congruence.
Qed.

(** With [result.data] made since the call, the statements of
    [setElement] write to that dictionary only. *)
Lemma keeps_frame_result_attr_data result (k : loc → M unit) :
  (∀ dl, h0 !! dl = None → keeps ((frame_result h0) result) (k dl)) →
  keeps ((frame_result h0) result) (attr_data result ≫= k).
Proof.
  intros Hk h HI. pose proof HI as [Hf (r & c & dl & Hres & Hdl)].
  unfold mbind, M_bind, attr_data. rewrite Hres. by apply Hk.
Qed.

Lemma keeps_frame_result_setitem result l k v :
  h0 !! l = None → keeps ((frame_result h0) result) (dict_setitem l k v).
Proof.
  intros Hl. apply keeps_bind; [apply keeps_read_only, read_only_read_dict|].
  intros d. by apply keeps_frame_result_write.
Qed.

Lemma keeps_frame_result_delitem result l k :
  h0 !! l = None → keeps ((frame_result h0) result) (dict_delitem l k).
Proof.
  intros Hl. apply keeps_bind; [apply keeps_read_only, read_only_read_dict|].
  intros d. destruct (d !! k).
  - by apply keeps_frame_result_write.
  - by apply keeps_read_only.
Qed.

Lemma keeps_Code_setElement result row col value :
  keeps ((frame_result h0) result) (Code.setElement result row col value).
Proof.
  unfold Code.setElement. destruct (decide (value = 0)).
  - apply keeps_frame_result_attr_data. intros dl Hdl.
    apply keeps_bind; [apply keeps_read_only, read_only_dict_contains|].
    intros [|]; [|by apply keeps_read_only].
    apply keeps_frame_result_attr_data. intros dl' Hdl'.
    by apply keeps_frame_result_delitem.
  - apply keeps_frame_result_attr_data. intros dl Hdl.
    by apply keeps_frame_result_setitem.
Qed.

(** [SparseMatrix(rows, cols)] of [src/code] makes the result. *)
Lemma Code_init_frame_result rows cols h :
  (frame h0) h →
  ∃ result h', Code.init rows cols h = (Return result, h')
               ∧ (frame_result h0) result h'.
Proof.
  intros Hf. unfold Code.init, mbind, M_bind, alloc.
  eexists _, _. split; [done|]. split.
  - apply frame_insert_new; [|by apply frame_fresh, frame_insert_new, frame_fresh].
    apply frame_insert_new; [done|by apply frame_fresh].
  - eexists _, _, _. split; [apply lookup_insert_eq|]. by apply frame_fresh.
Qed.

Lemma frame_result_frame result h : (frame_result h0) result h → (frame h0) h.
Proof. by intros [? _]. Qed.

Lemma frame_new_frame l h : (frame_new h0) l h → (frame h0) h.
Proof. by intros [? _]. Qed.

(** Statements that only read do not count: the goal is about the store
    after the continuation. *)
Lemma after_read {A B : Type} (m : M A) (k : A → M B) (h : heap) :
  read_only m → (frame h0) h → (∀ a, (frame h0) (k a h).2) → (frame h0) ((m ≫= k) h).2.
Proof.
  intros Hm Hf Hk. unfold mbind, M_bind. specialize (Hm h).
  destruct (m h) as [[a|e] h']; simpl in *; subst; [apply Hk|done].
Qed.

End frame.

Lemma frame_refl (h : gmap Store.loc Store.obj) : frame h h.
Proof. by intros l o. Qed.

Lemma after_alloc {B : Type} (h0 h : gmap Store.loc Store.obj) (o : Store.obj)
    (k : Store.loc → Store.M B) :
  frame h0 h → (∀ l, keeps (frame_new h0 l) (k l)) →
  frame h0 ((Store.alloc o ≫= k) h).2.
Proof.
  intros Hf Hk. unfold mbind, Store.M_bind, Store.alloc.
  eapply frame_new_frame, Hk. split.
  - apply frame_insert_new; [done|by apply frame_fresh].
  - by apply frame_fresh.
Qed.

Lemma after_dict_copy {B : Type} (h0 h : gmap Store.loc Store.obj)
    (l : Store.loc) (k : Store.loc → Store.M B) :
  frame h0 h → (∀ l, keeps (frame_new h0 l) (k l)) →
  frame h0 ((Store.dict_copy l ≫= k) h).2.
Proof.
  intros Hf Hk. unfold Store.dict_copy.
  unfold mbind at 1 2. unfold Store.M_bind at 1 2. unfold Store.read_dict.
  destruct (h !! l) as [[d|]|]; try done.
  by apply (after_alloc h0 h).
Qed.

Lemma after_Code_init {B : Type} (h0 h : gmap Store.loc Store.obj)
    (rows cols : Z) (k : Store.loc → Store.M B) :
  frame h0 h → (∀ result, keeps (frame_result h0 result) (k result)) →
  frame h0 ((Store.Code.init rows cols ≫= k) h).2.
Proof.
  intros Hf Hk.
  destruct (Code_init_frame_result h0 rows cols h Hf)
    as (result & h' & Hrun & HI).
  unfold mbind at 1. unfold Store.M_bind at 1. rewrite Hrun.
  eapply frame_result_frame. by apply Hk.
Qed.

Lemma keeps_frame_new_alloc (h0 : gmap Store.loc Store.obj) l o :
  keeps (frame_new h0 l) (Store.alloc o).
Proof.
  intros h [Hf Hl]. split; [|done]. by apply keeps_frame_alloc.
Qed.

Lemma keeps_Integral_init (h0 : gmap Store.loc Store.obj) l rows cols data :
  keeps (frame_new h0 l) (Store.Integral.init rows cols data).
Proof.
  unfold Store.Integral.init.
  apply keeps_bind; [apply keeps_read_only, read_only_read_dict|].
  intros d. destruct (decide (d = ∅)).
  - apply keeps_bind; [apply keeps_frame_new_alloc|].
    intros fresh_data. apply keeps_frame_new_alloc.
  - apply keeps_frame_new_alloc.
Qed.

Create HintDb reads.

#[local] Hint Resolve read_only_ret read_only_skip read_only_raise
  read_only_read_dict read_only_attr_rows read_only_attr_cols
  read_only_attr_data read_only_dict_getitem read_only_dict_get
  read_only_dict_contains read_only_dict_items read_only_Code_getElement
  read_only_check_bounds read_only_Integral_getElement : reads.

(** One statement of a method body. *)
Ltac keeps_step :=
  lazymatch goal with
  | |- keeps _ (Store.Code.setElement _ _ _ _) =>
      apply keeps_Code_setElement
  | |- keeps _ (Store.Integral.init _ _ _) =>
      apply keeps_Integral_init
  | |- keeps (frame_new _ ?l) (Store.dict_setitem ?l _ _) =>
      apply keeps_frame_new_setitem
  | |- keeps (frame_new _ ?l) (Store.dict_delitem ?l _) =>
      apply keeps_frame_new_delitem
  | |- keeps _ (Store.for_in _ _) =>
      apply keeps_for_in; intros ?
  | |- keeps _ (Store.for_acc _ _ _) =>
      apply keeps_for_acc; intros ? ?
  | |- keeps _ (mbind _ _) =>
      apply keeps_bind; [|intros ?]
  | |- keeps _ (if decide ?P then _ else _) =>
      destruct (decide P)
  | |- keeps _ (if ?b then _ else _) =>
      destruct b
  | |- keeps _ (match ?x with _ => _ end) =>
      destruct x
  | |- keeps _ _ =>
      apply keeps_read_only; solve [auto with reads]
  end.

Ltac keeps_all := cbn zeta; repeat (keeps_step; cbn zeta).

(** The reads before the first allocation of a method. *)
Ltac skip_reads :=
  repeat (apply after_read; [solve [auto with reads]|try done|intros ?]).

Lemma Code_add_frame (h : gmap Store.loc Store.obj) (self other : Store.loc) :
  untouched h (Store.Code.add self other h).2.
Proof.
  change (frame h (Store.Code.add self other h).2).
  pose proof (frame_refl h) as Hf. unfold Store.Code.add.
  skip_reads. destruct (decide _); [done|]. skip_reads.
  apply after_Code_init; [done|]. intros result. keeps_all.
Qed.

Lemma Code_subtract_frame (h : gmap Store.loc Store.obj)
    (self other : Store.loc) :
  untouched h (Store.Code.subtract self other h).2.
Proof.
  change (frame h (Store.Code.subtract self other h).2).
  pose proof (frame_refl h) as Hf. unfold Store.Code.subtract.
  skip_reads. destruct (decide _); [done|]. skip_reads.
  apply after_Code_init; [done|]. intros result. keeps_all.
Qed.

Lemma Code_multiply_frame (h : gmap Store.loc Store.obj)
    (self other : Store.loc) :
  untouched h (Store.Code.multiply self other h).2.
Proof.
  change (frame h (Store.Code.multiply self other h).2).
  pose proof (frame_refl h) as Hf. unfold Store.Code.multiply.
  skip_reads. destruct (decide _); [done|]. skip_reads.
  apply after_Code_init; [done|]. intros result. keeps_all.
Qed.

Lemma Integral_add_frame (h : gmap Store.loc Store.obj)
    (self other : Store.loc) :
  untouched h (Store.Integral.add self other h).2.
Proof.
  change (frame h (Store.Integral.add self other h).2).
  pose proof (frame_refl h) as Hf. unfold Store.Integral.add.
  skip_reads. destruct (decide _); [done|]. skip_reads.
  apply after_dict_copy; [done|]. intros result_data. keeps_all.
Qed.

Lemma Integral_subtract_frame (h : gmap Store.loc Store.obj)
    (self other : Store.loc) :
  untouched h (Store.Integral.subtract self other h).2.
Proof.
  change (frame h (Store.Integral.subtract self other h).2).
  pose proof (frame_refl h) as Hf. unfold Store.Integral.subtract.
  skip_reads. destruct (decide _); [done|]. skip_reads.
  apply after_dict_copy; [done|]. intros result_data. keeps_all.
Qed.

Lemma Integral_multiply_frame (h : gmap Store.loc Store.obj)
    (self other : Store.loc) :
  untouched h (Store.Integral.multiply self other h).2.
Proof.
  change (frame h (Store.Integral.multiply self other h).2).
  pose proof (frame_refl h) as Hf. unfold Store.Integral.multiply.
  skip_reads. destruct (decide _); [done|]. skip_reads.
  apply after_alloc; [done|]. intros result_data. keeps_all.
Qed.

(** C9: the operators do not mutate their operands.  Whatever the store [h]
    and the references [A] and [B], after [add], [subtract] or [multiply] of
    either version every object of [h] is in the store as it was, whether
    the call returns or raises: the methods write to the objects they have
    made themselves only.  In particular a reference that stood for a matrix
    stands for the same matrix: same [rows], same [cols], same
    dictionary. *)
Theorem operators_leave_operands_unchanged
    (h : gmap Store.loc Store.obj) (A B : Store.loc) :
  ∀ operator, operator ∈ store_operators →
    let h' := (operator A B h).2 in
    untouched h h'
    ∧ (∀ x m, Store.matrix_at h x = Some m → Store.matrix_at h' x = Some m).
Proof.
  intros operator Hop h'.
  assert (untouched h h') as Hu.
  { unfold h', store_operators in *.
    repeat (apply elem_of_cons in Hop as [->|Hop]).
    - apply Code_add_frame.
    - apply Code_subtract_frame.
    - apply Code_multiply_frame.
    - apply Integral_add_frame.
    - apply Integral_subtract_frame.
    - apply Integral_multiply_frame.
    - by apply elem_of_nil in Hop. }
  split; [done|]. intros x m. by apply untouched_matrix_at.
Qed.

Lemma operators_leave_operands_unchanged_witness :
  let h : gmap Store.loc Store.obj :=
    {[ 1%positive := Store.Dict {[ (0, 0) := 1; (1, 1) := 2 ]};
       2%positive := Store.Matrix 2 2 1%positive;
       3%positive := Store.Dict {[ (0, 0) := -1 ]};
       4%positive := Store.Matrix 2 2 3%positive;
       5%positive := Store.Dict ∅;
       6%positive := Store.Matrix 2 3 5%positive ]} in
  (∃ r h', Store.Integral.add 2%positive 4%positive h = (Store.Return r, h')
           ∧ Store.matrix_at h' r
             = Some (mkSparseMatrix 2 2 {[ (1, 1) := 2 ]})
           ∧ Store.matrix_at h' 2%positive
             = Some (mkSparseMatrix 2 2 {[ (0, 0) := 1; (1, 1) := 2 ]}))
  ∧ (∃ h', Store.Code.add 2%positive 6%positive h
           = (Store.Raise (Store.Raised DimensionMismatch), h')
           ∧ Store.matrix_at h' 2%positive
             = Some (mkSparseMatrix 2 2 {[ (0, 0) := 1; (1, 1) := 2 ]})).
Proof.
  intros h.
  assert (Store.matrix_at h 2%positive
          = Some (mkSparseMatrix 2 2 {[ (0, 0) := 1; (1, 1) := 2 ]})) as H2
    by (vm_compute; reflexivity).
  split.
  - destruct (Store.Integral.add 2%positive 4%positive h) as [o h'] eqn:Hrun.
    assert (∃ r, o = Store.Return r
                 ∧ Store.matrix_at h' r
                   = Some (mkSparseMatrix 2 2 {[ (1, 1) := 2 ]}))
      as (r & -> & Hr).
    { vm_compute in Hrun. inversion Hrun; subst. eexists. split; [done|].
      vm_compute. reflexivity. }
    exists r, h'. split; [done|]. split; [done|].
    pose proof (operators_leave_operands_unchanged h 2%positive 4%positive
      Store.Integral.add) as Hframe.
    rewrite Hrun in Hframe. apply Hframe; [|exact H2].
    unfold store_operators. do 3 right. left.
  - destruct (Store.Code.add 2%positive 6%positive h) as [o h'] eqn:Hrun.
    assert (o = Store.Raise (Store.Raised DimensionMismatch)) as ->.
    { vm_compute in Hrun. by inversion Hrun. }
    exists h'. split; [done|].
    pose proof (operators_leave_operands_unchanged h 2%positive 6%positive
      Store.Code.add) as Hframe.
    rewrite Hrun in Hframe. apply Hframe; [|exact H2].
    unfold store_operators. left.
Defined.

(** ** The statements over the store compute the functions of matrices *)

Lemma run_bind {A B : Type} (m : Store.M A) (k : A → Store.M B)
    (h h1 : gmap Store.loc Store.obj) (a : A) :
  m h = (Store.Return a, h1) → (m ≫= k) h = k a h1.
Proof. intros Hm. unfold mbind, Store.M_bind. by rewrite Hm. Qed.

Lemma raise_bind {A B : Type} (m : Store.M A) (k : A → Store.M B)
    (h h1 : gmap Store.loc Store.obj) (e : Store.exn) :
  m h = (Store.Raise e, h1) → (m ≫= k) h = (Store.Raise e, h1).
Proof. intros Hm. unfold mbind, Store.M_bind. by rewrite Hm. Qed.

Lemma matrix_at_Some (h : gmap Store.loc Store.obj) (x : Store.loc) M :
  Store.matrix_at h x = Some M ↔
  ∃ dl, h !! x = Some (Store.Matrix (rows M) (cols M) dl)
        ∧ h !! dl = Some (Store.Dict (data M)).
Proof.
  unfold Store.matrix_at. split.
  - destruct (h !! x) as [[d|r c dl]|]; try done.
    destruct (h !! dl) as [[d|r' c' dl']|] eqn:Hd; try done.
    intros [= <-]. by exists dl.
  - intros (dl & -> & ->). by destruct M.
Qed.

Section runs.

(** The store in which a statement runs. *)
Variable h : gmap Store.loc Store.obj.

Lemma attr_rows_run m M :
  Store.matrix_at h m = Some M →
  Store.attr_rows m h = (Store.Return (rows M), h).
Proof.
  intros (dl & Hm & _)%matrix_at_Some. unfold Store.attr_rows. by rewrite Hm.
Qed.

Lemma attr_cols_run m M :
  Store.matrix_at h m = Some M →
  Store.attr_cols m h = (Store.Return (cols M), h).
Proof.
  intros (dl & Hm & _)%matrix_at_Some. unfold Store.attr_cols. by rewrite Hm.
Qed.

Lemma attr_data_run m r c dl :
  h !! m = Some (Store.Matrix r c dl) →
  Store.attr_data m h = (Store.Return dl, h).
Proof. intros Hm. unfold Store.attr_data. by rewrite Hm. Qed.

Lemma read_dict_run l d :
  h !! l = Some (Store.Dict d) → Store.read_dict l h = (Store.Return d, h).
Proof. intros Hl. unfold Store.read_dict. by rewrite Hl. Qed.

Lemma dict_get_run l d k :
  h !! l = Some (Store.Dict d) →
  Store.dict_get l k h = (Store.Return (dict_get0 d k), h).
Proof.
  intros Hl. unfold Store.dict_get.
  by rewrite (run_bind _ _ _ _ _ (read_dict_run l d Hl)).
Qed.

Lemma dict_getitem_run l d k v :
  h !! l = Some (Store.Dict d) → d !! k = Some v →
  Store.dict_getitem l k h = (Store.Return v, h).
Proof.
  intros Hl Hk. unfold Store.dict_getitem.
  rewrite (run_bind _ _ _ _ _ (read_dict_run l d Hl)). by rewrite Hk.
Qed.

Lemma dict_contains_run l d k :
  h !! l = Some (Store.Dict d) →
  Store.dict_contains l k h
  = (Store.Return (bool_decide (is_Some (d !! k))), h).
Proof.
  intros Hl. unfold Store.dict_contains.
  by rewrite (run_bind _ _ _ _ _ (read_dict_run l d Hl)).
Qed.

Lemma dict_items_run l d :
  h !! l = Some (Store.Dict d) →
  Store.dict_items l h = (Store.Return (map_to_list d), h).
Proof.
  intros Hl. unfold Store.dict_items.
  by rewrite (run_bind _ _ _ _ _ (read_dict_run l d Hl)).
Qed.

Lemma write_dict_run l d0 d :
  h !! l = Some (Store.Dict d0) →
  Store.write_dict l d h = (Store.Return (), <[l := Store.Dict d]> h).
Proof. intros Hl. unfold Store.write_dict. by rewrite Hl. Qed.

Lemma dict_setitem_run l d k v :
  h !! l = Some (Store.Dict d) →
  Store.dict_setitem l k v h
  = (Store.Return (), <[l := Store.Dict (<[k := v]> d)]> h).
Proof.
  intros Hl. unfold Store.dict_setitem.
  rewrite (run_bind _ _ _ _ _ (read_dict_run l d Hl)).
  by apply write_dict_run with d.
Qed.

Lemma dict_delitem_run l d k :
  h !! l = Some (Store.Dict d) → is_Some (d !! k) →
  Store.dict_delitem l k h
  = (Store.Return (), <[l := Store.Dict (delete k d)]> h).
Proof.
  intros Hl [v Hk]. unfold Store.dict_delitem.
  rewrite (run_bind _ _ _ _ _ (read_dict_run l d Hl)). rewrite Hk.
  by apply write_dict_run with d.
Qed.

Lemma Code_getElement_run m M row col :
  Store.matrix_at h m = Some M →
  Store.Code.getElement m row col h
  = (Store.Return (Code.getElement M row col), h).
Proof.
  intros (dl & Hm & Hd)%matrix_at_Some. unfold Store.Code.getElement.
  rewrite (run_bind _ _ _ _ _ (attr_data_run m _ _ dl Hm)).
  by apply dict_get_run.
Qed.

Lemma check_bounds_run m M row col :
  Store.matrix_at h m = Some M →
  Store.Integral.check_bounds m row col h
  = (if decide (Integral.out_of_bounds M row col)
     then Store.Raise (Store.Raised IndexOutOfBounds)
     else Store.Return (), h).
Proof.
  intros HM. unfold Store.Integral.check_bounds, Integral.out_of_bounds.
  rewrite (run_bind _ _ _ _ _ (attr_rows_run m M HM)).
  rewrite (run_bind _ _ _ _ _ (attr_cols_run m M HM)).
  by destruct (decide _).
Qed.

Lemma Integral_getElement_run m M row col :
  Store.matrix_at h m = Some M →
  Store.Integral.getElement m row col h
  = (match Integral.getElement M row col with
     | Ok v => Store.Return v
     | Err e => Store.Raise (Store.Raised e)
     end, h).
Proof.
  intros HM. pose proof HM as (dl & Hm & Hd)%matrix_at_Some.
  pose proof (check_bounds_run m M row col HM) as Hcb.
  unfold Store.Integral.getElement, Integral.getElement.
  destruct (decide (Integral.out_of_bounds M row col)).
  - by rewrite (raise_bind _ _ _ _ _ Hcb).
  - rewrite (run_bind _ _ _ _ _ Hcb).
    rewrite (run_bind _ _ _ _ _ (attr_data_run m _ _ dl Hm)).
    by apply dict_get_run.
Qed.

End runs.

Lemma untouched_insert_new (h0 h : gmap Store.loc Store.obj) l o :
  untouched h0 h → h0 !! l = None → untouched h0 (<[l := o]> h).
Proof. apply frame_insert_new. Qed.

Lemma untouched_fresh (h0 h : gmap Store.loc Store.obj) :
  untouched h0 h → h0 !! fresh (dom h) = None.
Proof. apply frame_fresh. Qed.

Lemma result_at_matrix_at h0 res R h :
  result_at h0 res R h → Store.matrix_at h res = Some R.
Proof.
  intros (_ & dl & Hres & Hdl & _). apply matrix_at_Some. by exists dl.
Qed.

Lemma result_at_operand h0 res R h x M :
  result_at h0 res R h → Store.matrix_at h0 x = Some M →
  Store.matrix_at h x = Some M.
Proof. intros (Hu & _) HM. by apply (untouched_matrix_at h0 h). Qed.

(** [result.setElement(row, col, value)] on a result made since the call *)
Lemma Code_setElement_run h0 res R h row col value :
  result_at h0 res R h →
  ∃ h', Store.Code.setElement res row col value h = (Store.Return (), h')
        ∧ result_at h0 res (Code.setElement R row col value) h'.
Proof.
  intros HR. pose proof HR as (Hu & dl & Hres & Hdl & Hnew).
  assert (res ≠ dl) as Hne by (intros ->; congruence).
  unfold Store.Code.setElement, Code.setElement.
  destruct (decide (value = 0)) as [->|Hv].
  - rewrite (run_bind _ _ _ _ _ (attr_data_run h res _ _ dl Hres)).
    rewrite (run_bind _ _ _ _ _ (dict_contains_run h dl _ (row, col) Hdl)).
    destruct (decide (is_Some (data R !! (row, col)))) as [Hp|Hp].
    + rewrite bool_decide_eq_true_2 by done.
      rewrite (run_bind _ _ _ _ _ (attr_data_run h res _ _ dl Hres)).
      eexists. split; [by apply dict_delitem_run|].
      split; [by apply untouched_insert_new|]. exists dl. cbn [rows cols data].
      split; [by rewrite lookup_insert_ne|]. split; [|done].
      apply lookup_insert_eq.
    + rewrite bool_decide_eq_false_2 by done. by exists h.
  - rewrite (run_bind _ _ _ _ _ (attr_data_run h res _ _ dl Hres)).
    eexists. split; [by apply dict_setitem_run|].
    split; [by apply untouched_insert_new|]. exists dl. cbn [rows cols data].
    split; [by rewrite lookup_insert_ne|]. split; [|done].
    apply lookup_insert_eq.
Qed.

(** [SparseMatrix(rows, cols)] of [src/code] *)
Lemma Code_init_run h0 h nr nc :
  untouched h0 h →
  ∃ res h', Store.Code.init nr nc h = (Store.Return res, h')
            ∧ result_at h0 res (Code.init nr nc) h'.
Proof.
  intros Hu. unfold Store.Code.init, mbind, Store.M_bind, Store.alloc.
  eexists _, _. split; [done|]. split.
  - apply untouched_insert_new;
      [|by apply untouched_fresh, untouched_insert_new, untouched_fresh].
    apply untouched_insert_new; [done|by apply untouched_fresh].
  - eexists. cbn [rows cols data Code.init].
    split; [apply lookup_insert_eq|]. split; [|by apply untouched_fresh].
    rewrite lookup_insert_ne; [apply lookup_insert_eq|].
    pose proof (is_fresh (dom (<[fresh (dom h) := Store.Dict ∅]> h))) as Hf.
    intros Heq. apply Hf. rewrite Heq. apply elem_of_dom.
    rewrite lookup_insert_eq. by eexists.
Qed.

(** A loop that raises nothing, step by step *)
Lemma for_in_foldl {A S : Type} (Inv : S → gmap Store.loc Store.obj → Prop)
    (step : S → A → S) (body : A → Store.M unit) (l : list A) :
  (∀ s x h, x ∈ l → Inv s h →
     ∃ h', body x h = (Store.Return (), h') ∧ Inv (step s x) h') →
  ∀ s h, Inv s h →
    ∃ h', Store.for_in l body h = (Store.Return (), h')
          ∧ Inv (foldl step s l) h'.
Proof.
  induction l as [|x l IH]; intros Hbody s h HI.
  - by exists h.
  - destruct (Hbody s x h) as (h1 & Hrun & HI1); [left|done|].
    destruct (IH (λ s x h Hx, Hbody s x h (list_elem_of_further _ _ _ Hx))
                (step s x) h1 HI1) as (h2 & Hrun2 & HI2).
    exists h2. split; [|done].
    cbn [Store.for_in]. by rewrite (run_bind _ _ _ _ _ Hrun).
Qed.

(** A loop that only reads, and updates a local variable *)
Lemma for_acc_foldl {A S : Type} (step : S → A → S)
    (body : S → A → Store.M S) (l : list A) (h : gmap Store.loc Store.obj) :
  (∀ s x, body s x h = (Store.Return (step s x), h)) →
  ∀ s, Store.for_acc l s body h = (Store.Return (foldl step s l), h).
Proof.
  intros Hbody. induction l as [|x l IH]; intros s; [done|].
  cbn [Store.for_acc foldl]. by rewrite (run_bind _ _ _ _ _ (Hbody s x)).
Qed.

Section code_store.

Variable h0 : gmap Store.loc Store.obj.
Variable self other : Store.loc.
Variable A B : SparseMatrix.
Hypothesis self_at : Store.matrix_at h0 self = Some A.
Hypothesis other_at : Store.matrix_at h0 other = Some B.

(** The body of the first loop of [add] and [subtract], for the item
    [(pos, value)] of [self.data]. *)
Lemma Code_loop_self_body (op : Z → Z → Z) res R h pos value :
  data A !! pos = Some value → result_at h0 res R h →
  ∃ h', (ds ← Store.attr_data self;
         v ← Store.dict_getitem ds pos;
         o ← Store.Code.getElement other pos.1 pos.2;
         Store.Code.setElement res pos.1 pos.2 (op v o)) h
        = (Store.Return (), h')
        ∧ result_at h0 res
            (Code.setElement R pos.1 pos.2
               (op value (Code.getElement B pos.1 pos.2))) h'.
Proof.
  intros Hpos HR.
  pose proof (result_at_operand h0 res R h self A HR self_at)
    as (dl & Hs & Hd)%matrix_at_Some.
  pose proof (result_at_operand h0 res R h other B HR other_at) as HB.
  rewrite (run_bind _ _ _ _ _ (attr_data_run h self _ _ dl Hs)).
  rewrite (run_bind _ _ _ _ _ (dict_getitem_run h dl _ pos value Hd Hpos)).
  rewrite (run_bind _ _ _ _ _ (Code_getElement_run h other B _ _ HB)).
  by apply Code_setElement_run.
Qed.

(** The body of the second loop, for the item [(pos, value)] of
    [other.data]. *)
Lemma Code_loop_other_body (f : Z → Z) res R h pos value :
  data B !! pos = Some value → result_at h0 res R h →
  ∃ h', (ds ← Store.attr_data self;
         present ← Store.dict_contains ds pos;
         if (present : bool) then Store.skip
         else
           do ← Store.attr_data other;
           v ← Store.dict_getitem do pos;
           Store.Code.setElement res pos.1 pos.2 (f v)) h
        = (Store.Return (), h')
        ∧ result_at h0 res
            (if decide (is_Some (data A !! pos)) then R
             else Code.setElement R pos.1 pos.2 (f value)) h'.
Proof.
  intros Hpos HR.
  pose proof (result_at_operand h0 res R h self A HR self_at)
    as (dl & Hs & Hd)%matrix_at_Some.
  pose proof (result_at_operand h0 res R h other B HR other_at)
    as (dl' & Hs' & Hd')%matrix_at_Some.
  rewrite (run_bind _ _ _ _ _ (attr_data_run h self _ _ dl Hs)).
  rewrite (run_bind _ _ _ _ _ (dict_contains_run h dl _ pos Hd)).
  destruct (decide (is_Some (data A !! pos))) as [Hp|Hp].
  - rewrite bool_decide_eq_true_2 by done. by exists h.
  - rewrite bool_decide_eq_false_2 by done.
    rewrite (run_bind _ _ _ _ _ (attr_data_run h other _ _ dl' Hs')).
    rewrite (run_bind _ _ _ _ _ (dict_getitem_run h dl' _ pos value Hd' Hpos)).
    by apply Code_setElement_run.
Qed.

Lemma Store_Code_add_refines :
  match Code.add A B with
  | Ok C => ∃ res h', Store.Code.add self other h0 = (Store.Return res, h')
                      ∧ Store.matrix_at h' res = Some C
                      ∧ untouched h0 h'
  | Err e => Store.Code.add self other h0 = (Store.Raise (Store.Raised e), h0)
  end.
Proof.
  unfold Store.Code.add, Code.add, Code.add_in_order.
  rewrite (run_bind _ _ _ _ _ (attr_rows_run h0 self A self_at)).
  rewrite (run_bind _ _ _ _ _ (attr_rows_run h0 other B other_at)).
  rewrite (run_bind _ _ _ _ _ (attr_cols_run h0 self A self_at)).
  rewrite (run_bind _ _ _ _ _ (attr_cols_run h0 other B other_at)).
  destruct (decide (rows A ≠ rows B ∨ cols A ≠ cols B)); [done|].
  rewrite (run_bind _ _ _ _ _ (attr_rows_run h0 self A self_at)).
  rewrite (run_bind _ _ _ _ _ (attr_cols_run h0 self A self_at)).
  destruct (Code_init_run h0 h0 (rows A) (cols A)) as (res & h1 & Hinit & HR1);
    [by intros l o|].
  rewrite (run_bind _ _ _ _ _ Hinit).
  pose proof (result_at_operand h0 res _ h1 self A HR1 self_at)
    as (dl & Hs & Hd)%matrix_at_Some.
  rewrite (run_bind _ _ _ _ _ (attr_data_run h1 self _ _ dl Hs)).
  rewrite (run_bind _ _ _ _ _ (dict_items_run h1 dl _ Hd)).
  destruct (for_in_foldl (result_at h0 res)
              (λ R item, let '(pos, value) := item in
                 Code.setElement R pos.1 pos.2
                   (value + Code.getElement B pos.1 pos.2))
              (λ item, let pos := item.1 in
                 ds ← Store.attr_data self;
                 v ← Store.dict_getitem ds pos;
                 o ← Store.Code.getElement other pos.1 pos.2;
                 Store.Code.setElement res pos.1 pos.2 (v + o))
              (map_to_list (data A))) with (s := Code.init (rows A) (cols A))
    (h := h1) as (h2 & Hloop1 & HR2); [|done|].
  { intros R [pos value] h Hin HR. apply elem_of_map_to_list in Hin.
    by apply (Code_loop_self_body Z.add). }
  rewrite (run_bind _ _ _ _ _ Hloop1).
  pose proof (result_at_operand h0 res _ h2 other B HR2 other_at)
    as (dl' & Hs' & Hd')%matrix_at_Some.
  rewrite (run_bind _ _ _ _ _ (attr_data_run h2 other _ _ dl' Hs')).
  rewrite (run_bind _ _ _ _ _ (dict_items_run h2 dl' _ Hd')).
  destruct (for_in_foldl (result_at h0 res)
              (λ R item, let '(pos, value) := item in
                 if decide (is_Some (data A !! pos)) then R
                 else Code.setElement R pos.1 pos.2 value)
              (λ item, let pos := item.1 in
                 ds ← Store.attr_data self;
                 present ← Store.dict_contains ds pos;
                 if (present : bool) then Store.skip
                 else
                   do ← Store.attr_data other;
                   v ← Store.dict_getitem do pos;
                   Store.Code.setElement res pos.1 pos.2 v)
              (map_to_list (data B))) with (h := h2)
    (s := Code.add_loop_self B (map_to_list (data A))
            (Code.init (rows A) (cols A)))
    as (h3 & Hloop2 & HR3); [|done|].
  { intros R [pos value] h Hin HR. apply elem_of_map_to_list in Hin.
    by apply (Code_loop_other_body (λ v, v)). }
  rewrite (run_bind _ _ _ _ _ Hloop2).
  exists res, h3. split; [done|]. split.
  - by apply (result_at_matrix_at h0).
  - by destruct HR3.
Qed.

Lemma Store_Code_subtract_refines :
  match Code.subtract A B with
  | Ok C => ∃ res h', Store.Code.subtract self other h0
                      = (Store.Return res, h')
                      ∧ Store.matrix_at h' res = Some C
                      ∧ untouched h0 h'
  | Err e => Store.Code.subtract self other h0
             = (Store.Raise (Store.Raised e), h0)
  end.
Proof.
  unfold Store.Code.subtract, Code.subtract, Code.subtract_in_order.
  rewrite (run_bind _ _ _ _ _ (attr_rows_run h0 self A self_at)).
  rewrite (run_bind _ _ _ _ _ (attr_rows_run h0 other B other_at)).
  rewrite (run_bind _ _ _ _ _ (attr_cols_run h0 self A self_at)).
  rewrite (run_bind _ _ _ _ _ (attr_cols_run h0 other B other_at)).
  destruct (decide (rows A ≠ rows B ∨ cols A ≠ cols B)); [done|].
  rewrite (run_bind _ _ _ _ _ (attr_rows_run h0 self A self_at)).
  rewrite (run_bind _ _ _ _ _ (attr_cols_run h0 self A self_at)).
  destruct (Code_init_run h0 h0 (rows A) (cols A)) as (res & h1 & Hinit & HR1);
    [by intros l o|].
  rewrite (run_bind _ _ _ _ _ Hinit).
  pose proof (result_at_operand h0 res _ h1 self A HR1 self_at)
    as (dl & Hs & Hd)%matrix_at_Some.
  rewrite (run_bind _ _ _ _ _ (attr_data_run h1 self _ _ dl Hs)).
  rewrite (run_bind _ _ _ _ _ (dict_items_run h1 dl _ Hd)).
  destruct (for_in_foldl (result_at h0 res)
              (λ R item, let '(pos, value) := item in
                 Code.setElement R pos.1 pos.2
                   (value - Code.getElement B pos.1 pos.2))
              (λ item, let pos := item.1 in
                 ds ← Store.attr_data self;
                 v ← Store.dict_getitem ds pos;
                 o ← Store.Code.getElement other pos.1 pos.2;
                 Store.Code.setElement res pos.1 pos.2 (v - o))
              (map_to_list (data A))) with (s := Code.init (rows A) (cols A))
    (h := h1) as (h2 & Hloop1 & HR2); [|done|].
  { intros R [pos value] h Hin HR. apply elem_of_map_to_list in Hin.
    by apply (Code_loop_self_body Z.sub). }
  rewrite (run_bind _ _ _ _ _ Hloop1).
  pose proof (result_at_operand h0 res _ h2 other B HR2 other_at)
    as (dl' & Hs' & Hd')%matrix_at_Some.
  rewrite (run_bind _ _ _ _ _ (attr_data_run h2 other _ _ dl' Hs')).
  rewrite (run_bind _ _ _ _ _ (dict_items_run h2 dl' _ Hd')).
  destruct (for_in_foldl (result_at h0 res)
              (λ R item, let '(pos, value) := item in
                 if decide (is_Some (data A !! pos)) then R
                 else Code.setElement R pos.1 pos.2 (- value))
              (λ item, let pos := item.1 in
                 ds ← Store.attr_data self;
                 present ← Store.dict_contains ds pos;
                 if (present : bool) then Store.skip
                 else
                   do ← Store.attr_data other;
                   v ← Store.dict_getitem do pos;
                   Store.Code.setElement res pos.1 pos.2 (- v))
              (map_to_list (data B))) with (h := h2)
    (s := Code.subtract_loop_self B (map_to_list (data A))
            (Code.init (rows A) (cols A)))
    as (h3 & Hloop2 & HR3); [|done|].
  { intros R [pos value] h Hin HR. apply elem_of_map_to_list in Hin.
    by apply (Code_loop_other_body Z.opp). }
  rewrite (run_bind _ _ _ _ _ Hloop2).
  exists res, h3. split; [done|]. split.
  - by apply (result_at_matrix_at h0).
  - by destruct HR3.
Qed.

(** The innermost loop of [multiply] of [src/code] *)
Lemma Code_multiply_total_run res R h i j :
  result_at h0 res R h →
  Store.for_acc (range (cols A)) 0
    (λ total k,
       a ← Store.Code.getElement self i k;
       b ← Store.Code.getElement other k j;
       mret (total + a * b)) h
  = (Store.Return (Code.multiply_total A B i j), h).
Proof.
  intros HR.
  pose proof (result_at_operand h0 res R h self A HR self_at) as HA.
  pose proof (result_at_operand h0 res R h other B HR other_at) as HB.
  apply (for_acc_foldl
           (λ total k, total + Code.getElement A i k * Code.getElement B k j)).
  intros total k.
  rewrite (run_bind _ _ _ _ _ (Code_getElement_run h self A i k HA)).
  by rewrite (run_bind _ _ _ _ _ (Code_getElement_run h other B k j HB)).
Qed.

Lemma Code_multiply_row_run res R h i :
  result_at h0 res R h →
  ∃ h', (p ← Store.attr_cols other;
         Store.for_in (range p) (λ j,
           q ← Store.attr_cols self;
           total ← Store.for_acc (range q) 0 (λ total k,
                      a ← Store.Code.getElement self i k;
                      b ← Store.Code.getElement other k j;
                      mret (total + a * b));
           if decide (total ≠ 0) then Store.Code.setElement res i j total
           else Store.skip)) h
        = (Store.Return (), h')
        ∧ result_at h0 res (Code.multiply_row A B i R) h'.
Proof.
  intros HR.
  pose proof (result_at_operand h0 res R h other B HR other_at) as HB.
  rewrite (run_bind _ _ _ _ _ (attr_cols_run h other B HB)).
  apply (for_in_foldl (result_at h0 res)
           (λ R j, let total := Code.multiply_total A B i j in
                   if decide (total ≠ 0) then Code.setElement R i j total
                   else R)); [|done].
  intros R' j h' _ HR'.
  pose proof (result_at_operand h0 res R' h' self A HR' self_at) as HA'.
  rewrite (run_bind _ _ _ _ _ (attr_cols_run h' self A HA')).
  rewrite (run_bind _ _ _ _ _ (Code_multiply_total_run res R' h' i j HR')).
  cbn zeta. destruct (decide (Code.multiply_total A B i j ≠ 0)).
  - by apply Code_setElement_run.
  - by exists h'.
Qed.

Lemma Store_Code_multiply_refines :
  match Code.multiply A B with
  | Ok C => ∃ res h', Store.Code.multiply self other h0
                      = (Store.Return res, h')
                      ∧ Store.matrix_at h' res = Some C
                      ∧ untouched h0 h'
  | Err e => Store.Code.multiply self other h0
             = (Store.Raise (Store.Raised e), h0)
  end.
Proof.
  unfold Store.Code.multiply, Code.multiply.
  rewrite (run_bind _ _ _ _ _ (attr_cols_run h0 self A self_at)).
  rewrite (run_bind _ _ _ _ _ (attr_rows_run h0 other B other_at)).
  destruct (decide (cols A ≠ rows B)); [done|].
  rewrite (run_bind _ _ _ _ _ (attr_rows_run h0 self A self_at)).
  rewrite (run_bind _ _ _ _ _ (attr_cols_run h0 other B other_at)).
  destruct (Code_init_run h0 h0 (rows A) (cols B)) as (res & h1 & Hinit & HR1);
    [by intros l o|].
  rewrite (run_bind _ _ _ _ _ Hinit).
  pose proof (result_at_operand h0 res _ h1 self A HR1 self_at) as HA1.
  rewrite (run_bind _ _ _ _ _ (attr_rows_run h1 self A HA1)).
  destruct (for_in_foldl (result_at h0 res)
              (λ R i, Code.multiply_row A B i R)
              (λ i, p ← Store.attr_cols other;
                 Store.for_in (range p) (λ j,
                   q ← Store.attr_cols self;
                   total ← Store.for_acc (range q) 0 (λ total k,
                              a ← Store.Code.getElement self i k;
                              b ← Store.Code.getElement other k j;
                              mret (total + a * b));
                   if decide (total ≠ 0)
                   then Store.Code.setElement res i j total
                   else Store.skip))
              (range (rows A))) with (s := Code.init (rows A) (cols B))
    (h := h1) as (h2 & Hloop & HR2); [|done|].
  { intros R i h _ HR. by apply Code_multiply_row_run. }
  rewrite (run_bind _ _ _ _ _ Hloop).
  exists res, h2. split; [done|]. split.
  - by apply (result_at_matrix_at h0).
  - by destruct HR2.
Qed.

End code_store.

Lemma dict_at_operand h0 l d h x M :
  dict_at h0 l d h → Store.matrix_at h0 x = Some M →
  Store.matrix_at h x = Some M.
Proof. intros (Hu & _) HM. by apply (untouched_matrix_at h0 h). Qed.

Lemma dict_at_setitem h0 l d h k v :
  dict_at h0 l d h →
  ∃ h', Store.dict_setitem l k v h = (Store.Return (), h')
        ∧ dict_at h0 l (<[k := v]> d) h'.
Proof.
  intros (Hu & Hl & Hnew). eexists. split; [by apply dict_setitem_run|].
  split; [by apply untouched_insert_new|]. split; [|done].
  apply lookup_insert_eq.
Qed.

Lemma dict_at_delitem h0 l d h k :
  dict_at h0 l d h → is_Some (d !! k) →
  ∃ h', Store.dict_delitem l k h = (Store.Return (), h')
        ∧ dict_at h0 l (delete k d) h'.
Proof.
  intros (Hu & Hl & Hnew) Hk. eexists. split; [by apply dict_delitem_run|].
  split; [by apply untouched_insert_new|]. split; [|done].
  apply lookup_insert_eq.
Qed.

(** [d.copy()] *)
Lemma dict_copy_run h0 h l d :
  untouched h0 h → h !! l = Some (Store.Dict d) →
  ∃ rd h', Store.dict_copy l h = (Store.Return rd, h') ∧ dict_at h0 rd d h'.
Proof.
  intros Hu Hl. unfold Store.dict_copy.
  rewrite (run_bind _ _ _ _ _ (read_dict_run h l d Hl)).
  unfold Store.alloc. eexists _, _. split; [done|]. split.
  - apply untouched_insert_new; [done|by apply untouched_fresh].
  - split; [apply lookup_insert_eq|by apply untouched_fresh].
Qed.

(** [SparseMatrix(rows, cols, data)] of [src/integral-file] *)
Lemma Integral_init_run h0 h l d nr nc :
  dict_at h0 l d h →
  ∃ res h', Store.Integral.init nr nc l h = (Store.Return res, h')
            ∧ Store.matrix_at h' res = Some (Integral.init nr nc d)
            ∧ untouched h0 h'.
Proof.
  intros (Hu & Hl & Hnew). unfold Store.Integral.init.
  rewrite (run_bind _ _ _ _ _ (read_dict_run h l d Hl)).
  rewrite Integral_init_eq.
  destruct (decide (d = ∅)) as [->|Hne].
  - unfold mbind, Store.M_bind, Store.alloc. eexists _, _.
    split; [done|]. split.
    + apply matrix_at_Some. eexists. cbn [rows cols data].
      split; [apply lookup_insert_eq|].
      rewrite lookup_insert_ne; [apply lookup_insert_eq|].
      pose proof (is_fresh (dom (<[fresh (dom h) := Store.Dict ∅]> h))) as Hf.
      intros Heq. apply Hf. rewrite Heq. apply elem_of_dom.
      rewrite lookup_insert_eq. by eexists.
    + apply untouched_insert_new;
        [|by apply untouched_fresh, untouched_insert_new, untouched_fresh].
      apply untouched_insert_new; [done|by apply untouched_fresh].
  - unfold Store.alloc. eexists _, _. split; [done|]. split.
    + apply matrix_at_Some. exists l. cbn [rows cols data].
      split; [apply lookup_insert_eq|].
      rewrite lookup_insert_ne; [done|].
      intros Heq. apply (is_fresh (dom h)). rewrite Heq.
      apply elem_of_dom. by eexists.
    + apply untouched_insert_new; [done|by apply untouched_fresh].
Qed.

(** A loop whose body may raise, step by step *)
Lemma for_in_for_each {A S : Type} (h0 : gmap Store.loc Store.obj)
    (Inv : S → gmap Store.loc Store.obj → Prop)
    (step : S → A → result S) (body : A → Store.M unit) (l : list A) :
  (∀ s x h, x ∈ l → Inv s h →
     match step s x with
     | Ok s' => ∃ h', body x h = (Store.Return (), h') ∧ Inv s' h'
     | Err e => ∃ h', body x h = (Store.Raise (Store.Raised e), h')
                      ∧ untouched h0 h'
     end) →
  ∀ s h, Inv s h →
    match for_each step l s with
    | Ok s' => ∃ h', Store.for_in l body h = (Store.Return (), h') ∧ Inv s' h'
    | Err e => ∃ h', Store.for_in l body h
                     = (Store.Raise (Store.Raised e), h')
                     ∧ untouched h0 h'
    end.
Proof.
  induction l as [|x l IH]; intros Hbody s h HI.
  - by exists h.
  - cbn [for_each Store.for_in].
    pose proof (Hbody s x h (list_elem_of_here _ _) HI) as Hx.
    destruct (step s x) as [s1|e]; cbn [mbind result_bind].
    + destruct Hx as (h1 & Hrun & HI1).
      rewrite (run_bind _ _ _ _ _ Hrun).
      apply IH; [|done].
      intros s' x' h' Hin. apply Hbody. by right.
    + destruct Hx as (h1 & Hrun & Hu). exists h1. split; [|done].
      by rewrite (raise_bind _ _ _ _ _ Hrun).
Qed.

Section integral_store.

Variable h0 : gmap Store.loc Store.obj.
Variable self other : Store.loc.
Variable A B : SparseMatrix.
Hypothesis self_at : Store.matrix_at h0 self = Some A.
Hypothesis other_at : Store.matrix_at h0 other = Some B.

(** The body of the loop of [add] and [subtract] *)
Lemma Integral_merge_body (op : Z → Z → Z) rd d h key value :
  dict_at h0 rd d h →
  ∃ h', (present ← Store.dict_contains rd key;
         if (present : bool) then
           old ← Store.dict_getitem rd key;
           _ ← Store.dict_setitem rd key (op old value);
           now ← Store.dict_getitem rd key;
           if decide (now = 0) then Store.dict_delitem rd key
           else Store.skip
         else Store.dict_setitem rd key (op 0 value)) h
        = (Store.Return (), h')
        ∧ dict_at h0 rd (merge_item op d key value) h'.
Proof.
  intros Hd. pose proof Hd as (Hu & Hl & Hnew).
  rewrite (run_bind _ _ _ _ _ (dict_contains_run h rd d key Hl)).
  unfold merge_item. destruct (d !! key) as [old|] eqn:Hk.
  - rewrite bool_decide_eq_true_2 by done.
    rewrite (run_bind _ _ _ _ _ (dict_getitem_run h rd d key old Hl Hk)).
    destruct (dict_at_setitem h0 rd d h key (op old value) Hd)
      as (h1 & Hset & Hd1).
    rewrite (run_bind _ _ _ _ _ Hset).
    pose proof Hd1 as (Hu1 & Hl1 & _).
    rewrite (run_bind _ _ _ _ _
               (dict_getitem_run h1 rd _ key (op old value) Hl1
                  (lookup_insert_eq _ _ _))).
    cbn zeta. rewrite dict_get0_insert.
    rewrite (decide_True (P := key = key)) by done.
    destruct (decide (op old value = 0)).
    + apply dict_at_delitem; [done|]. rewrite lookup_insert_eq. by eexists.
    + by exists h1.
  - rewrite bool_decide_eq_false_2 by (by intros [? ?]).
    by apply dict_at_setitem.
Qed.

Lemma merge_loop_foldl (op : Z → Z → Z) items d :
  merge_loop op items d
  = foldl (λ d (item : (Z * Z) * Z), merge_item op d item.1 item.2) d items.
Proof.
  revert d. induction items as [|[key value] items IH]; intros d; [done|].
  rewrite merge_loop_cons, IH. done.
Qed.

Lemma Integral_merge_run (op : Z → Z → Z) rd h items :
  dict_at h0 rd (data A) h →
  ∃ h', Store.for_in items (λ item,
          let '(key, value) := item in
          present ← Store.dict_contains rd key;
          if (present : bool) then
            old ← Store.dict_getitem rd key;
            _ ← Store.dict_setitem rd key (op old value);
            now ← Store.dict_getitem rd key;
            if decide (now = 0) then Store.dict_delitem rd key
            else Store.skip
          else Store.dict_setitem rd key (op 0 value)) h
        = (Store.Return (), h')
        ∧ dict_at h0 rd (merge_loop op items (data A)) h'.
Proof.
  intros Hd. rewrite merge_loop_foldl.
  apply (for_in_foldl (dict_at h0 rd)
           (λ d (item : (Z * Z) * Z), merge_item op d item.1 item.2));
    [|done].
  intros d [key value] h1 _ Hd1. by apply Integral_merge_body.
Qed.

Lemma Store_Integral_add_refines :
  match Integral.add A B with
  | Ok C => ∃ res h', Store.Integral.add self other h0
                      = (Store.Return res, h')
                      ∧ Store.matrix_at h' res = Some C
                      ∧ untouched h0 h'
  | Err e => Store.Integral.add self other h0
             = (Store.Raise (Store.Raised e), h0)
  end.
Proof.
  unfold Store.Integral.add, Integral.add, Integral.add_in_order.
  rewrite (run_bind _ _ _ _ _ (attr_rows_run h0 self A self_at)).
  rewrite (run_bind _ _ _ _ _ (attr_rows_run h0 other B other_at)).
  rewrite (run_bind _ _ _ _ _ (attr_cols_run h0 self A self_at)).
  rewrite (run_bind _ _ _ _ _ (attr_cols_run h0 other B other_at)).
  destruct (decide (rows A ≠ rows B ∨ cols A ≠ cols B)); [done|].
  pose proof self_at as (dl & Hs & Hd)%matrix_at_Some.
  rewrite (run_bind _ _ _ _ _ (attr_data_run h0 self _ _ dl Hs)).
  destruct (dict_copy_run h0 h0 dl (data A)) as (rd & h1 & Hcopy & Hd1);
    [by intros l o|done|].
  rewrite (run_bind _ _ _ _ _ Hcopy).
  pose proof (dict_at_operand h0 rd _ h1 other B Hd1 other_at)
    as (dl' & Hs' & Hd')%matrix_at_Some.
  rewrite (run_bind _ _ _ _ _ (attr_data_run h1 other _ _ dl' Hs')).
  rewrite (run_bind _ _ _ _ _ (dict_items_run h1 dl' _ Hd')).
  destruct (Integral_merge_run Z.add rd h1 (map_to_list (data B)) Hd1)
    as (h2 & Hloop & Hd2).
  rewrite (run_bind _ _ _ _ _ Hloop).
  pose proof (dict_at_operand h0 rd _ h2 self A Hd2 self_at) as HA2.
  rewrite (run_bind _ _ _ _ _ (attr_rows_run h2 self A HA2)).
  rewrite (run_bind _ _ _ _ _ (attr_cols_run h2 self A HA2)).
  by apply (Integral_init_run h0 h2 rd).
Qed.

Lemma Store_Integral_subtract_refines :
  match Integral.subtract A B with
  | Ok C => ∃ res h', Store.Integral.subtract self other h0
                      = (Store.Return res, h')
                      ∧ Store.matrix_at h' res = Some C
                      ∧ untouched h0 h'
  | Err e => Store.Integral.subtract self other h0
             = (Store.Raise (Store.Raised e), h0)
  end.
Proof.
  unfold Store.Integral.subtract, Integral.subtract,
    Integral.subtract_in_order.
  rewrite (run_bind _ _ _ _ _ (attr_rows_run h0 self A self_at)).
  rewrite (run_bind _ _ _ _ _ (attr_rows_run h0 other B other_at)).
  rewrite (run_bind _ _ _ _ _ (attr_cols_run h0 self A self_at)).
  rewrite (run_bind _ _ _ _ _ (attr_cols_run h0 other B other_at)).
  destruct (decide (rows A ≠ rows B ∨ cols A ≠ cols B)); [done|].
  pose proof self_at as (dl & Hs & Hd)%matrix_at_Some.
  rewrite (run_bind _ _ _ _ _ (attr_data_run h0 self _ _ dl Hs)).
  destruct (dict_copy_run h0 h0 dl (data A)) as (rd & h1 & Hcopy & Hd1);
    [by intros l o|done|].
  rewrite (run_bind _ _ _ _ _ Hcopy).
  pose proof (dict_at_operand h0 rd _ h1 other B Hd1 other_at)
    as (dl' & Hs' & Hd')%matrix_at_Some.
  rewrite (run_bind _ _ _ _ _ (attr_data_run h1 other _ _ dl' Hs')).
  rewrite (run_bind _ _ _ _ _ (dict_items_run h1 dl' _ Hd')).
  destruct (Integral_merge_run Z.sub rd h1 (map_to_list (data B)) Hd1)
    as (h2 & Hloop & Hd2).
  rewrite (run_bind _ _ _ _ _ Hloop).
  pose proof (dict_at_operand h0 rd _ h2 self A Hd2 self_at) as HA2.
  rewrite (run_bind _ _ _ _ _ (attr_rows_run h2 self A HA2)).
  rewrite (run_bind _ _ _ _ _ (attr_cols_run h2 self A HA2)).
  by apply (Integral_init_run h0 h2 rd).
Qed.

(** The body of the inner loop of [multiply] of [src/integral-file] *)
Lemma Integral_multiply_step_run rd d h i k val1 j :
  dict_at h0 rd d h →
  match Integral.multiply_step B i k val1 d j with
  | Ok d' =>
      ∃ h', (val2 ← Store.Integral.getElement other k j;
             if decide (val2 ≠ 0) then
               let result_key := (i, j) in
               old ← Store.dict_get rd result_key;
               _ ← Store.dict_setitem rd result_key (old + val1 * val2);
               now ← Store.dict_getitem rd result_key;
               if decide (now = 0) then Store.dict_delitem rd result_key
               else Store.skip
             else Store.skip) h
            = (Store.Return (), h')
            ∧ dict_at h0 rd d' h'
  | Err e =>
      ∃ h', (val2 ← Store.Integral.getElement other k j;
             if decide (val2 ≠ 0) then
               let result_key := (i, j) in
               old ← Store.dict_get rd result_key;
               _ ← Store.dict_setitem rd result_key (old + val1 * val2);
               now ← Store.dict_getitem rd result_key;
               if decide (now = 0) then Store.dict_delitem rd result_key
               else Store.skip
             else Store.skip) h
            = (Store.Raise (Store.Raised e), h')
            ∧ untouched h0 h'
  end.
Proof.
  intros Hd. pose proof Hd as (Hu & Hl & Hnew).
  pose proof (dict_at_operand h0 rd d h other B Hd other_at) as HB.
  pose proof (Integral_getElement_run h other B k j HB) as Hget.
  unfold Integral.multiply_step.
  destruct (Integral.getElement B k j) as [val2|e]; cbn [mbind result_bind].
  - rewrite (run_bind _ _ _ _ _ Hget).
    destruct (decide (val2 ≠ 0)); [|by exists h].
    cbn zeta.
    rewrite (run_bind _ _ _ _ _ (dict_get_run h rd d (i, j) Hl)).
    destruct (dict_at_setitem h0 rd d h (i, j)
                (dict_get0 d (i, j) + val1 * val2) Hd) as (h1 & Hset & Hd1).
    rewrite (run_bind _ _ _ _ _ Hset).
    pose proof Hd1 as (Hu1 & Hl1 & _).
    rewrite (run_bind _ _ _ _ _
               (dict_getitem_run h1 rd _ (i, j) _ Hl1
                  (lookup_insert_eq _ _ _))).
    rewrite dict_get0_insert.
    rewrite (decide_True (P := (i, j) = (i, j))) by done.
    destruct (decide (dict_get0 d (i, j) + val1 * val2 = 0)).
    + apply dict_at_delitem; [done|]. rewrite lookup_insert_eq. by eexists.
    + by exists h1.
  - exists h. split; [|done]. by rewrite (raise_bind _ _ _ _ _ Hget).
Qed.

Lemma Store_Integral_multiply_refines :
  match Integral.multiply A B with
  | Ok C => ∃ res h', Store.Integral.multiply self other h0
                      = (Store.Return res, h')
                      ∧ Store.matrix_at h' res = Some C
                      ∧ untouched h0 h'
  | Err e => ∃ h', Store.Integral.multiply self other h0
                   = (Store.Raise (Store.Raised e), h')
                   ∧ untouched h0 h'
  end.
Proof.
  unfold Store.Integral.multiply, Integral.multiply,
    Integral.multiply_in_order.
  rewrite (run_bind _ _ _ _ _ (attr_cols_run h0 self A self_at)).
  rewrite (run_bind _ _ _ _ _ (attr_rows_run h0 other B other_at)).
  destruct (decide (cols A ≠ rows B)).
  { exists h0. split; [done|]. by intros l o. }
  rewrite (run_bind _ _ _ _ _ (attr_rows_run h0 self A self_at)).
  rewrite (run_bind _ _ _ _ _ (attr_cols_run h0 other B other_at)).
  assert (dict_at h0 (fresh (dom h0)) ∅
            (<[fresh (dom h0) := Store.Dict ∅]> h0)) as Hd1.
  { split; [|split].
    - apply untouched_insert_new; [by intros l o|].
      apply untouched_fresh. by intros l o.
    - apply lookup_insert_eq.
    - apply untouched_fresh. by intros l o. }
  rewrite (run_bind _ _ (h0) (<[fresh (dom h0) := Store.Dict ∅]> h0)
             (fresh (dom h0))) by done.
  set (rd := fresh (dom h0)) in *.
  set (h1 := <[rd := Store.Dict ∅]> h0) in *.
  pose proof (dict_at_operand h0 rd _ h1 self A Hd1 self_at)
    as (dl & Hs & Hd)%matrix_at_Some.
  rewrite (run_bind _ _ _ _ _ (attr_data_run h1 self _ _ dl Hs)).
  rewrite (run_bind _ _ _ _ _ (dict_items_run h1 dl _ Hd)).
  cbn zeta.
  pose proof (for_in_for_each h0 (dict_at h0 rd)
                (Integral.multiply_entry B (cols B))
                (λ item : (Z * Z) * Z,
                   let '((i, k), val1) := item in
                   Store.for_in (range (cols B)) (λ j,
                     val2 ← Store.Integral.getElement other k j;
                     if decide (val2 ≠ 0) then
                       let result_key := (i, j) in
                       old ← Store.dict_get rd result_key;
                       _ ← Store.dict_setitem rd result_key
                             (old + val1 * val2);
                       now ← Store.dict_getitem rd result_key;
                       if decide (now = 0)
                       then Store.dict_delitem rd result_key
                       else Store.skip
                     else Store.skip))
                (map_to_list (data A))) as Hloop.
  specialize (Hloop
    (λ d item h _ Hdh,
       match item with
       | ((i, k), val1) =>
           for_in_for_each h0 (dict_at h0 rd)
             (Integral.multiply_step B i k val1) _ (range (cols B))
             (λ d' j h' _ Hd', Integral_multiply_step_run rd d' h' i k val1 j Hd')
             d h Hdh
       end) ∅ h1 Hd1).
  destruct (for_each (Integral.multiply_entry B (cols B))
              (map_to_list (data A)) ∅) as [d2|e]; cbn [mbind result_bind].
  - destruct Hloop as (h2 & Hrun & Hd2).
    rewrite (run_bind _ _ _ _ _ Hrun).
    by apply (Integral_init_run h0 h2 rd).
  - destruct Hloop as (h2 & Hrun & Hu2). exists h2. split; [|done].
    by rewrite (raise_bind _ _ _ _ _ Hrun).
Qed.

End integral_store.

(** * Further properties of the code *)

(** ** Addition and subtraction as operations on dictionaries *)

Lemma SparseMatrix_eq (M N : SparseMatrix) :
  rows M = rows N → cols M = cols N →
  (∀ k, data M !! k = data N !! k) → M = N.
Proof.
  destruct M as [r c d], N as [r' c' d']. cbn [rows cols data].
  intros -> -> Hd. f_equal. by apply map_eq.
Qed.

Lemma Code_add_spec (A B : SparseMatrix) :
  rows A = rows B → cols A = cols B →
  ∃ C, Code.add A B = Ok C ∧ rows C = rows A ∧ cols C = cols A
       ∧ ∀ k, data C !! k = merged Z.add A B k.
Proof.
  intros Hr Hc. unfold Code.add. rewrite Code_add_in_order_eq by done.
  eexists. split; [done|].
  rewrite (proj1 (loop_other_shape _ _ _ _)), (proj2 (loop_other_shape _ _ _ _)).
  rewrite (proj1 (loop_self_shape _ _ _ _)), (proj2 (loop_self_shape _ _ _ _)).
  split; [done|]. split; [done|].
  apply Code_add_lookup; apply listing_map_to_list.
Qed.

Lemma Code_subtract_spec (A B : SparseMatrix) :
  rows A = rows B → cols A = cols B →
  ∃ C, Code.subtract A B = Ok C ∧ rows C = rows A ∧ cols C = cols A
       ∧ ∀ k, data C !! k = merged Z.sub A B k.
Proof.
  intros Hr Hc. unfold Code.subtract.
  rewrite Code_subtract_in_order_eq by done.
  eexists. split; [done|].
  rewrite (proj1 (loop_other_shape _ _ _ _)), (proj2 (loop_other_shape _ _ _ _)).
  rewrite (proj1 (loop_self_shape _ _ _ _)), (proj2 (loop_self_shape _ _ _ _)).
  split; [done|]. split; [done|].
  apply Code_subtract_lookup; apply listing_map_to_list.
Qed.

Lemma Integral_add_spec (A B : SparseMatrix) :
  rows A = rows B → cols A = cols B →
  ∃ D, Integral.add A B = Ok D ∧ rows D = rows A ∧ cols D = cols A
       ∧ ∀ k, data D !! k = merged_raw Z.add A B k.
Proof.
  intros Hr Hc. unfold Integral.add.
  rewrite Integral_add_in_order_eq by done.
  eexists. split; [done|]. split; [done|]. split; [done|].
  intros k. cbn [data]. unfold merged_raw.
  rewrite merge_loop_lookup by apply NoDup_fst_map_to_list.
  by rewrite list_to_map_to_list.
Qed.

Lemma Integral_subtract_spec (A B : SparseMatrix) :
  rows A = rows B → cols A = cols B →
  ∃ D, Integral.subtract A B = Ok D ∧ rows D = rows A ∧ cols D = cols A
       ∧ ∀ k, data D !! k = merged_raw Z.sub A B k.
Proof.
  intros Hr Hc. unfold Integral.subtract.
  rewrite Integral_subtract_in_order_eq by done.
  eexists. split; [done|]. split; [done|]. split; [done|].
  intros k. cbn [data]. unfold merged_raw.
  rewrite merge_loop_lookup by apply NoDup_fst_map_to_list.
  by rewrite list_to_map_to_list.
Qed.

Lemma merged_get0 (op : Z → Z → Z) (A B : SparseMatrix) (o : option Z) k :
  op 0 0 = 0 → o = merged op A B k →
  default 0 o = op (dict_get0 (data A) k) (dict_get0 (data B) k).
Proof.
  intros H0 ->. unfold merged. destruct (decide _) as [Hk|Hk].
  - unfold elide. by destruct (decide _) as [->|].
  - assert (data A !! k = None) as HA.
    { apply eq_None_not_Some. intros ?. apply Hk. by left. }
    assert (data B !! k = None) as HB.
    { apply eq_None_not_Some. intros ?. apply Hk. by right. }
    unfold dict_get0. by rewrite HA, HB.
Qed.

Lemma merged_raw_get0 (op : Z → Z → Z) (A B : SparseMatrix) (o : option Z) k :
  (∀ a, op a 0 = a) → o = merged_raw op A B k →
  default 0 o = op (dict_get0 (data A) k) (dict_get0 (data B) k).
Proof.
  intros H0 ->. unfold merged_raw, dict_get0.
  destruct (data B !! k) as [v|]; destruct (data A !! k) as [a|];
    cbn [from_option id]; rewrite ?H0; try done.
  unfold elide. by destruct (decide _) as [->|].
Qed.

(** Without stored zeros, both versions build the same dictionary. *)
Lemma merged_raw_merged (op : Z → Z → Z) (A B : SparseMatrix) k :
  (∀ a, op a 0 = a) → (∀ v, v ≠ 0 → op 0 v ≠ 0) →
  no_stored_zero A → no_stored_zero B →
  merged_raw op A B k = merged op A B k.
Proof.
  intros H0 Hz HA HB. unfold merged_raw, merged, dict_get0.
  pose proof (HA k) as HAk. pose proof (HB k) as HBk.
  destruct (data B !! k) as [v|]; destruct (data A !! k) as [a|];
    case_decide as Hd; cbn [from_option id]; try done.
  - exfalso. apply Hd. by left.
  - unfold elide. rewrite decide_False; [done|]. apply Hz. congruence.
  - exfalso. apply Hd. by right.
  - rewrite H0. unfold elide. rewrite decide_False; [done|]. congruence.
  - exfalso. apply Hd. by left.
  - by destruct Hd as [[? ?]|[? ?]].
Qed.

(** X1: subtraction.  On operands of different shapes [subtract] raises the
    [ValueError] of the dimension check.  On operands of the same shape the
    result has that shape, and at every coordinate its value is the value of
    the first operand minus the value of the second; a coordinate where the
    difference is zero is not a key of the result.  In [src/integral-file]
    that last part holds of operands that store no zero. *)
Theorem subtract_subtracts_entries (A B : SparseMatrix) :
  (rows A ≠ rows B ∨ cols A ≠ cols B →
     Code.subtract A B = Err DimensionMismatch
     ∧ Integral.subtract A B = Err DimensionMismatch)
  ∧ (rows A = rows B → cols A = cols B →
     ∃ C, Code.subtract A B = Ok C
       ∧ rows C = rows A ∧ cols C = cols A
       ∧ (∀ i j, entry C i j = entry A i j - entry B i j)
       ∧ (∀ i j, entry A i j - entry B i j = 0 → data C !! (i, j) = None))
  ∧ (rows A = rows B → cols A = cols B →
     ∃ D, Integral.subtract A B = Ok D
       ∧ rows D = rows A ∧ cols D = cols A
       ∧ (∀ i j, entry D i j = entry A i j - entry B i j)
       ∧ (no_stored_zero A → no_stored_zero B →
          ∀ i j, entry A i j - entry B i j = 0 → data D !! (i, j) = None)).
Proof.
  split; [|split].
  - intros Hne. unfold Code.subtract, Code.subtract_in_order,
      Integral.subtract, Integral.subtract_in_order.
    by rewrite !decide_True.
  - intros Hr Hc.
    destruct (Code_subtract_spec A B Hr Hc) as (C & HC & HrC & HcC & HL).
    exists C. repeat split; try done.
    + intros i j. by apply (merged_get0 Z.sub A B).
    + intros i j Hz. rewrite HL. unfold merged, entry in *.
      destruct (decide _); [|done]. unfold elide. by rewrite decide_True.
  - intros Hr Hc.
    destruct (Integral_subtract_spec A B Hr Hc) as (D & HD & HrD & HcD & HL).
    exists D. repeat split; try done.
    + intros i j. apply (merged_raw_get0 Z.sub A B); [lia|done].
    + intros HA HB i j Hz. rewrite HL.
      rewrite merged_raw_merged; [|lia|lia|done|done].
      unfold merged, entry in *.
      destruct (decide _); [|done]. unfold elide. by rewrite decide_True.
Qed.

Lemma subtract_subtracts_entries_witness :
  let A := mkSparseMatrix 2 2 {[ (0, 0) := 5; (1, 1) := 2 ]} in
  let B := mkSparseMatrix 2 2 {[ (0, 0) := 5; (0, 1) := 3 ]} in
  let E := mkSparseMatrix 2 3 ∅ in
  (Code.subtract A E = Err DimensionMismatch
   ∧ Integral.subtract A E = Err DimensionMismatch)
  ∧ (∃ C, Code.subtract A B = Ok C ∧ entry C 0 1 = -3
          ∧ data C !! (0, 0) = None)
  ∧ (∃ D, Integral.subtract A B = Ok D ∧ entry D 0 1 = -3
          ∧ data D !! (0, 0) = None).
Proof.
  intros A B E.
  assert (wf A) as [_ HA] by (apply wf_check_wf; vm_compute; reflexivity).
  assert (wf B) as [_ HB] by (apply wf_check_wf; vm_compute; reflexivity).
  split; [|split].
  - apply (proj1 (subtract_subtracts_entries A E)). right. simpl. lia.
  - destruct (proj1 (proj2 (subtract_subtracts_entries A B)) eq_refl eq_refl)
      as (C & HC & _ & _ & Hv & Hz).
    exists C. split; [exact HC|]. split; [apply Hv|]. apply Hz. reflexivity.
  - destruct (proj2 (proj2 (subtract_subtracts_entries A B)) eq_refl eq_refl)
      as (D & HD & _ & _ & Hv & Hz).
    exists D. split; [exact HD|]. split; [apply Hv|].
    apply (Hz HA HB). reflexivity.
Defined.

(** X2: a matrix minus itself is the empty matrix of the same shape, in both
    versions and whatever the dictionary holds. *)
Theorem subtract_self_is_empty (m : SparseMatrix) :
  Code.subtract m m = Ok (mkSparseMatrix (rows m) (cols m) ∅)
  ∧ Integral.subtract m m = Ok (mkSparseMatrix (rows m) (cols m) ∅).
Proof.
  split.
  - destruct (Code_subtract_spec m m eq_refl eq_refl)
      as (C & -> & HrC & HcC & HL).
    f_equal. apply SparseMatrix_eq; [done|done|]. intros k.
    rewrite HL. cbn [data]. rewrite lookup_empty. unfold merged.
    destruct (decide _); [|done]. unfold elide.
    rewrite decide_True; [done|lia].
  - destruct (Integral_subtract_spec m m eq_refl eq_refl)
      as (D & -> & HrD & HcD & HL).
    f_equal. apply SparseMatrix_eq; [done|done|]. intros k.
    rewrite HL. cbn [data]. rewrite lookup_empty. unfold merged_raw.
    destruct (data m !! k) as [v|]; [|done].
    unfold elide. rewrite decide_True; [done|lia].
Qed.

(** X3: the empty matrix of the same shape is neutral for [add], on either
    side.  In [src/integral-file] the entries are copied as they are; in
    [src/code] every entry goes through [setElement], so the operand must
    store no zero to come back unchanged. *)
Theorem add_empty_is_neutral (m : SparseMatrix) :
  (Integral.add m (mkSparseMatrix (rows m) (cols m) ∅) = Ok m
   ∧ Integral.add (mkSparseMatrix (rows m) (cols m) ∅) m = Ok m)
  ∧ (no_stored_zero m →
     Code.add m (mkSparseMatrix (rows m) (cols m) ∅) = Ok m
     ∧ Code.add (mkSparseMatrix (rows m) (cols m) ∅) m = Ok m).
Proof.
  set (z := mkSparseMatrix (rows m) (cols m) ∅).
  split; [split|intros Hz; split].
  - destruct (Integral_add_spec m z eq_refl eq_refl)
      as (D & -> & HrD & HcD & HL).
    f_equal. apply SparseMatrix_eq; [done|done|]. intros k.
    rewrite HL. unfold merged_raw, z. cbn [data]. by rewrite lookup_empty.
  - destruct (Integral_add_spec z m eq_refl eq_refl)
      as (D & -> & HrD & HcD & HL).
    f_equal. apply SparseMatrix_eq; [done|done|]. intros k.
    rewrite HL. unfold merged_raw, z. cbn [data]. rewrite lookup_empty.
    by destruct (data m !! k).
  - destruct (Code_add_spec m z eq_refl eq_refl)
      as (C & -> & HrC & HcC & HL).
    f_equal. apply SparseMatrix_eq; [done|done|]. intros k.
    rewrite HL. unfold merged, z, dict_get0. cbn [data].
    rewrite lookup_empty. pose proof (Hz k) as Hk.
    destruct (data m !! k) as [v|]; case_decide as Hd;
      cbn [from_option id]; try done;
      try (exfalso; apply Hd; by (left + right));
      try (by destruct Hd as [[? ?]|[? ?]]);
      unfold elide; rewrite ?Z.add_0_r, ?Z.add_0_l;
      rewrite decide_False; congruence.
  - destruct (Code_add_spec z m eq_refl eq_refl)
      as (C & -> & HrC & HcC & HL).
    f_equal. apply SparseMatrix_eq; [done|done|]. intros k.
    rewrite HL. unfold merged, z, dict_get0. cbn [data].
    rewrite lookup_empty. pose proof (Hz k) as Hk.
    destruct (data m !! k) as [v|]; case_decide as Hd;
      cbn [from_option id]; try done;
      try (exfalso; apply Hd; by (left + right));
      try (by destruct Hd as [[? ?]|[? ?]]);
      unfold elide; rewrite ?Z.add_0_r, ?Z.add_0_l;
      rewrite decide_False; congruence.
Qed.

Lemma add_empty_is_neutral_witness :
  let m := mkSparseMatrix 2 2 {[ (0, 1) := 4; (1, 0) := -3 ]} in
  Code.add m (mkSparseMatrix 2 2 ∅) = Ok m
  ∧ Code.add (mkSparseMatrix 2 2 ∅) m = Ok m.
Proof.
  intros m.
  assert (wf m) as [_ Hz] by (apply wf_check_wf; vm_compute; reflexivity).
  exact (proj2 (add_empty_is_neutral m) Hz).
Defined.

(** X4: [add] is commutative.  In [src/code] the two calls return the same
    matrix whatever the dictionaries hold; in [src/integral-file], which
    copies the entries of its first operand as they are, they do for operands
    that store no zero. *)
Theorem add_commutes (A B : SparseMatrix) :
  Code.add A B = Code.add B A
  ∧ (no_stored_zero A → no_stored_zero B → Integral.add A B = Integral.add B A).
Proof.
  destruct (decide (rows A = rows B ∧ cols A = cols B)) as [[Hr Hc]|Hne].
  - split.
    + destruct (Code_add_spec A B Hr Hc) as (C & -> & HrC & HcC & HL).
      destruct (Code_add_spec B A (eq_sym Hr) (eq_sym Hc))
        as (C' & -> & HrC' & HcC' & HL').
      f_equal. apply SparseMatrix_eq; [congruence|congruence|].
      intros k. rewrite HL, HL'. unfold merged.
      rewrite (Z.add_comm (dict_get0 (data A) k)).
      destruct (decide (is_Some (data A !! k) ∨ is_Some (data B !! k)))
        as [Hk|Hk].
      * rewrite decide_True; [done|]. tauto.
      * rewrite decide_False; [done|]. tauto.
    + intros HA HB.
      destruct (Integral_add_spec A B Hr Hc) as (D & -> & HrD & HcD & HL).
      destruct (Integral_add_spec B A (eq_sym Hr) (eq_sym Hc))
        as (D' & -> & HrD' & HcD' & HL').
      f_equal. apply SparseMatrix_eq; [congruence|congruence|].
      intros k. rewrite HL, HL'.
      rewrite !merged_raw_merged; try done; try lia. unfold merged.
      rewrite (Z.add_comm (dict_get0 (data A) k)).
      destruct (decide (is_Some (data A !! k) ∨ is_Some (data B !! k)))
        as [Hk|Hk].
      * rewrite decide_True; [done|]. tauto.
      * rewrite decide_False; [done|]. tauto.
  - assert (rows A ≠ rows B ∨ cols A ≠ cols B) as Hd by lia.
    assert (rows B ≠ rows A ∨ cols B ≠ cols A) as Hd' by lia.
    unfold Code.add, Code.add_in_order, Integral.add, Integral.add_in_order.
    by rewrite !decide_True.
Qed.

Lemma add_commutes_witness :
  let A := mkSparseMatrix 2 2 {[ (0, 0) := 1; (1, 1) := 2 ]} in
  let B := mkSparseMatrix 2 2 {[ (0, 0) := -1; (0, 1) := 7 ]} in
  Integral.add A B = Integral.add B A
  ∧ Integral.add A B = Ok (mkSparseMatrix 2 2 {[ (0, 1) := 7; (1, 1) := 2 ]}).
Proof.
  intros A B.
  assert (wf A) as [_ HA] by (apply wf_check_wf; vm_compute; reflexivity).
  assert (wf B) as [_ HB] by (apply wf_check_wf; vm_compute; reflexivity).
  split; [exact (proj2 (add_commutes A B) HA HB)|].
  vm_compute. reflexivity.
Defined.

(** X5: [subtract] undoes [add].  For operands of the same shape that store
    no zero, subtracting [B] from the sum of [A] and [B] gives [A] back, in
    both versions. *)
Theorem subtract_undoes_add (A B : SparseMatrix) :
  rows A = rows B → cols A = cols B →
  no_stored_zero A → no_stored_zero B →
  (∃ C, Code.add A B = Ok C ∧ Code.subtract C B = Ok A)
  ∧ (∃ D, Integral.add A B = Ok D ∧ Integral.subtract D B = Ok A).
Proof.
  intros Hr Hc HA HB.
  assert (∀ C, rows C = rows A → cols C = cols A →
            (∀ k, data C !! k = merged Z.add A B k) →
            ∀ k, merged Z.sub C B k = data A !! k) as Hback.
  { intros C HrC HcC HL k. unfold merged.
    assert (dict_get0 (data C) k
            = dict_get0 (data A) k + dict_get0 (data B) k) as ->.
    { apply (merged_get0 Z.add A B); [done|]. by rewrite HL. }
    replace (dict_get0 (data A) k + dict_get0 (data B) k
             - dict_get0 (data B) k) with (dict_get0 (data A) k) by lia.
    fold (elide (dict_get0 (data A) k)).
    assert (data A !! k = elide (dict_get0 (data A) k)) as HAk.
    { unfold elide. by apply lookup_of_get0. }
    rewrite HL. unfold merged.
    destruct (decide (is_Some (data A !! k) ∨ is_Some (data B !! k)))
      as [Hk|Hk].
    - destruct (decide _) as [|Hn]; [done|].
      destruct (data B !! k) as [v|] eqn:HBk.
      + exfalso. apply Hn. right. by eexists.
      + destruct Hk as [[a Ha]|[? ?]]; [|done].
        exfalso. apply Hn. left.
        unfold dict_get0. rewrite Ha, HBk. cbn [from_option id].
        rewrite Z.add_0_r. unfold elide. rewrite decide_False; [by eexists|].
        intros ->. by apply (HA k).
    - rewrite decide_False.
      + symmetry. apply eq_None_not_Some. intros ?. apply Hk. by left.
      + intros [[? ?]|?]; [done|]. apply Hk. by right. }
  split.
  - destruct (Code_add_spec A B Hr Hc) as (C & HC & HrC & HcC & HL).
    exists C. split; [done|].
    destruct (Code_subtract_spec C B) as (E & -> & HrE & HcE & HLE);
      [congruence|congruence|].
    f_equal. apply SparseMatrix_eq; [congruence|congruence|].
    intros k. rewrite HLE. by apply Hback.
  - destruct (Integral_add_spec A B Hr Hc) as (D & HD & HrD & HcD & HL).
    exists D. split; [done|].
    assert (∀ k, data D !! k = merged Z.add A B k) as HL'.
    { intros k. rewrite HL. apply merged_raw_merged; try done; lia. }
    assert (no_stored_zero D) as HDz.
    { intros k. rewrite HL'. unfold merged, elide.
      repeat case_decide; congruence. }
    destruct (Integral_subtract_spec D B) as (E & -> & HrE & HcE & HLE);
      [congruence|congruence|].
    f_equal. apply SparseMatrix_eq; [congruence|congruence|].
    intros k. rewrite HLE.
    rewrite merged_raw_merged; try done; try lia. by apply Hback.
Qed.

Lemma subtract_undoes_add_witness :
  let A := mkSparseMatrix 2 2 {[ (0, 0) := 1; (1, 1) := 2 ]} in
  let B := mkSparseMatrix 2 2 {[ (0, 0) := -1; (0, 1) := 7 ]} in
  (∃ C, Code.add A B = Ok C ∧ Code.subtract C B = Ok A)
  ∧ (∃ D, Integral.add A B = Ok D ∧ Integral.subtract D B = Ok A).
Proof.
  intros A B.
  assert (wf A) as [_ HA] by (apply wf_check_wf; vm_compute; reflexivity).
  assert (wf B) as [_ HB] by (apply wf_check_wf; vm_compute; reflexivity).
  exact (subtract_undoes_add A B eq_refl eq_refl HA HB).
Defined.

(** ** Reading after writing an element *)

(** X6: [getElement] after [setElement].  After [setElement(r, c, v)] the
    value at [(r, c)] is [v] (also for [v = 0], where the key is removed)
    and the value at every other coordinate is what it was; the shape does
    not change.  In [src/code] this holds at all coordinates; in
    [src/integral-file] at the coordinates inside the shape, the others
    being refused. *)
Theorem get_after_set (m : SparseMatrix) (r c v : Z) :
  (rows (Code.setElement m r c v) = rows m
   ∧ cols (Code.setElement m r c v) = cols m
   ∧ ∀ r' c', Code.getElement (Code.setElement m r c v) r' c'
              = if decide ((r, c) = (r', c')) then v
                else Code.getElement m r' c')
  ∧ (in_bounds m r c →
     ∃ m', Integral.setElement m r c v = Ok m'
           ∧ rows m' = rows m ∧ cols m' = cols m
           ∧ ∀ r' c', in_bounds m r' c' →
               Integral.getElement m' r' c'
               = Ok (if decide ((r, c) = (r', c')) then v else entry m r' c')).
Proof.
  assert (∀ d k, dict_get0 (if decide (v = 0) then delete (r, c) d
                            else <[(r, c) := v]> d) k
                 = if decide ((r, c) = k) then v else dict_get0 d k) as Hget.
  { intros d k. destruct (decide (v = 0)) as [->|Hv].
    - apply dict_get0_delete.
    - apply dict_get0_insert. }
  split.
  - split; [apply Code_setElement_rows|]. split; [apply Code_setElement_cols|].
    intros r' c'. unfold Code.getElement.
    rewrite Code_setElement_data. apply Hget.
  - intros Hin.
    destruct (Integral_setElement_in m r c v Hin) as (m' & Hset & Hr & Hc & Hd).
    exists m'. split; [done|]. split; [done|]. split; [done|].
    intros r' c' Hin'. rewrite Integral_getElement_in.
    + unfold entry. rewrite Hd. by rewrite Hget.
    + unfold in_bounds in *. by rewrite Hr, Hc.
Qed.

Lemma get_after_set_witness :
  let m := mkSparseMatrix 2 2 {[ (0, 0) := 3 ]} in
  ∃ m', Integral.setElement m 1 0 8 = Ok m'
        ∧ Integral.getElement m' 1 0 = Ok 8
        ∧ Integral.getElement m' 0 0 = Ok 3.
Proof.
  intros m.
  assert (in_bounds m 1 0) as H10 by (unfold in_bounds; simpl; lia).
  assert (in_bounds m 0 0) as H00 by (unfold in_bounds; simpl; lia).
  destruct (proj2 (get_after_set m 1 0 8) H10) as (m' & Hset & _ & _ & Hget).
  exists m'. split; [exact Hset|]. split.
  - exact (Hget 1 0 H10).
  - exact (Hget 0 0 H00).
Defined.

(** ** Products *)

Lemma entry_dense_product (A B : SparseMatrix) (i j : Z) :
  entry (dense_product A B) i j
  = if decide (0 ≤ i < rows A ∧ 0 ≤ j < cols B) then dot A B i j else 0.
Proof.
  destruct (dense_product_spec A B) as (_ & _ & HL).
  unfold entry, dict_get0. rewrite HL.
  destruct (decide (0 ≤ i < rows A ∧ 0 ≤ j < cols B ∧ dot A B i j ≠ 0))
    as [(Hi & Hj & Hd)|Hn]; cbn [from_option id].
  - by rewrite decide_True.
  - destruct (decide (0 ≤ i < rows A ∧ 0 ≤ j < cols B)) as [[Hi Hj]|]; [|done].
    destruct (decide (dot A B i j = 0)); [done|]. exfalso. by apply Hn.
Qed.

(** The dictionary of a matrix without stored zero whose keys lie in its
    shape, from its values. *)
Lemma wf_lookup (M : SparseMatrix) (i j : Z) :
  wf M →
  data M !! (i, j)
  = if decide (0 ≤ i < rows M ∧ 0 ≤ j < cols M ∧ entry M i j ≠ 0)
    then Some (entry M i j) else None.
Proof.
  intros [Hk Hz]. unfold entry. rewrite (lookup_of_get0 (data M) (i, j))
    by apply Hz.
  destruct (decide (dict_get0 (data M) (i, j) = 0)) as [He|Hne].
  - rewrite decide_False; [done|]. by intros (_ & _ & ?).
  - rewrite decide_True; [done|].
    assert (is_Some (data M !! (i, j))) as [v Hv].
    { unfold dict_get0 in Hne. by destruct (data M !! (i, j)); [eexists|]. }
    apply Hk in Hv. destruct Hv as [Hi Hj]. done.
Qed.

Lemma identity_lookup (n i k : Z) :
  data (identity n) !! (i, k)
  = if decide (i = k ∧ 0 ≤ i < n) then Some 1 else None.
Proof.
  unfold identity. cbn [data].
  assert (NoDup ((λ i : Z, ((i, i), 1)) <$> range n).*1) as Hnd.
  { rewrite <- list_fmap_compose. apply NoDup_fmap_2; [|apply NoDup_range].
    intros x y [= ->]. done. }
  destruct (decide (i = k ∧ 0 ≤ i < n)) as [[-> Hi]|Hn].
  - apply elem_of_list_to_map; [done|].
    apply list_elem_of_fmap. exists k. split; [done|]. by apply elem_of_range.
  - apply not_elem_of_list_to_map_1. rewrite <- list_fmap_compose.
    intros (x & [= -> ->] & Hx)%list_elem_of_fmap. apply Hn.
    split; [done|]. by apply elem_of_range.
Qed.

Lemma identity_wf (n : Z) : wf (identity n).
Proof.
  split.
  - intros i k v. rewrite identity_lookup.
    destruct (decide _) as [[-> Hi]|]; [|done]. intros _. by split.
  - intros [i k]. rewrite identity_lookup. by destruct (decide _).
Qed.

Lemma entry_identity (n i k : Z) :
  entry (identity n) i k = if decide (i = k ∧ 0 ≤ i < n) then 1 else 0.
Proof.
  unfold entry, dict_get0. rewrite identity_lookup. by destruct (decide _).
Qed.

Lemma dot_identity_left (M : SparseMatrix) (i j : Z) :
  dot (identity (rows M)) M i j
  = if decide (0 ≤ i < rows M) then entry M i j else 0.
Proof.
  unfold dot. cbn [identity cols].
  rewrite (sumZ_ext _ (λ k, if decide (k = i)
                            then (if decide (0 ≤ i < rows M)
                                  then entry M i j else 0)
                            else 0)).
  - rewrite sumZ_single by apply NoDup_range.
    destruct (decide (i ∈ range (rows M))) as [Hi|Hi];
      rewrite elem_of_range in Hi.
    + done.
    + by rewrite decide_False.
  - intros k _. rewrite entry_identity.
    destruct (decide (k = i)) as [->|Hne].
    + destruct (decide (0 ≤ i < rows M)).
      * rewrite decide_True by done. lia.
      * rewrite decide_False by (by intros [_ ?]). lia.
    + rewrite decide_False by (intros [? _]; congruence). lia.
Qed.

Lemma dot_identity_right (M : SparseMatrix) (i j : Z) :
  dot M (identity (cols M)) i j
  = if decide (0 ≤ j < cols M) then entry M i j else 0.
Proof.
  unfold dot.
  rewrite (sumZ_ext _ (λ k, if decide (k = j)
                            then (if decide (0 ≤ j < cols M)
                                  then entry M i j else 0)
                            else 0)).
  - rewrite sumZ_single by apply NoDup_range.
    destruct (decide (j ∈ range (cols M))) as [Hj|Hj];
      rewrite elem_of_range in Hj.
    + done.
    + by rewrite decide_False.
  - intros k _. rewrite entry_identity.
    destruct (decide (k = j)) as [->|Hne].
    + destruct (decide (0 ≤ j < cols M)).
      * rewrite decide_True by done. lia.
      * rewrite decide_False by (by intros [_ ?]). lia.
    + rewrite decide_False by (by intros [? _]). lia.
Qed.

(** X7: the identity matrix is neutral for [multiply].  For a matrix [M]
    that satisfies the invariants of the data model, the product of the
    identity of size [M.rows] with [M], and the product of [M] with the
    identity of size [M.cols], are [M] itself, in both versions. *)
Theorem multiply_by_identity (M : SparseMatrix) :
  wf M →
  (Code.multiply (identity (rows M)) M = Ok M
   ∧ Code.multiply M (identity (cols M)) = Ok M)
  ∧ (Integral.multiply (identity (rows M)) M = Ok M
     ∧ Integral.multiply M (identity (cols M)) = Ok M).
Proof.
  intros HM.
  assert (Code.multiply (identity (rows M)) M = Ok M) as HL.
  { rewrite Code_multiply_eq by done. f_equal.
    destruct (dense_product_spec (identity (rows M)) M) as (Hr & Hc & HL).
    apply SparseMatrix_eq; [done|done|]. intros [i j].
    rewrite HL, (wf_lookup M i j HM), dot_identity_left. cbn [identity rows].
    repeat case_decide; try done; exfalso; tauto. }
  assert (Code.multiply M (identity (cols M)) = Ok M) as HR.
  { rewrite Code_multiply_eq by done. f_equal.
    destruct (dense_product_spec M (identity (cols M))) as (Hr & Hc & HR).
    apply SparseMatrix_eq; [done|done|]. intros [i j].
    rewrite HR, (wf_lookup M i j HM), dot_identity_right. cbn [identity cols].
    repeat case_decide; try done; exfalso; tauto. }
  split; [done|]. split.
  - unfold Integral.multiply. rewrite products_agree; [done| |done|].
    + apply identity_wf.
    + apply listing_map_to_list.
  - unfold Integral.multiply. rewrite products_agree; [done| |done|].
    + apply HM.
    + apply listing_map_to_list.
Qed.

Lemma multiply_by_identity_witness :
  let M := mkSparseMatrix 2 3 {[ (0, 0) := 4; (1, 2) := -7 ]} in
  (Code.multiply (identity 2) M = Ok M ∧ Code.multiply M (identity 3) = Ok M)
  ∧ (Integral.multiply (identity 2) M = Ok M
     ∧ Integral.multiply M (identity 3) = Ok M).
Proof.
  intros M.
  assert (wf M) as HM by (apply wf_check_wf; vm_compute; reflexivity).
  exact (multiply_by_identity M HM).
Defined.

Lemma sumZ_scale_l {A : Type} (c : Z) (f : A → Z) (l : list A) :
  sumZ ((λ x, c * f x) <$> l) = c * sumZ (f <$> l).
Proof.
  induction l as [|x l IH]; [cbn; lia|].
  rewrite !fmap_cons, !sumZ_cons, IH. lia.
Qed.

Lemma sumZ_scale_r {A : Type} (c : Z) (f : A → Z) (l : list A) :
  sumZ ((λ x, f x * c) <$> l) = sumZ (f <$> l) * c.
Proof.
  induction l as [|x l IH]; [cbn; lia|].
  rewrite !fmap_cons, !sumZ_cons, IH. lia.
Qed.

Lemma sumZ_exchange {A B : Type} (f : A → B → Z) (ks : list A) (ls : list B) :
  sumZ ((λ k, sumZ ((λ l, f k l) <$> ls)) <$> ks)
  = sumZ ((λ l, sumZ ((λ k, f k l) <$> ks)) <$> ls).
Proof.
  induction ks as [|k ks IH].
  - cbn [fmap list_fmap sumZ foldr]. symmetry. by apply sumZ_zero.
  - rewrite fmap_cons, sumZ_cons, IH.
    rewrite <- (sumZ_plus (λ l, f k l)). apply sumZ_ext. intros l _.
    by rewrite fmap_cons, sumZ_cons.
Qed.

(** The coefficients of a product with a sum *)
Lemma dot_add_right (A B C S : SparseMatrix) (i j : Z) :
  (∀ k, entry S k j = entry B k j + entry C k j) →
  dot A S i j = dot A B i j + dot A C i j.
Proof.
  intros HS. unfold dot. rewrite <- sumZ_plus. apply sumZ_ext.
  intros k _. rewrite HS. lia.
Qed.

Lemma dot_ext_right (A S S' : SparseMatrix) (i j : Z) :
  (∀ k, entry S k j = entry S' k j) → dot A S i j = dot A S' i j.
Proof.
  intros HS. unfold dot. apply sumZ_ext. intros k _. by rewrite HS.
Qed.

Lemma dense_product_lookup_in (A B : SparseMatrix) (i j : Z) :
  0 ≤ i < rows A ∧ 0 ≤ j < cols B →
  data (dense_product A B) !! (i, j) = elide (dot A B i j).
Proof.
  intros Hin. destruct (dense_product_spec A B) as (_ & _ & HL).
  rewrite HL. unfold elide. repeat case_decide; try done; exfalso; tauto.
Qed.

Lemma dense_product_lookup_out (A B : SparseMatrix) (i j : Z) :
  ¬ (0 ≤ i < rows A ∧ 0 ≤ j < cols B) →
  data (dense_product A B) !! (i, j) = None.
Proof.
  intros Hout. destruct (dense_product_spec A B) as (_ & _ & HL).
  rewrite HL. case_decide; [exfalso; tauto|done].
Qed.

Lemma is_Some_elide (v : Z) : is_Some (elide v) ↔ v ≠ 0.
Proof.
  unfold elide. case_decide; split; intros H'; try done;
    first [by destruct H' | by eexists].
Qed.

Lemma get0_elide (v : Z) : from_option id 0 (elide v) = v.
Proof. unfold elide. by case_decide. Qed.

(** The sum of two dense products is the dense product with the sum. *)
Lemma distributes_lookup (A B C S T : SparseMatrix) :
  cols S = cols B → cols C = cols B →
  (∀ i j, entry S i j = entry B i j + entry C i j) →
  rows T = rows A → cols T = cols B →
  (∀ k, data T !! k
        = merged Z.add (dense_product A B) (dense_product A C) k) →
  dense_product A S = T.
Proof.
  intros HcS HcC HS HrT HcT HT.
  destruct (dense_product_spec A S) as (Hr & Hc & _).
  apply SparseMatrix_eq; [congruence|congruence|]. intros [i j].
  rewrite HT. unfold merged, dict_get0.
  destruct (decide (0 ≤ i < rows A ∧ 0 ≤ j < cols B)) as [Hin|Hout].
  - rewrite !dense_product_lookup_in by (rewrite ?HcS, ?HcC; done).
    rewrite !get0_elide.
    rewrite (dot_add_right A B C S) by (intros k; apply HS).
    case_decide as Hd; [done|]. rewrite !is_Some_elide in Hd.
    unfold elide. rewrite decide_True; [done|].
    destruct (decide (dot A B i j = 0)), (decide (dot A C i j = 0));
      try lia; exfalso; tauto.
  - rewrite !dense_product_lookup_out by (rewrite ?HcS, ?HcC; done).
    rewrite decide_False; [done|]. intros [[? ?]|[? ?]]; done.
Qed.

Lemma dense_product_wf (A B : SparseMatrix) : wf (dense_product A B).
Proof.
  destruct (dense_product_spec A B) as (Hr & Hc & HL). split.
  - intros i j v. rewrite HL. unfold in_bounds. rewrite Hr, Hc.
    case_decide; [tauto|done].
  - intros [i j]. rewrite HL. case_decide; [|done].
    intros [= Hz]. tauto.
Qed.

Lemma Integral_multiply_dense (A B : SparseMatrix) :
  keys_in_bounds A → cols A = rows B →
  Integral.multiply A B = Ok (dense_product A B).
Proof.
  intros HA Hd. unfold Integral.multiply.
  rewrite products_agree; [by apply Code_multiply_eq|done|done|].
  apply listing_map_to_list.
Qed.

(** X8: [multiply] distributes over [add] on the right.  With
    [A.cols == B.rows] and [B], [C] of one shape, multiplying [A] by the sum
    of [B] and [C] returns the same matrix as adding the two products, in
    [src/code] for all operands, in [src/integral-file] for an [A] whose
    keys lie inside its shape. *)
Theorem multiply_distributes_over_add (A B C : SparseMatrix) :
  cols A = rows B → rows B = rows C → cols B = cols C →
  (∃ S P1 P2 T,
      Code.add B C = Ok S
      ∧ Code.multiply A B = Ok P1 ∧ Code.multiply A C = Ok P2
      ∧ Code.add P1 P2 = Ok T
      ∧ Code.multiply A S = Ok T)
  ∧ (keys_in_bounds A →
     ∃ S P1 P2 T,
      Integral.add B C = Ok S
      ∧ Integral.multiply A B = Ok P1 ∧ Integral.multiply A C = Ok P2
      ∧ Integral.add P1 P2 = Ok T
      ∧ Integral.multiply A S = Ok T).
Proof.
  intros Hd Hr Hc.
  destruct (dense_product_spec A B) as (Hr1 & Hc1 & _).
  destruct (dense_product_spec A C) as (Hr2 & Hc2 & _).
  split.
  - destruct (Code_add_spec B C Hr Hc) as (S & HS & HrS & HcS & HLS).
    destruct (Code_add_spec (dense_product A B) (dense_product A C))
      as (T & HT & HrT & HcT & HLT); [congruence|congruence|].
    exists S, (dense_product A B), (dense_product A C), T.
    split; [done|]. rewrite !Code_multiply_eq by congruence.
    split; [done|]. split; [done|]. split; [done|]. f_equal.
    apply (distributes_lookup A B C S T); try congruence.
    intros i j. unfold entry.
    by apply (merged_get0 Z.add B C (data S !! (i, j)) (i, j)).
  - intros HA.
    destruct (Integral_add_spec B C Hr Hc) as (S & HS & HrS & HcS & HLS).
    destruct (Integral_add_spec (dense_product A B) (dense_product A C))
      as (T & HT & HrT & HcT & HLT); [congruence|congruence|].
    exists S, (dense_product A B), (dense_product A C), T.
    split; [done|]. rewrite !Integral_multiply_dense by (done || congruence).
    split; [done|]. split; [done|]. split; [done|]. f_equal.
    apply (distributes_lookup A B C S T); try congruence.
    + intros i j. unfold entry.
      apply (merged_raw_get0 Z.add B C (data S !! (i, j)) (i, j));
        [intros a; lia|done].
    + intros k. rewrite HLT. apply merged_raw_merged.
      * intros a. lia.
      * intros v Hv. lia.
      * apply dense_product_wf.
      * apply dense_product_wf.
Qed.

Lemma multiply_distributes_over_add_witness :
  let A := mkSparseMatrix 2 2 {[ (0, 0) := 1; (0, 1) := 2; (1, 1) := 3 ]} in
  let B := mkSparseMatrix 2 2 {[ (0, 0) := 2; (1, 0) := -1 ]} in
  let C := mkSparseMatrix 2 2 {[ (0, 0) := -2; (1, 1) := 5 ]} in
  (∃ S P1 P2 T,
    Code.add B C = Ok S
    ∧ Code.multiply A B = Ok P1 ∧ Code.multiply A C = Ok P2
    ∧ Code.add P1 P2 = Ok T
    ∧ Code.multiply A S = Ok T)
  ∧ (∃ S P1 P2 T,
    Integral.add B C = Ok S
    ∧ Integral.multiply A B = Ok P1 ∧ Integral.multiply A C = Ok P2
    ∧ Integral.add P1 P2 = Ok T
    ∧ Integral.multiply A S = Ok T).
Proof.
  intros A B C.
  assert (wf A) as [HA _] by (apply wf_check_wf; vm_compute; reflexivity).
  destruct (multiply_distributes_over_add A B C eq_refl eq_refl eq_refl)
    as [H1 H2].
  split; [exact H1|exact (H2 HA)].
Defined.

(** The coefficients of a product of three matrices *)
Lemma dot_assoc (A B C : SparseMatrix) (i j : Z) :
  cols A = rows B → 0 ≤ i < rows A → 0 ≤ j < cols C →
  dot (dense_product A B) C i j = dot A (dense_product B C) i j.
Proof.
  intros Hd Hi Hj. unfold dot.
  destruct (dense_product_spec A B) as (_ & -> & _).
  rewrite (sumZ_ext _ (λ l, sumZ ((λ k, entry A i k * entry B k l * entry C l j)
                                    <$> range (cols A))) (range (cols B))).
  2:{ intros l Hl%elem_of_range. rewrite entry_dense_product.
      rewrite decide_True by done. unfold dot.
      by rewrite <- sumZ_scale_r. }
  rewrite (sumZ_ext _ (λ k, sumZ ((λ l, entry A i k * entry B k l * entry C l j)
                                    <$> range (cols B))) (range (cols A))).
  2:{ intros k Hk%elem_of_range. rewrite entry_dense_product.
      rewrite decide_True by (split; [lia|done]). unfold dot.
      rewrite <- sumZ_scale_l. apply sumZ_ext. intros l _. lia. }
  apply (sumZ_exchange (λ l k, entry A i k * entry B k l * entry C l j)).
Qed.

Lemma dense_product_assoc (A B C : SparseMatrix) :
  cols A = rows B →
  dense_product (dense_product A B) C = dense_product A (dense_product B C).
Proof.
  intros Hd.
  destruct (dense_product_spec (dense_product A B) C) as (Hr1 & Hc1 & HL1).
  destruct (dense_product_spec A (dense_product B C)) as (Hr2 & Hc2 & HL2).
  destruct (dense_product_spec A B) as (HrAB & HcAB & _).
  destruct (dense_product_spec B C) as (HrBC & HcBC & _).
  apply SparseMatrix_eq; [congruence|congruence|]. intros [i j].
  rewrite HL1, HL2, HrAB, HcBC.
  destruct (decide (0 ≤ i < rows A ∧ 0 ≤ j < cols C)) as [[Hi Hj]|Hout].
  - rewrite dot_assoc by done.
    repeat case_decide; try done; exfalso; tauto.
  - repeat case_decide; try done; exfalso; tauto.
Qed.

(** X9: [multiply] is associative.  With [A.cols == B.rows] and
    [B.cols == C.rows], multiplying the product of [A] and [B] by [C]
    returns the same matrix as multiplying [A] by the product of [B] and
    [C], in [src/code] for all operands, in [src/integral-file] for [A] and
    [B] whose keys lie inside their shapes. *)
Theorem multiply_is_associative (A B C : SparseMatrix) :
  cols A = rows B → cols B = rows C →
  (∃ AB BC P,
      Code.multiply A B = Ok AB ∧ Code.multiply B C = Ok BC
      ∧ Code.multiply AB C = Ok P ∧ Code.multiply A BC = Ok P)
  ∧ (keys_in_bounds A → keys_in_bounds B →
     ∃ AB BC P,
      Integral.multiply A B = Ok AB ∧ Integral.multiply B C = Ok BC
      ∧ Integral.multiply AB C = Ok P ∧ Integral.multiply A BC = Ok P).
Proof.
  intros Hd1 Hd2.
  destruct (dense_product_spec A B) as (HrAB & HcAB & _).
  destruct (dense_product_spec B C) as (HrBC & HcBC & _).
  split.
  - exists (dense_product A B), (dense_product B C),
      (dense_product A (dense_product B C)).
    rewrite !Code_multiply_eq by congruence.
    split; [done|]. split; [done|]. split; [|done].
    by rewrite dense_product_assoc.
  - intros HA HB.
    exists (dense_product A B), (dense_product B C),
      (dense_product A (dense_product B C)).
    rewrite (Integral_multiply_dense A B) by done.
    rewrite (Integral_multiply_dense B C) by done.
    rewrite (Integral_multiply_dense (dense_product A B) C)
      by (apply dense_product_wf || congruence).
    rewrite (Integral_multiply_dense A (dense_product B C))
      by (done || congruence).
    split; [done|]. split; [done|]. split; [|done].
    by rewrite dense_product_assoc.
Qed.

Lemma multiply_is_associative_witness :
  let A := mkSparseMatrix 2 3 {[ (0, 0) := 1; (0, 2) := -2; (1, 1) := 3 ]} in
  let B := mkSparseMatrix 3 2 {[ (0, 0) := 2; (2, 0) := 1; (1, 1) := 5 ]} in
  let C := mkSparseMatrix 2 2 {[ (0, 1) := 4; (1, 0) := -1 ]} in
  (∃ AB BC P,
      Code.multiply A B = Ok AB ∧ Code.multiply B C = Ok BC
      ∧ Code.multiply AB C = Ok P ∧ Code.multiply A BC = Ok P)
  ∧ (∃ AB BC P,
      Integral.multiply A B = Ok AB ∧ Integral.multiply B C = Ok BC
      ∧ Integral.multiply AB C = Ok P ∧ Integral.multiply A BC = Ok P).
Proof.
  intros A B C.
  assert (wf A) as [HA _] by (apply wf_check_wf; vm_compute; reflexivity).
  assert (wf B) as [HB _] by (apply wf_check_wf; vm_compute; reflexivity).
  destruct (multiply_is_associative A B C eq_refl eq_refl) as [H1 H2].
  split; [exact H1|exact (H2 HA HB)].
Defined.

(** ** The readers: entry lines in the order of the file *)

Lemma last_write_snoc (items : list ((Z * Z) * Z)) (k' : Z * Z) (v : Z) k :
  last_write (items ++ [(k', v)]) k
  = if decide (k' = k) then Some v else last_write items k.
Proof.
  unfold last_write. rewrite reverse_snoc. cbn [list_to_map foldr fst snd].
  by rewrite lookup_insert.
Qed.

Lemma assign_all_lookup (items : list ((Z * Z) * Z)) (d : gmap (Z * Z) Z) k :
  assign_all items d !! k
  = match last_write items k with Some v => Some v | None => d !! k end.
Proof.
  induction items as [|[k' v] items IH] using rev_ind.
  - unfold last_write. cbn. by rewrite lookup_empty.
  - unfold assign_all in *. rewrite foldl_snoc, last_write_snoc.
    cbn [fst snd]. rewrite lookup_insert.
    destruct (decide (k' = k)); [done|]. apply IH.
Qed.

Lemma set_all_lookup (items : list ((Z * Z) * Z)) (m0 : SparseMatrix) k :
  data (foldl (λ m kv, Code.setElement m kv.1.1 kv.1.2 kv.2) m0 items) !! k
  = match last_write items k with Some v => elide v | None => data m0 !! k end.
Proof.
  induction items as [|[[r c] v] items IH] using rev_ind.
  - unfold last_write. cbn. by rewrite lookup_empty.
  - rewrite foldl_snoc, last_write_snoc. cbn [fst snd].
    rewrite Code_setElement_lookup.
    destruct (decide ((r, c) = k)); [done|]. apply IH.
Qed.

Lemma set_all_shape (items : list ((Z * Z) * Z)) (m0 : SparseMatrix) :
  rows (foldl (λ m kv, Code.setElement m kv.1.1 kv.1.2 kv.2) m0 items) = rows m0
  ∧ cols (foldl (λ m kv, Code.setElement m kv.1.1 kv.1.2 kv.2) m0 items)
    = cols m0.
Proof.
  induction items as [|[[r c] v] items IH] using rev_ind; [done|].
  rewrite foldl_snoc. cbn [fst snd].
  by rewrite Code_setElement_rows, Code_setElement_cols.
Qed.

Lemma Code_readFile_entries_any nr nc items m0 :
  (∀ r c v, ((r, c), v) ∈ items → r < nr ∧ c < nc) →
  for_each_opt (Code.readFile_entry nr nc) (entry_body <$> items) m0
  = Some (foldl (λ m kv, Code.setElement m kv.1.1 kv.1.2 kv.2) m0 items).
Proof.
  revert m0. induction items as [|[[r c] v] items IH]; intros m0 Hall.
  - done.
  - rewrite fmap_cons. cbn [for_each_opt foldl fst snd].
    destruct (Hall r c v) as (Hlr & Hlc); [left|].
    rewrite Code_readFile_entry_body by done. cbn [mbind option_bind].
    apply IH. intros r' c' v' Hin. apply (Hall r' c' v'). by right.
Qed.

(** X10: entry lines are applied in the order of the file, and the last
    line for a coordinate wins.  The text is the header for [nr] rows and
    [nc] columns followed by one entry line for each item of a list, which
    may name a coordinate more than once and may hold zeros.  [readFile]
    accepts it when every coordinate is below the shape, and the matrix it
    returns holds at each coordinate the value of the last line for it,
    unless that value is zero: then the coordinate is not a key.
    [load_from_file] accepts it when no coordinate is negative, and holds
    at each coordinate the value of the last line for it, zero included. *)
Theorem readers_keep_the_last_entry (nr nc : Z)
    (items : list ((Z * Z) * Z)) :
  let text := write_in_order items (mkSparseMatrix nr nc ∅) in
  ((∀ r c v, ((r, c), v) ∈ items → r < nr ∧ c < nc) →
     ∃ m, Code.readFile text = Ok m ∧ rows m = nr ∧ cols m = nc
          ∧ ∀ k, data m !! k = last_write items k ≫= elide)
  ∧ ((∀ r c v, ((r, c), v) ∈ items → 0 ≤ r ∧ 0 ≤ c) →
     ∃ m, Integral.load_from_file text = Ok m ∧ rows m = nr ∧ cols m = nc
          ∧ ∀ k, data m !! k = last_write items k).
Proof.
  intros text. unfold text. split.
  - intros Hall. unfold Code.readFile. rewrite file_lines_write.
    rewrite decide_False by (cbn [length]; lia).
    cbn [lookup list_lookup fmap option_fmap option_map mbind option_bind].
    rewrite split_rows_header, split_cols_header.
    rewrite decide_False by (cbn [length]; intros [?|?]; done).
    cbn [lookup list_lookup mbind option_bind rows cols].
    rewrite !py_int_py_str. cbn [mbind option_bind drop]. rewrite drop_0.
    rewrite Code_readFile_entries_any by done. cbn [try_except].
    eexists. split; [done|].
    destruct (set_all_shape items (Code.init nr nc)) as [-> ->].
    split; [done|]. split; [done|].
    intros k. rewrite set_all_lookup. cbn [Code.init data].
    rewrite lookup_empty. by destruct (last_write items k).
  - intros Hall. unfold Integral.load_from_file. rewrite file_lines_write.
    cbn [lookup list_lookup mbind option_bind].
    rewrite split_rows_header, split_cols_header.
    cbn [lookup list_lookup mbind option_bind rows cols].
    rewrite !strip_py_str, !py_int_py_str. cbn [mbind option_bind drop].
    rewrite drop_0, Integral_load_entries by done.
    cbn [mbind option_bind try_except]. rewrite Integral_init_eq.
    eexists. split; [done|]. split; [done|]. split; [done|].
    intros k. cbn [data]. rewrite assign_all_lookup, lookup_empty.
    by destruct (last_write items k).
Qed.

Lemma readers_keep_the_last_entry_witness :
  let items := [((0, 1), 5); ((1, 0), 7); ((0, 1), 0); ((1, 0), -3)] in
  let text := write_in_order items (mkSparseMatrix 2 2 ∅) in
  text = text_of_lines ["rows=2"; "cols=2"; "(0, 1, 5)"; "(1, 0, 7)";
                        "(0, 1, 0)"; "(1, 0, -3)"]
  ∧ (∃ m, Code.readFile text = Ok m
          ∧ data m !! (0, 1) = None ∧ data m !! (1, 0) = Some (-3))
  ∧ (∃ m, Integral.load_from_file text = Ok m
          ∧ data m !! (0, 1) = Some 0 ∧ data m !! (1, 0) = Some (-3)).
Proof.
  intros items text.
  assert (∀ r c v, ((r, c), v) ∈ items → (r < 2 ∧ c < 2) ∧ (0 ≤ r ∧ 0 ≤ c))
    as Hall.
  { intros r c v Hin. unfold items in Hin.
    repeat (apply elem_of_cons in Hin as [[= -> -> ->]|Hin]; [lia|]).
    by apply elem_of_nil in Hin. }
  destruct (readers_keep_the_last_entry 2 2 items) as [HC HI].
  split; [vm_compute; reflexivity|]. split.
  - destruct HC as (m & Hm & _ & _ & HL).
    { intros r c v Hin. by apply (Hall r c v). }
    exists m. split; [exact Hm|]. rewrite !HL. split; vm_compute; reflexivity.
  - destruct HI as (m & Hm & _ & _ & HL).
    { intros r c v Hin. by apply (Hall r c v). }
    exists m. split; [exact Hm|]. rewrite !HL. split; vm_compute; reflexivity.
Defined.

(** ** The readers: what is not in the format *)

Lemma entry_not_shaped (line : str) :
  entry_shaped line = false →
  (∀ nr nc m, Code.readFile_entry nr nc m line = None)
  ∧ (∀ d, Integral.load_entry d line = None).
Proof.
  unfold entry_shaped, Code.readFile_entry, Integral.load_entry. intros Hs.
  destruct (startswith "(" line); [|done].
  destruct (endswith ")" line); [|done].
  cbn [andb negb orb] in *. apply bool_decide_eq_false in Hs.
  destruct (split "," (slice_1_m1 line)) as [|p1 [|p2 [|p3 [|? ?]]]];
    done.
Qed.

(** X11: a malformed entry line.  When one of the lines after the two
    header lines does not start with ["("], does not end with [")"], or
    does not hold three fields separated by commas between them, both
    readers raise the [ValueError] of a wrong format, whatever the other
    lines are. *)
Theorem readers_reject_malformed_entry (text line : str) :
  line ∈ drop 2 (file_lines text) →
  entry_shaped line = false →
  Code.readFile text = Err FormatError
  ∧ Integral.load_from_file text = Err FormatError.
Proof.
  intros Hline Hs. destruct (entry_not_shaped line Hs) as [HC HI]. split.
  - unfold Code.readFile. cbv zeta.
    destruct (decide (length (file_lines text) < 2)%nat); [done|].
    destruct (file_lines text !! 0%nat) as [l0|]; [|done].
    destruct (file_lines text !! 1%nat) as [l1|]; [|done].
    cbn [fmap option_fmap option_map mbind option_bind].
    destruct (decide _); [done|].
    destruct (split "=" l0 !! 1%nat) as [f0|]; [|done].
    cbn [mbind option_bind].
    destruct (py_int f0) as [nr|]; [|done]. cbn [mbind option_bind].
    destruct (split "=" l1 !! 1%nat) as [f1|]; [|done].
    cbn [mbind option_bind].
    destruct (py_int f1) as [nc|]; [|done]. cbn [mbind option_bind].
    by rewrite (for_each_opt_fails _ _ line).
  - unfold Integral.load_from_file. cbv zeta.
    destruct (file_lines text !! 0%nat) as [l0|]; [|done].
    cbn [mbind option_bind].
    destruct (split "=" l0 !! 1%nat) as [f0|]; [|done].
    cbn [mbind option_bind].
    destruct (py_int (strip f0)) as [nr|]; [|done]. cbn [mbind option_bind].
    destruct (file_lines text !! 1%nat) as [l1|]; [|done].
    cbn [mbind option_bind].
    destruct (split "=" l1 !! 1%nat) as [f1|]; [|done].
    cbn [mbind option_bind].
    destruct (py_int (strip f1)) as [nc|]; [|done]. cbn [mbind option_bind].
    by rewrite (for_each_opt_fails _ _ line).
Qed.

Lemma readers_reject_malformed_entry_witness :
  let text := text_of_lines ["rows=2"; "cols=2"; "(0, 0, 1)"; "(1, 1)"] in
  Code.readFile text = Err FormatError
  ∧ Integral.load_from_file text = Err FormatError.
Proof.
  intros text.
  apply (readers_reject_malformed_entry text (lit "(1, 1)")).
  - vm_compute. apply list_elem_of_In. right. left. reflexivity.
  - vm_compute. reflexivity.
Defined.

(** X12: the header.  A text with fewer than two lines that are not blank
    is rejected by both readers.  A text whose first or second such line
    does not hold exactly one ["="] is rejected by [readFile]; one whose
    first or second line holds no ["="] is rejected by
    [load_from_file]. *)
Theorem readers_reject_bad_header (text : str) :
  ((length (file_lines text) < 2)%nat →
     Code.readFile text = Err FormatError
     ∧ Integral.load_from_file text = Err FormatError)
  ∧ (∀ l, file_lines text !! 0%nat = Some l ∨ file_lines text !! 1%nat = Some l →
       (length (split "=" l) ≠ 2%nat → Code.readFile text = Err FormatError)
       ∧ ((length (split "=" l) < 2)%nat →
            Integral.load_from_file text = Err FormatError)).
Proof.
  split.
  - intros Hlen. split.
    + unfold Code.readFile. cbv zeta. by rewrite decide_True.
    + unfold Integral.load_from_file. cbv zeta.
      assert (file_lines text !! 1%nat = None) as H1
        by (apply lookup_ge_None; lia).
      rewrite H1.
      destruct (file_lines text !! 0%nat) as [l0|]; [|done].
      cbn [mbind option_bind].
      destruct (split "=" l0 !! 1%nat) as [f0|]; [|done].
      cbn [mbind option_bind].
      by destruct (py_int (strip f0)).
  - intros l Hl. split.
    + intros Hne. unfold Code.readFile. cbv zeta.
      destruct (decide (length (file_lines text) < 2)%nat); [done|].
      destruct (file_lines text !! 0%nat) as [l0|] eqn:H0; [|done].
      destruct (file_lines text !! 1%nat) as [l1|] eqn:H1; [|done].
      cbn [fmap option_fmap option_map mbind option_bind].
      rewrite decide_True; [done|].
      destruct Hl as [[= ->]|[= ->]]; [by left|by right].
    + intros Hlt.
      assert (split "=" l !! 1%nat = None) as Hf
        by (apply lookup_ge_None; lia).
      unfold Integral.load_from_file. cbv zeta.
      destruct (file_lines text !! 0%nat) as [l0|] eqn:H0; [|done].
      cbn [mbind option_bind].
      destruct (split "=" l0 !! 1%nat) as [f0|] eqn:Hf0.
      2:{ done. }
      cbn [mbind option_bind].
      destruct (py_int (strip f0)) as [nr|]; [|done]. cbn [mbind option_bind].
      destruct (file_lines text !! 1%nat) as [l1|] eqn:H1; [|done].
      cbn [mbind option_bind].
      destruct Hl as [[= ->]|[= ->]]; [congruence|].
      by rewrite Hf.
Qed.

Lemma readers_reject_bad_header_witness :
  (Code.readFile (text_of_lines ["rows=2"]) = Err FormatError
   ∧ Integral.load_from_file (text_of_lines ["rows=2"]) = Err FormatError)
  ∧ Code.readFile (text_of_lines ["rows=2"; "cols=2=3"]) = Err FormatError
  ∧ Integral.load_from_file (text_of_lines ["rows 2"; "cols=2"])
    = Err FormatError.
Proof.
  split; [|split].
  - apply (proj1 (readers_reject_bad_header (text_of_lines ["rows=2"]))).
    vm_compute. lia.
  - apply (proj2 (readers_reject_bad_header
                    (text_of_lines ["rows=2"; "cols=2=3"])) (lit "cols=2=3")).
    + right. vm_compute. reflexivity.
    + vm_compute. lia.
  - apply (proj2 (readers_reject_bad_header
                    (text_of_lines ["rows 2"; "cols=2"])) (lit "rows 2")).
    + left. vm_compute. reflexivity.
    + vm_compute. lia.
Defined.

(** ** The readers: blank lines *)

Lemma split_by_cons (p : ascii → bool) (s : str) :
  ∃ w ws, split_by p s = w :: ws.
Proof.
  destruct s as [|c s]; [by eexists _, _|]. cbn [split_by].
  destruct (p c); [by eexists _, _|].
  destruct (split_by p s); by eexists _, _.
Qed.

Lemma split_by_app_sep (p : ascii → bool) (a : str) (sep : ascii) (b : str) :
  p sep = true →
  split_by p (a ++ sep :: b) = split_by p a ++ split_by p b.
Proof.
  intros Hsep. induction a as [|c a IH].
  - cbn [app split_by]. by rewrite Hsep.
  - rewrite <- app_comm_cons. cbn [split_by]. rewrite IH.
    destruct (p c); [done|].
    by destruct (split_by_cons p a) as (w & ws & ->).
Qed.

Lemma strip_cons_space (c : ascii) (s : str) :
  is_space c = true → strip (c :: s) = strip s.
Proof. intros Hc. unfold strip, strip_by. cbn [lstrip_by]. by rewrite Hc. Qed.

Lemma file_lines_app_eol (a : str) (sep : ascii) (b : str) :
  is_eol sep = true →
  file_lines (a ++ sep :: b) = file_lines a ++ file_lines b.
Proof.
  intros Hsep. unfold file_lines.
  by rewrite split_by_app_sep, fmap_app, filter_app.
Qed.

Lemma file_lines_blank_prefix (b t : str) :
  is_blank b = true → file_lines (b ++ t) = file_lines t.
Proof.
  unfold is_blank. induction b as [|c b IH]; [done|].
  cbn [forallb]. intros [Hc Hb]%andb_true_iff.
  rewrite <- app_comm_cons. rewrite <- (IH Hb).
  unfold file_lines. cbn [split_by].
  destruct (is_eol c).
  - rewrite fmap_cons, filter_cons. by rewrite decide_False by (by intros ?).
  - destruct (split_by_cons is_eol (b ++ t)) as (w & ws & ->).
    rewrite !fmap_cons, !filter_cons. by rewrite strip_cons_space.
Qed.

(** X13: blank text between the lines.  Text made of white space only,
    ends of line included, is ignored by both readers at the beginning of
    the file and after the end of any line: the file with it and the file
    without it are read to the same result, a matrix or the [ValueError]
    of a wrong format. *)
Theorem readers_skip_blank_lines (t1 b t2 : str) (eol : ascii) :
  is_blank b = true → is_eol eol = true →
  (Code.readFile (b ++ t2) = Code.readFile t2
   ∧ Integral.load_from_file (b ++ t2) = Integral.load_from_file t2)
  ∧ (Code.readFile (t1 ++ eol :: b ++ t2) = Code.readFile (t1 ++ eol :: t2)
     ∧ Integral.load_from_file (t1 ++ eol :: b ++ t2)
       = Integral.load_from_file (t1 ++ eol :: t2)).
Proof.
  intros Hb He.
  assert (file_lines (b ++ t2) = file_lines t2) as H1
    by by apply file_lines_blank_prefix.
  assert (file_lines (t1 ++ eol :: b ++ t2) = file_lines (t1 ++ eol :: t2))
    as H2 by by rewrite !file_lines_app_eol, H1.
  unfold Code.readFile, Integral.load_from_file. cbv zeta.
  by rewrite H1, H2.
Qed.

Lemma readers_skip_blank_lines_witness :
  let t1 := lit "rows=2" in
  let b := lit "   " ++ [LF; LF] ++ lit "  " in
  let t2 := text_of_lines ["cols=2"; "(0, 1, 5)"] in
  Code.readFile (t1 ++ LF :: b ++ t2)
  = Ok (mkSparseMatrix 2 2 {[ (0, 1) := 5 ]})
  ∧ Integral.load_from_file (t1 ++ LF :: b ++ t2)
    = Ok (mkSparseMatrix 2 2 {[ (0, 1) := 5 ]}).
Proof.
  intros t1 b t2.
  destruct (readers_skip_blank_lines t1 b t2 LF) as [_ [HC HI]];
    [vm_compute; reflexivity|vm_compute; reflexivity|].
  rewrite HC, HI. split; vm_compute; reflexivity.
Defined.

(** ** The product of [src/integral-file] and the validating [getElement] *)

Lemma range_pos (n : Z) : 0 < n → ∃ l, range n = 0 :: l.
Proof.
  intros Hn. unfold range.
  destruct (Z.to_nat n) as [|m] eqn:Hm; [lia|].
  cbn [seq fmap list_fmap]. by eexists.
Qed.

Lemma multiply_step_error (B : SparseMatrix) (i k v : Z) rd (j : Z) e :
  Integral.multiply_step B i k v rd j = Err e → e = IndexOutOfBounds.
Proof.
  unfold Integral.multiply_step, Integral.getElement.
  destruct (decide (Integral.out_of_bounds B k j)); cbn [mbind result_bind].
  - by intros [= <-].
  - cbn zeta. by repeat case_decide.
Qed.

Lemma multiply_steps_error (B : SparseMatrix) (i k v : Z) (js : list Z) rd e :
  for_each (Integral.multiply_step B i k v) js rd = Err e →
  e = IndexOutOfBounds.
Proof.
  revert rd. induction js as [|j js IH]; intros rd; [done|].
  rewrite for_each_cons.
  destruct (Integral.multiply_step B i k v rd j) as [rd1|e1] eqn:H1;
    cbn [mbind result_bind].
  - apply IH.
  - intros [= <-]. by apply multiply_step_error in H1.
Qed.

Lemma multiply_step_out (B : SparseMatrix) (i k v : Z) rd (j : Z) :
  Integral.out_of_bounds B k j →
  Integral.multiply_step B i k v rd j = Err IndexOutOfBounds.
Proof.
  intros Ho. unfold Integral.multiply_step.
  by rewrite Integral_getElement_out.
Qed.

Lemma multiply_entry_raises (B : SparseMatrix) (i k v : Z) rd :
  0 < cols B → ¬ 0 ≤ k < rows B →
  Integral.multiply_entry B (cols B) rd ((i, k), v) = Err IndexOutOfBounds.
Proof.
  intros Hc Hk. unfold Integral.multiply_entry.
  destruct (range_pos (cols B) Hc) as (l & ->). rewrite for_each_cons.
  rewrite multiply_step_out; [done|].
  unfold Integral.out_of_bounds. lia.
Qed.

Lemma multiply_entries_raise (B : SparseMatrix) (items : list ((Z * Z) * Z))
    rd (i k v : Z) :
  0 < cols B → ((i, k), v) ∈ items → ¬ 0 ≤ k < rows B →
  for_each (Integral.multiply_entry B (cols B)) items rd
  = Err IndexOutOfBounds.
Proof.
  intros Hc Hin Hk. revert rd.
  induction items as [|[[i0 k0] v0] items IH]; intros rd.
  - by apply elem_of_nil in Hin.
  - rewrite for_each_cons.
    destruct (Integral.multiply_entry B (cols B) rd (i0, k0, v0))
      as [rd1|e] eqn:H1; cbn [mbind result_bind].
    + apply elem_of_cons in Hin as [[= <- <- <-]|Hin].
      * by rewrite multiply_entry_raises in H1.
      * by apply IH.
    + f_equal. by apply multiply_steps_error in H1.
Qed.

(** The dictionary of the product when the columns of the keys of [A] lie
    inside its shape, whatever their rows. *)
Lemma Integral_multiply_in_order_columns (A B : SparseMatrix) items :
  (∀ i k v, data A !! (i, k) = Some v → 0 ≤ k < cols A) →
  cols A = rows B → listing items (data A) →
  ∃ Q, Integral.multiply_in_order items A B = Ok Q
       ∧ rows Q = rows A ∧ cols Q = cols B
       ∧ ∀ i j, data Q !! (i, j)
           = if decide (0 ≤ j < cols B) then elide (dot A B i j) else None.
Proof.
  intros HA Hd Hl. unfold Integral.multiply_in_order.
  rewrite decide_False by lia. cbn zeta.
  destruct (multiply_outer_loop B items ∅) as (rd & -> & Hnz & Hget).
  { intros i k v Hin. apply (listing_elem_of items (data A)) in Hin; [|done].
    apply HA in Hin. lia. }
  { intros k. by rewrite lookup_empty. }
  cbn [mbind result_bind]. rewrite Integral_init_eq.
  eexists. split; [done|]. split; [done|]. split; [done|].
  intros i j. cbn [data]. rewrite (lookup_of_get0 rd (i, j)) by apply Hnz.
  rewrite Hget, dict_get0_empty, Z.add_0_l.
  destruct (decide (0 ≤ j < cols B)) as [Hj|Hj].
  - rewrite (contributions_sum B (cols A)); try done.
    + rewrite (listing_to_map items (data A)) by done.
      fold (elide (dot A B i j)). done.
    + by eapply listing_NoDup.
    + intros i0 k v Hin.
      apply (listing_elem_of items (data A)) in Hin; [|done].
      by apply HA in Hin.
  - rewrite sumZ_zero; [done|]. intros [[i0 k] v] _. unfold contribution.
    rewrite decide_False; [done|]. by intros [_ ?].
Qed.

(** X14: what the product of [src/integral-file] checks of its first
    operand.  With [A.cols == B.rows] and [B.cols > 0], and whatever the
    order in which the entries of [A] are walked through: when a key of
    [A] has its column outside [0 <= k < A.cols], [multiply] raises the
    [IndexError] of [getElement]; otherwise it returns, and at every row
    [i], inside the shape or not, and every column [j] of the result the
    dictionary holds the coefficient of the product, unless it is zero.
    The product of [src/code], whose [getElement] checks nothing, returns
    in both cases. *)
Theorem sparse_multiply_checks_columns (A B : SparseMatrix)
    (items : list ((Z * Z) * Z)) :
  cols A = rows B → 0 < cols B → listing items (data A) →
  ((∃ i k v, data A !! (i, k) = Some v ∧ ¬ 0 ≤ k < cols A) →
     Integral.multiply_in_order items A B = Err IndexOutOfBounds)
  ∧ ((∀ i k v, data A !! (i, k) = Some v → 0 ≤ k < cols A) →
     ∃ Q, Integral.multiply_in_order items A B = Ok Q
          ∧ rows Q = rows A ∧ cols Q = cols B
          ∧ ∀ i j, 0 ≤ j < cols B →
              data Q !! (i, j) = elide (dot A B i j))
  ∧ ∃ P, Code.multiply A B = Ok P.
Proof.
  intros Hd Hc Hl. split; [|split].
  - intros (i & k & v & Hv & Hk). unfold Integral.multiply_in_order.
    rewrite decide_False by lia. cbn zeta.
    rewrite (multiply_entries_raise B items ∅ i k v); [done|done| |lia].
    by apply (listing_elem_of items (data A)).
  - intros HA.
    destruct (Integral_multiply_in_order_columns A B items HA Hd Hl)
      as (Q & HQ & Hr & Hc' & HL).
    exists Q. split; [done|]. split; [done|]. split; [done|].
    intros i j Hj. rewrite HL. by rewrite decide_True.
  - eexists. by apply Code_multiply_eq.
Qed.

Lemma sparse_multiply_checks_columns_witness :
  let A := mkSparseMatrix 1 2 {[ (0, 5) := 3 ]} in
  let A' := mkSparseMatrix 1 2 {[ (4, 1) := 3 ]} in
  let B := mkSparseMatrix 2 1 {[ (1, 0) := 2 ]} in
  Integral.multiply A B = Err IndexOutOfBounds
  ∧ (∃ P, Code.multiply A B = Ok P)
  ∧ ∃ Q, Integral.multiply A' B = Ok Q ∧ data Q !! (4, 0) = Some 6.
Proof.
  intros A A' B.
  destruct (sparse_multiply_checks_columns A B (map_to_list (data A)))
    as (Hraise & _ & HP); [reflexivity|reflexivity|apply listing_map_to_list|].
  destruct (sparse_multiply_checks_columns A' B (map_to_list (data A')))
    as (_ & Hok & _); [reflexivity|reflexivity|apply listing_map_to_list|].
  split; [|split].
  - apply Hraise. exists 0, 5, 3. split; [reflexivity|]. cbn. lia.
  - exact HP.
  - destruct Hok as (Q & HQ & _ & _ & HL).
    { intros i k v Hv. cbn [A' data cols] in *.
      apply lookup_singleton_Some in Hv as [[= <- <-] _]. lia. }
    exists Q. split; [exact HQ|]. rewrite HL by (cbn; lia).
    vm_compute. reflexivity.
Defined.

(** ** Objects that are shared *)

(** X15: the outcome of an operator depends on the values of its operands
    only.  Whatever the store, when the two references stand for the
    matrices [A] and [B], be they one object or two, with one dictionary
    or two, [add], [subtract] and [multiply] of either version return a
    reference to a matrix that is the result computed from [A] and [B],
    or raise the error computed from [A] and [B]; in both cases every
    object of the store of the call is as it was. *)
Theorem operators_depend_on_values_only
    (h : gmap Store.loc Store.obj) (self other : Store.loc)
    (A B : SparseMatrix) :
  Store.matrix_at h self = Some A → Store.matrix_at h other = Some B →
  ∀ method f, (method, f) ∈ operator_pairs →
    match f A B with
    | Ok C => ∃ res h', method self other h = (Store.Return res, h')
                        ∧ Store.matrix_at h' res = Some C
                        ∧ untouched h h'
    | Err e => ∃ h', method self other h = (Store.Raise (Store.Raised e), h')
                     ∧ untouched h h'
    end.
Proof.
  intros HA HB method f Hin. unfold operator_pairs in Hin.
  assert (untouched h h) as Hu by (by intros l o).
  repeat (apply elem_of_cons in Hin as [[= -> ->]|Hin]).
  - pose proof (Store_Code_add_refines h self other A B HA HB) as Hm.
    destruct (Code.add A B); [done|by exists h].
  - pose proof (Store_Code_subtract_refines h self other A B HA HB) as Hm.
    destruct (Code.subtract A B); [done|by exists h].
  - pose proof (Store_Code_multiply_refines h self other A B HA HB) as Hm.
    destruct (Code.multiply A B); [done|by exists h].
  - pose proof (Store_Integral_add_refines h self other A B HA HB) as Hm.
    destruct (Integral.add A B); [done|by exists h].
  - pose proof (Store_Integral_subtract_refines h self other A B HA HB) as Hm.
    destruct (Integral.subtract A B); [done|by exists h].
  - by apply Store_Integral_multiply_refines.
  - by apply elem_of_nil in Hin.
Qed.

Lemma operators_depend_on_values_only_witness :
  let h : gmap Store.loc Store.obj :=
    {[ 1%positive := Store.Dict {[ (0, 0) := 1; (0, 1) := 2 ]};
       2%positive := Store.Matrix 2 2 1%positive;
       3%positive := Store.Matrix 2 2 1%positive ]} in
  let A := mkSparseMatrix 2 2 {[ (0, 0) := 1; (0, 1) := 2 ]} in
  (∃ res h', Store.Code.add 2%positive 2%positive h = (Store.Return res, h')
     ∧ Store.matrix_at h' res
       = Some (mkSparseMatrix 2 2 {[ (0, 0) := 2; (0, 1) := 4 ]}))
  ∧ (∃ res h', Store.Integral.multiply 2%positive 3%positive h
               = (Store.Return res, h')
     ∧ Store.matrix_at h' res
       = Some (mkSparseMatrix 2 2 {[ (0, 0) := 1; (0, 1) := 2 ]})).
Proof.
  intros h A.
  assert (Store.matrix_at h 2%positive = Some A) as H2
    by (vm_compute; reflexivity).
  assert (Store.matrix_at h 3%positive = Some A) as H3
    by (vm_compute; reflexivity).
  split.
  - pose proof (operators_depend_on_values_only h 2%positive 2%positive A A
                  H2 H2 Store.Code.add Code.add) as Hadd.
    assert (Code.add A A
            = Ok (mkSparseMatrix 2 2 {[ (0, 0) := 2; (0, 1) := 4 ]})) as Hf
      by (vm_compute; reflexivity).
    rewrite Hf in Hadd. destruct Hadd as (res & h' & Hrun & Hres & _).
    { unfold operator_pairs. left. }
    by exists res, h'.
  - pose proof (operators_depend_on_values_only h 2%positive 3%positive A A
                  H2 H3 Store.Integral.multiply Integral.multiply) as Hmul.
    assert (Integral.multiply A A
            = Ok (mkSparseMatrix 2 2 {[ (0, 0) := 1; (0, 1) := 2 ]})) as Hf
      by (vm_compute; reflexivity).
    rewrite Hf in Hmul. destruct Hmul as (res & h' & Hrun & Hres & _).
    { unfold operator_pairs. do 5 right. left. }
    by exists res, h'.
Defined.

Lemma Code_setElement_in_place (h : gmap Store.loc Store.obj) m r c dl d
    (row col value : Z) :
  h !! m = Some (Store.Matrix r c dl) → h !! dl = Some (Store.Dict d) →
  Store.Code.setElement m row col value h
  = (Store.Return (),
     <[dl := Store.Dict
               (data (Code.setElement (mkSparseMatrix r c d) row col value))]>
       h).
Proof.
  intros Hm Hd. unfold Store.Code.setElement, Code.setElement.
  cbn [rows cols data].
  destruct (decide (value = 0)) as [->|Hv].
  - rewrite (run_bind _ _ _ _ _ (attr_data_run h m _ _ dl Hm)).
    rewrite (run_bind _ _ _ _ _ (dict_contains_run h dl _ (row, col) Hd)).
    destruct (decide (is_Some (d !! (row, col)))) as [Hp|Hp].
    + rewrite bool_decide_eq_true_2 by done.
      rewrite (run_bind _ _ _ _ _ (attr_data_run h m _ _ dl Hm)).
      by apply dict_delitem_run.
    + rewrite bool_decide_eq_false_2 by done. cbn [data].
      unfold Store.skip, mret, Store.M_ret. by rewrite insert_id.
  - rewrite (run_bind _ _ _ _ _ (attr_data_run h m _ _ dl Hm)).
    by apply dict_setitem_run.
Qed.

Lemma Integral_setElement_in_place (h : gmap Store.loc Store.obj) m r c dl d
    (row col value : Z) :
  h !! m = Some (Store.Matrix r c dl) → h !! dl = Some (Store.Dict d) →
  Store.Integral.setElement m row col value h
  = match Integral.setElement (mkSparseMatrix r c d) row col value with
    | Ok M' => (Store.Return (), <[dl := Store.Dict (data M')]> h)
    | Err e => (Store.Raise (Store.Raised e), h)
    end.
Proof.
  intros Hm Hd.
  assert (Store.matrix_at h m = Some (mkSparseMatrix r c d)) as HM.
  { apply matrix_at_Some. by exists dl. }
  pose proof (check_bounds_run h m _ row col HM) as Hcb.
  unfold Store.Integral.setElement, Integral.setElement.
  destruct (decide (Integral.out_of_bounds (mkSparseMatrix r c d) row col)).
  { by rewrite (raise_bind _ _ _ _ _ Hcb). }
  rewrite (run_bind _ _ _ _ _ Hcb). cbn [rows cols data].
  destruct (decide (value ≠ 0)) as [Hv|Hv].
  - rewrite (run_bind _ _ _ _ _ (attr_data_run h m _ _ dl Hm)).
    by apply dict_setitem_run.
  - rewrite (run_bind _ _ _ _ _ (attr_data_run h m _ _ dl Hm)).
    rewrite (run_bind _ _ _ _ _ (dict_contains_run h dl _ (row, col) Hd)).
    destruct (decide (is_Some (d !! (row, col)))) as [Hp|Hp].
    + rewrite bool_decide_eq_true_2 by done.
      rewrite (run_bind _ _ _ _ _ (attr_data_run h m _ _ dl Hm)).
      by apply dict_delitem_run.
    + rewrite bool_decide_eq_false_2 by done. cbn [data].
      unfold Store.skip, mret, Store.M_ret. by rewrite insert_id.
Qed.

(** X16: [setElement] writes in place.  On a matrix object whose
    dictionary is the object [dl], a call changes that object to the
    dictionary of the result and nothing else in the store: every matrix
    that shares [dl] stands for the new entries, every other object is as
    it was.  When [setElement] of [src/integral-file] raises its
    [IndexError], the store is as it was. *)
Theorem setElement_writes_in_place (h : gmap Store.loc Store.obj)
    (m dl : Store.loc) (r c : Z) (d : gmap (Z * Z) Z) (row col value : Z) :
  h !! m = Some (Store.Matrix r c dl) → h !! dl = Some (Store.Dict d) →
  let M := mkSparseMatrix r c d in
  (∃ h', Store.Code.setElement m row col value h = (Store.Return (), h')
     ∧ h' = <[dl := Store.Dict (data (Code.setElement M row col value))]> h
     ∧ ∀ x r' c', h !! x = Some (Store.Matrix r' c' dl) →
         Store.matrix_at h' x
         = Some (mkSparseMatrix r' c'
                   (data (Code.setElement M row col value))))
  ∧ match Integral.setElement M row col value with
    | Ok M' =>
        ∃ h', Store.Integral.setElement m row col value h
              = (Store.Return (), h')
          ∧ h' = <[dl := Store.Dict (data M')]> h
          ∧ ∀ x r' c', h !! x = Some (Store.Matrix r' c' dl) →
              Store.matrix_at h' x = Some (mkSparseMatrix r' c' (data M'))
    | Err e =>
        Store.Integral.setElement m row col value h
        = (Store.Raise (Store.Raised e), h)
    end.
Proof.
  intros Hm Hd M.
  assert (∀ d' x r' c', h !! x = Some (Store.Matrix r' c' dl) →
            Store.matrix_at (<[dl := Store.Dict d']> h) x
            = Some (mkSparseMatrix r' c' d')) as Hshare.
  { intros d' x r' c' Hx. apply matrix_at_Some. exists dl. cbn [rows cols data].
    split; [|apply lookup_insert_eq].
    rewrite lookup_insert_ne; [done|]. intros ->. congruence. }
  split.
  - eexists. split; [by apply (Code_setElement_in_place h m r c dl d)|].
    split; [done|]. apply Hshare.
  - pose proof (Integral_setElement_in_place h m r c dl d row col value Hm Hd)
      as Hrun. fold M in Hrun.
    destruct (Integral.setElement M row col value) as [M'|e]; [|done].
    eexists. split; [done|]. split; [done|]. apply Hshare.
Qed.

Lemma setElement_writes_in_place_witness :
  let h : gmap Store.loc Store.obj :=
    {[ 1%positive := Store.Dict {[ (0, 0) := 1 ]};
       2%positive := Store.Matrix 2 2 1%positive;
       3%positive := Store.Matrix 5 5 1%positive ]} in
  (∃ h', Store.Code.setElement 2%positive 1 1 7 h = (Store.Return (), h')
     ∧ Store.matrix_at h' 3%positive
       = Some (mkSparseMatrix 5 5 {[ (0, 0) := 1; (1, 1) := 7 ]}))
  ∧ Store.Integral.setElement 2%positive 2 0 7 h
    = (Store.Raise (Store.Raised IndexOutOfBounds), h).
Proof.
  intros h.
  destruct (setElement_writes_in_place h 2%positive 1%positive 2 2
              {[ (0, 0) := 1 ]} 1 1 7) as [(h' & Hrun & _ & Hshare) _];
    [reflexivity|reflexivity|].
  pose proof (setElement_writes_in_place h 2%positive 1%positive 2 2
                {[ (0, 0) := 1 ]} 2 0 7 eq_refl eq_refl) as [_ Hraise].
  split.
  - exists h'. split; [exact Hrun|].
    rewrite (Hshare 3%positive 5 5) by reflexivity.
    vm_compute. reflexivity.
  - exact Hraise.
Defined.

(** X17: the constructor of [src/integral-file] keeps the dictionary it is
    given, unless that dictionary is empty.  A matrix is made from the
    dictionary object [dl] and an element is written to it, inside the
    shape and not zero: the matrix holds the element, and so does [dl]
    when it was not empty; an empty [dl] stays empty, the matrix has a
    dictionary of its own. *)
Theorem integral_constructor_shares_dictionary
    (h : gmap Store.loc Store.obj) (dl : Store.loc) (d : gmap (Z * Z) Z)
    (r c row col value : Z) :
  h !! dl = Some (Store.Dict d) →
  0 ≤ row < r → 0 ≤ col < c → value ≠ 0 →
  ∃ m h',
    (m ← Store.Integral.init r c dl;
     _ ← Store.Integral.setElement m row col value;
     mret m) h = (Store.Return m, h')
    ∧ h !! m = None
    ∧ Store.matrix_at h' m
      = Some (mkSparseMatrix r c (<[(row, col) := value]> d))
    ∧ h' !! dl
      = Some (Store.Dict (if decide (d = ∅) then ∅
                          else <[(row, col) := value]> d)).
Proof.
  intros Hd Hrow Hcol Hv.
  assert (∀ d0, Integral.setElement (mkSparseMatrix r c d0) row col value
                = Ok (mkSparseMatrix r c (<[(row, col) := value]> d0)))
    as Hset.
  { intros d0. unfold Integral.setElement, Integral.out_of_bounds.
    cbn [rows cols data]. rewrite decide_False by lia.
    by rewrite decide_True. }
  unfold Store.Integral.init.
  assert (∀ (k : gmap (Z * Z) Z → Store.M Store.loc)
            (k' : Store.loc → Store.M Store.loc),
            ((Store.read_dict dl ≫= k) ≫= k') h = (k d ≫= k') h) as Hread.
  { intros k k'. unfold mbind at 1 3. unfold Store.M_bind.
    by rewrite (run_bind _ _ _ _ _ (read_dict_run h dl d Hd)). }
  rewrite Hread. clear Hread.
  destruct (decide (d = ∅)) as [->|Hne].
  - set (fd := fresh (dom h)).
    set (h1 := <[fd := Store.Dict ∅]> h).
    set (m := fresh (dom h1)).
    set (h2 := <[m := Store.Matrix r c fd]> h1).
    assert (h !! fd = None) as Hfd
      by (apply not_elem_of_dom, is_fresh).
    assert (h1 !! m = None) as Hm1
      by (apply not_elem_of_dom, is_fresh).
    assert (m ≠ fd) as Hmfd.
    { intros Heq. unfold h1 in Hm1. rewrite Heq in Hm1.
      by rewrite lookup_insert_eq in Hm1. }
    assert (h !! m = None) as Hm.
    { unfold h1 in Hm1. by rewrite lookup_insert_ne in Hm1. }
    assert (dl ≠ fd) as Hdfd by (intros ->; congruence).
    assert (dl ≠ m) as Hdm by (intros ->; congruence).
    assert (h2 !! m = Some (Store.Matrix r c fd)) as H2m
      by apply lookup_insert_eq.
    assert (h2 !! fd = Some (Store.Dict ∅)) as H2fd.
    { unfold h2. rewrite lookup_insert_ne by done. apply lookup_insert_eq. }
    pose proof (Integral_setElement_in_place h2 m r c fd ∅ row col value
                  H2m H2fd) as Hrun.
    rewrite Hset in Hrun. cbn [data] in Hrun.
    exists m, (<[fd := Store.Dict (<[(row, col) := value]> ∅)]> h2).
    split.
    { unfold mbind, Store.M_bind, Store.alloc. fold fd. fold h1. fold m.
      fold h2. unfold mbind, Store.M_bind in Hrun. by rewrite Hrun. }
    split; [done|]. split.
    + apply matrix_at_Some. exists fd. cbn [rows cols data]. split.
      * by rewrite lookup_insert_ne.
      * apply lookup_insert_eq.
    + rewrite lookup_insert_ne by done. unfold h2, h1.
      by rewrite !lookup_insert_ne.
  - set (m := fresh (dom h)).
    set (h1 := <[m := Store.Matrix r c dl]> h).
    assert (h !! m = None) as Hm by (apply not_elem_of_dom, is_fresh).
    assert (dl ≠ m) as Hdm by (intros ->; congruence).
    assert (h1 !! m = Some (Store.Matrix r c dl)) as H1m
      by apply lookup_insert_eq.
    assert (h1 !! dl = Some (Store.Dict d)) as H1d.
    { unfold h1. by rewrite lookup_insert_ne. }
    pose proof (Integral_setElement_in_place h1 m r c dl d row col value
                  H1m H1d) as Hrun.
    rewrite Hset in Hrun. cbn [data] in Hrun.
    exists m, (<[dl := Store.Dict (<[(row, col) := value]> d)]> h1).
    split.
    { unfold mbind, Store.M_bind, Store.alloc. fold m. fold h1.
      unfold mbind, Store.M_bind in Hrun. by rewrite Hrun. }
    split; [done|]. split.
    + apply matrix_at_Some. exists dl. cbn [rows cols data]. split.
      * by rewrite lookup_insert_ne.
      * apply lookup_insert_eq.
    + apply lookup_insert_eq.
Qed.

Lemma integral_constructor_shares_dictionary_witness :
  let h : gmap Store.loc Store.obj :=
    {[ 1%positive := Store.Dict {[ (0, 0) := 1 ]};
       2%positive := Store.Dict ∅ ]} in
  (∃ m h', (m ← Store.Integral.init 2 2 1%positive;
            _ ← Store.Integral.setElement m 1 1 7;
            mret m) h = (Store.Return m, h')
     ∧ h' !! 1%positive = Some (Store.Dict {[ (0, 0) := 1; (1, 1) := 7 ]}))
  ∧ (∃ m h', (m ← Store.Integral.init 2 2 2%positive;
              _ ← Store.Integral.setElement m 1 1 7;
              mret m) h = (Store.Return m, h')
     ∧ h' !! 2%positive = Some (Store.Dict ∅)).
Proof.
  intros h. split.
  - destruct (integral_constructor_shares_dictionary h 1%positive
                {[ (0, 0) := 1 ]} 2 2 1 1 7)
      as (m & h' & Hrun & _ & _ & Hdl); [reflexivity|lia|lia|lia|].
    exists m, h'. split; [exact Hrun|].
    etrans; [exact Hdl|]. vm_compute. reflexivity.
  - destruct (integral_constructor_shares_dictionary h 2%positive ∅ 2 2 1 1 7)
      as (m & h' & Hrun & _ & _ & Hdl); [reflexivity|lia|lia|lia|].
    exists m, h'. split; [exact Hrun|].
    etrans; [exact Hdl|]. vm_compute. reflexivity.
Defined.
